(** * WalletManager (src/create-wallets.js): a shallow embedding

    The development follows the source file:

    - [Js]      the JavaScript values the code computes with: Numbers as
                IEEE doubles (primitive floats) with [Number::toString],
                decimal strings, and the unit conversions [toWei] and
                [fromWei] of web3 1.x over arbitrary-precision integers
                (BN.js, here [Z]);
    - [Ledger]  the answers of the remote node and of the signer, as
                functions of the history of calls made so far;
    - [M]       the asynchronous methods as state-and-exception
                computations over [this] and that history, with fuel for
                the one loop that has no bound of its own;
    - [Async]   the async functions that run side by side, cut at every
                await, and [Promise.all] over the tasks that p-limit
                starts, whatever the order in which the answers arrive;
    - the methods of [class WalletManager]: [checkMainBalance],
                [waitForConfirmation], [createWallets], [getNextNonce],
                [processBatch], [createAndManageWallets];
    - [Interleaving] the funding tasks of one batch cut at the await inside
                [getNextNonce] only, under schedules given action by action;
    - [Variant] the two definitions of the earlier script
                (src/unnamed/part_001) that differ on nonces.
    - [Metrics] the counters that [trackMetrics] keeps in [this.metrics].

    Logging ([console], [logger]), [getPerformanceReport] and [main] are
    left out. *)

From Stdlib Require Import ZArith List String Ascii Bool Lia QArith Qround Floats Uint63
  Permutation.
Import ListNotations.

Local Open Scope string_scope.
Local Open Scope Z_scope.

(* ================================================================== *)
(** * JavaScript values *)

Module Js.

(** ** Decimal strings *)

Definition digit_char (d : Z) : ascii := ascii_of_nat (48 + Z.to_nat d).

Fixpoint digits_acc (fuel : nat) (n : Z) (acc : string) : string :=
  match fuel with
  | O => acc
  | S fuel' =>
      let acc' := String (digit_char (n mod 10)) acc in
      if n / 10 =? 0 then acc' else digits_acc fuel' (n / 10) acc'
  end.

(** Decimal digits of a natural number, most significant first. *)
Definition digits (n : Z) : string :=
  digits_acc (S (Z.to_nat (Z.log2 n))) n "".

(** [BN.prototype.toString(10)]. *)
Definition BN_toString (n : Z) : string :=
  if n <? 0 then "-" ++ digits (- n) else digits n.

Definition is_digit (c : ascii) : bool :=
  let k := nat_of_ascii c in (48 <=? k)%nat && (k <=? 57)%nat.

Definition digit_val (c : ascii) : Z := Z.of_nat (nat_of_ascii c) - 48.

Fixpoint parse_digits_acc (s : string) (acc : Z) : option Z :=
  match s with
  | EmptyString => Some acc
  | String c s' =>
      if is_digit c then parse_digits_acc s' (10 * acc + digit_val c) else None
  end.

(** [new BN(s, 10)] on a string of decimal digits. *)
Definition parse_digits (s : string) : option Z := parse_digits_acc s 0.

Fixpoint zeros (n : nat) : string :=
  match n with O => "" | S n' => String "0" (zeros n') end.

Fixpoint take (n : nat) (s : string) : string :=
  match n, s with
  | S n', String c s' => String c (take n' s')
  | _, _ => ""
  end.

Fixpoint drop (n : nat) (s : string) : string :=
  match n, s with
  | S n', String _ s' => drop n' s'
  | _, _ => s
  end.

(** [s.split('.')]. *)
Fixpoint split_dot (s : string) : list string :=
  match s with
  | EmptyString => [""]
  | String c s' =>
      if Ascii.eqb c "." then "" :: split_dot s'
      else match split_dot s' with
           | [] => [String c ""]
           | p :: ps => String c p :: ps
           end
  end.

Fixpoint strip_trailing_zeros_rev (r : list ascii) : list ascii :=
  match r with
  | c :: r' => if Ascii.eqb c "0" then strip_trailing_zeros_rev r' else r
  | [] => []
  end.

Definition strip_trailing_zeros (s : string) : string :=
  string_of_list_ascii
    (rev (strip_trailing_zeros_rev (rev (list_ascii_of_string s)))).

(** ** Numbers: IEEE 754 binary64 *)

Definition number := float.

(** An integer literal of the source (95, 100, 21000) as a Number; exact
    from 0 up to 2^53. *)
Definition of_int (z : Z) : number := PrimFloat.of_uint63 (Uint63.of_Z z).

(** Exact value of a positive finite double [m * 2^e]. *)
Definition Qpow2 (e : Z) : Q :=
  if 0 <=? e then inject_Z (2 ^ e) else Qinv (inject_Z (2 ^ (- e))).

Definition Qpow10 (p : Z) : Q :=
  if 0 <=? p then inject_Z (10 ^ p) else Qinv (inject_Z (10 ^ (- p))).

Definition Qlt_bool (a b : Q) : bool := negb (Qle_bool b a).

Section Shortest.
(** The double is [m * 2^e] with [m] its canonical significand. *)
Variables (m : positive) (e : Z).

Let x : Q := Qmult (inject_Z (Zpos m)) (Qpow2 e).

(** Half-way points to the neighbouring doubles.  The lower neighbour is
    twice as close when [m] is the least significand of its binade. *)
Let hi : Q := Qmult (inject_Z (4 * Zpos m + 2)) (Qpow2 (e - 2)).
Let lo : Q :=
  if (Zpos m =? 2 ^ 52) && (-1074 <? e)
  then Qmult (inject_Z (4 * Zpos m - 1)) (Qpow2 (e - 2))
  else Qmult (inject_Z (4 * Zpos m - 2)) (Qpow2 (e - 2)).

(** Does the real [v] round (to nearest, ties to even) to the double? *)
Definition rounds_here (v : Q) : bool :=
  if Z.even (Zpos m)
  then Qle_bool lo v && Qle_bool v hi
  else Qlt_bool lo v && Qlt_bool v hi.

(** The [n] with [10^(n-1) <= x < 10^n]. *)
Fixpoint adjust_exp10 (fuel : nat) (n : Z) : Z :=
  match fuel with
  | O => n
  | S fuel' =>
      if Qle_bool (Qpow10 n) x then adjust_exp10 fuel' (n + 1)
      else if Qlt_bool x (Qpow10 (n - 1)) then adjust_exp10 fuel' (n - 1)
      else n
  end.

Definition exp10 : Z :=
  adjust_exp10 4 (((Z.log2 (Zpos m) + e) * 30103) / 100000 + 1).

(** Search for the least digit count [k] such that some [s * 10^(n-k)]
    rounds to the double; among the two candidates the closer one wins,
    the even one on a tie. *)
Fixpoint shortest_from (fuel : nat) (n k : Z) : Z * Z :=
  let p := n - k in
  let s_lo := Qfloor (Qdiv x (Qpow10 p)) in
  let s_hi := s_lo + 1 in
  let v_lo := Qmult (inject_Z s_lo) (Qpow10 p) in
  let v_hi := Qmult (inject_Z s_hi) (Qpow10 p) in
  let ok_lo := rounds_here v_lo in
  let ok_hi := rounds_here v_hi in
  let pick :=
    match Qcompare (Qminus x v_lo) (Qminus v_hi x) with
    | Lt => s_lo
    | Gt => s_hi
    | Eq => if Z.even s_lo then s_lo else s_hi
    end in
  match fuel with
  | O => (s_lo, k)
  | S fuel' =>
      if ok_lo && ok_hi then (pick, k)
      else if ok_lo then (s_lo, k)
      else if ok_hi then (s_hi, k)
      else shortest_from fuel' n (k + 1)
  end.

(** Digits and the position of the decimal point after them. *)
Definition shortest : string * Z :=
  let n := exp10 in
  let '(s, k) := shortest_from 17 n 1 in
  let ds := digits s in
  let n' := if (Z.of_nat (String.length ds) =? k + 1) then n + 1 else n in
  (strip_trailing_zeros ds, n').
End Shortest.

(** [Number::toString(x)] for a positive finite double, ECMA-262 6.1.6.1.20
    steps 5 to 10. *)
Definition format_positive (ds : string) (n : Z) : string :=
  let k := Z.of_nat (String.length ds) in
  if (k <=? n) && (n <=? 21) then ds ++ zeros (Z.to_nat (n - k))
  else if (0 <? n) && (n <=? 21) then
    take (Z.to_nat n) ds ++ "." ++ drop (Z.to_nat n) ds
  else if (-6 <? n) && (n <=? 0) then "0." ++ zeros (Z.to_nat (- n)) ++ ds
  else
    let ex := n - 1 in
    let sgn := if ex <? 0 then "-" else "+" in
    if k =? 1 then ds ++ "e" ++ sgn ++ digits (Z.abs ex)
    else take 1 ds ++ "." ++ drop 1 ds ++ "e" ++ sgn ++ digits (Z.abs ex).

(** [String(x)], [x.toString()] and string concatenation with a Number. *)
Definition toString (x : number) : string :=
  match Prim2SF x with
  | S754_nan => "NaN"
  | S754_zero _ => "0"
  | S754_infinity s => if s then "-Infinity" else "Infinity"
  | S754_finite s m e =>
      let '(ds, n) := shortest m e in
      (if s then "-" else "") ++ format_positive ds n
  end.

(** [x !== x]. *)
Definition is_nan (x : number) : bool := negb (PrimFloat.eqb x x).

(** [Math.min(x, y)]: NaN when either is NaN, and [-0] below [+0]. *)
Definition Math_min (x y : number) : number :=
  if is_nan x then x
  else if is_nan y then y
  else if PrimFloat.ltb x y then x
  else if PrimFloat.ltb y x then y
  else match Prim2SF x with
       | S754_zero true => x
       | _ => y
       end.

(** [Number.isInteger(x)]. *)
Definition isInteger (x : number) : bool :=
  match Prim2SF x with
  | S754_zero _ => true
  | S754_finite _ m e => (0 <=? e) || (Zpos m mod 2 ^ (- e) =? 0)
  | _ => false
  end.

(** How often [for (let i = 0; i < count; i++)] turns when it ends: as
    often as the least natural number that is not below [count], and never
    when [count] is NaN, zero or negative. *)
Definition iterations (count : number) : Z :=
  match Prim2SF count with
  | S754_finite false m e =>
      if 0 <=? e then Zpos m * 2 ^ e else - (- Zpos m / 2 ^ (- e))
  | _ => 0
  end.

(** The loop does not end when [count] is above 2^53: [i++] leaves [i] at
    2^53, which stays below [count]. *)
Definition endless (count : number) : bool :=
  match Prim2SF count with
  | S754_infinity false => true
  | _ => 2 ^ 53 <? iterations count
  end.

(** [JSON.stringify(x)] for a Number. *)
Definition JSON_stringify (x : number) : string :=
  match Prim2SF x with
  | S754_nan | S754_infinity _ => "null"
  | _ => toString x
  end.

(** ** Errors *)

(** A thrown [Error] object; only its [message] is ever read. *)
Record Error : Type := mkError { message : string }.

(** ** web3.utils unit conversions (web3 1.x, ethjs-unit), unit 'ether' *)

(** The test [/^-?[0-9.]+$/] on a string argument. *)
Definition matches_number (s : string) : bool :=
  let body := match s with
              | String c r => if Ascii.eqb c "-" then r else s
              | EmptyString => s
              end in
  negb (String.eqb body "") &&
  forallb (fun c => is_digit c || Ascii.eqb c ".") (list_ascii_of_string body).

Definition or_zero (s : string) : string :=
  if String.eqb s "" then "0" else s.

(** [web3.utils.toWei(etherInput, "ether")] on a string: the amount in wei,
    or the error ethjs-unit throws. *)
Definition toWei (etherInput : string) : Error + Z :=
  if negb (matches_number etherInput) then
    inl (mkError ("while converting number to string, invalid number value '"
                  ++ etherInput ++ "', should be a number matching (^-?[0-9.]+)."))
  else
    let negative := match etherInput with
                    | String c _ => Ascii.eqb c "-"
                    | EmptyString => false
                    end in
    let ether := if negative then drop 1 etherInput else etherInput in
    if String.eqb ether "." then
      inl (mkError ("[ethjs-unit] while converting number " ++ etherInput
                    ++ " to wei, invalid value"))
    else
      let comps := split_dot ether in
      if (2 <? List.length comps)%nat then
        inl (mkError ("[ethjs-unit] while converting number " ++ etherInput
                      ++ " to wei,  too many decimal points"))
      else
        let whole := or_zero (nth 0 comps "") in
        let fraction := or_zero (nth 1 comps "") in
        if (18 <? String.length fraction)%nat then
          inl (mkError ("[ethjs-unit] while converting number " ++ etherInput
                        ++ " to wei, too many decimal places"))
        else
          let fraction := fraction ++ zeros (18 - String.length fraction) in
          match parse_digits whole, parse_digits fraction with
          | Some w, Some f =>
              let wei := w * 10 ^ 18 + f in
              inr (if negative then - wei else wei)
          | _, _ =>
              inl (mkError "Invalid character")
          end.

(** [web3.utils.fromWei(wei, "ether")] on a BN. *)
Definition fromWei (weiInput : Z) : string :=
  let negative := weiInput <? 0 in
  let wei := Z.abs weiInput in
  let fraction := digits (wei mod 10 ^ 18) in
  let fraction := zeros (18 - String.length fraction) ++ fraction in
  let fraction := or_zero (strip_trailing_zeros fraction) in
  let whole := digits (wei / 10 ^ 18) in
  let value := whole ++ (if String.eqb fraction "0" then "" else "." ++ fraction) in
  if negative then "-" ++ value else value.

Definition quote : string := String (ascii_of_nat 34) "".

(** [web3.utils.toBN(x)] for a Number (number-to-bn): the integer that
    [String(x)] spells when it is a string of digits after an optional
    sign, and an error for any other Number, be it NaN, a fraction or an
    integer from 1e21 on. *)
Definition toBN (x : number) : Error + Z :=
  let s := toString x in
  let negative := match s with
                  | String c _ => Ascii.eqb c "-"
                  | EmptyString => false
                  end in
  let body := if negative then drop 1 s else s in
  match (if String.eqb body "" then None else parse_digits body) with
  | Some n => inr (if negative then - n else n)
  | None =>
      inl (mkError ("Error: [number-to-bn] while converting number "
                    ++ JSON_stringify x ++ " to BN.js instance, error: invalid number "
                    ++ "value. Value must be an integer, hex string, BN or BigNumber "
                    ++ "instance. Note, decimals are not supported. Given value: "
                    ++ quote ++ s ++ quote))
  end.

End Js.

Import Js.

(* ================================================================== *)
(** * Data *)

(** An account object of web3: [web3.eth.accounts.create()] and
    [privateKeyToAccount] return these. *)
Record Wallet : Type := mkWallet { address : string; privateKey : string }.

(** The transaction object literal built before signing.  [value], [gas],
    [gasPrice] and [nonce] are decimal strings or Numbers in the source and
    integers here ([nonce: '0'] is the integer 0). *)
Record Tx : Type := mkTx {
  tx_from : string;
  tx_to : string;
  tx_value : Z;
  tx_gas : Z;
  tx_gasPrice : Z;
  tx_nonce : Z
}.

Record Receipt : Type := mkReceipt { status : bool; transactionHash : string }.

(** The values stored in the [error] field of an outcome and of a report
    entry. *)
Inductive JsValue : Type :=
| JsUndefined
| JsString (s : string)
| JsError (e : Error).

(** Property access [v.message]. *)
Definition get_message (v : JsValue) : Error + JsValue :=
  match v with
  | JsUndefined =>
      inl (mkError "Cannot read properties of undefined (reading 'message')")
  | JsString _ => inr JsUndefined
  | JsError e => inr (JsString (message e))
  end.

Inductive OpType : Type := fund | return_.

Inductive Stage : Type := funding | returning.

(** What a funding or return task resolves to. *)
Record Outcome : Type := mkOutcome {
  success : bool;
  wallet : Wallet;
  error : JsValue;
  type : OpType
}.

Record FailedOp : Type := mkFailedOp {
  fo_address : string;
  fo_error : JsValue;
  fo_stage : Stage
}.

(** The [results] object of [createAndManageWallets]. *)
Record Results : Type := mkResults {
  successful : list string;
  failed : list FailedOp;
  created : Z
}.

(** ** The remote node *)

(** Every call that leaves the process, and every pause. *)
Inductive Event : Type :=
| EvGetBalance (addr : string)
| EvGetGasPrice
| EvGetTransactionCount (addr : string) (block : string)
| EvCreate
| EvSignMain (tx : Tx)
| EvSign (tx : Tx) (key : string)
| EvSend (raw : string)
| EvGetReceipt (txHash : string)
| EvSleep (ms : Z).

(** The answers of web3; each may depend on everything that happened
    before (the history, most recent event first).  [inl] is a rejected
    promise or a thrown exception. *)
Record Ledger : Type := mkLedger {
  getBalance : list Event -> string -> Error + Z;
  getGasPrice : list Event -> Error + Z;
  getTransactionCount : list Event -> string -> string -> Error + Z;
  create : list Event -> Error + Wallet;
  signTransaction : list Event -> Tx -> string -> Error + string;
  sendSignedTransaction : list Event -> string -> Error + Receipt;
  getTransactionReceipt : list Event -> string -> Error + option Receipt
}.

(** [CONFIG]: the three entries read from the environment. *)
Record Config : Type := mkConfig {
  BATCH_DELAY : Z;
  CONFIRMATION_DELAY : Z;
  CONCURRENT_TRANSACTIONS : Z
}.

Definition GAS_LIMIT : Z := 21000.
Definition CONFIRMATION_ATTEMPTS : nat := 20.
Definition RETRY_COUNT : nat := 3.

(** ** The instance *)

(** The fields of [this] that the methods read or write. *)
Record Manager : Type := mkManager {
  mainWallet : Wallet;
  batchSize : number;               (* whatever Number the caller passed *)
  wallets : list Wallet;
  currentNonce : option Z          (* [null] is [None] *)
}.

(** [this], the history of calls, and a record of what each [processBatch]
    call returned (most recent first).  No method reads the last two. *)
Record State : Type := mkState {
  this : Manager;
  history : list Event;
  returned : list (list Outcome * list Outcome)
}.

(** [new WalletManager(mainPrivateKey, batchSize)], given the account
    [privateKeyToAccount] derives. *)
Definition constructor (main : Wallet) (batchSize : number) : State :=
  mkState (mkManager main batchSize [] None) [] [].

Arguments constructor main batchSize%_float.
Arguments mkManager mainWallet batchSize%_float wallets%_list currentNonce.

(* ================================================================== *)
(** * State and exceptions *)

Definition M (A : Type) : Type := State -> (Error + A) * State.

Definition ret {A} (a : A) : M A := fun s => (inr a, s).

Definition throw {A} (e : Error) : M A := fun s => (inl e, s).

Definition bind {A B} (c : M A) (k : A -> M B) : M B :=
  fun s => match c s with
           | (inr a, s') => k a s'
           | (inl e, s') => (inl e, s')
           end.

Notation "x <- c ;; k" := (bind c (fun x => k))
  (at level 100, c at next level, right associativity).

(** [try { c } catch (error) { h error }]. *)
Definition try_catch {A} (c : M A) (h : Error -> M A) : M A :=
  fun s => match c s with
           | (inl e, s') => h e s'
           | r => r
           end.

Definition lift {A} (r : Error + A) : M A := fun s => (r, s).

Definition get_this : M Manager := fun s => (inr (this s), s).

Definition set_this (m : Manager) : M unit :=
  fun s => (inr tt, mkState m (history s) (returned s)).

(** A call answered by the node: the answer is read off the history so
    far, then the call joins the history. *)
Definition call {A} (ev : Event) (answer : list Event -> Error + A) : M A :=
  fun s => (answer (history s), mkState (this s) (ev :: history s) (returned s)).

(** [await new Promise(resolve => setTimeout(resolve, ms))]. *)
Definition sleep (ms : Z) : M unit := call (EvSleep ms) (fun _ => inr tt).

Definition record_return (b : list Outcome * list Outcome) : M unit :=
  fun s => (inr tt, mkState (this s) (history s) (b :: returned s)).

Definition get_history : M (list Event) := fun s => (inr (history s), s).

(** The calls [f x], each awaited before the next is made; the results
    come in the order of [xs]. *)
Fixpoint mapM {A B} (f : A -> M B) (xs : list A) : M (list B) :=
  match xs with
  | [] => ret []
  | x :: xs' => y <- f x ;; ys <- mapM f xs' ;; ret (y :: ys)
  end.

(** [xs.forEach(x => f x)] threading the object the callback updates. *)
Fixpoint forEach {A R} (f : A -> R -> M R) (xs : list A) (r : R) : M R :=
  match xs with
  | [] => ret r
  | x :: xs' => r' <- f x r ;; forEach f xs' r'
  end.

Definition set_wallets (ws : list Wallet) : M unit :=
  me <- get_this ;;
  set_this (mkManager (mainWallet me) (batchSize me) ws (currentNonce me)).

Definition set_currentNonce (n : option Z) : M unit :=
  me <- get_this ;;
  set_this (mkManager (mainWallet me) (batchSize me) (wallets me) n).

(** The number a counter field stands for; [null] converts to 0. *)
Definition to_number (v : option Z) : Z :=
  match v with Some n => n | None => 0 end.

(** [this.currentNonce++] as a statement. *)
Definition increment_currentNonce : M unit :=
  me <- get_this ;;
  set_currentNonce (Some (to_number (currentNonce me) + 1)).

(** The request [getNextNonce] sends. *)
Definition fetch_request (me : Manager) : Event :=
  EvGetTransactionCount (address (mainWallet me)) "pending".

(* ================================================================== *)
(** * class WalletManager *)

Section WalletManager.

Variable L : Ledger.
Variable cfg : Config.

(** ** checkMainBalance

    The only caller passes the string [totalRequired], on which
    [.toString()] is the identity. *)
Definition checkMainBalance (requiredAmount : string) : M bool :=
  me <- get_this ;;
  balance <- call (EvGetBalance (address (mainWallet me)))
                  (fun h => getBalance L h (address (mainWallet me))) ;;
  requiredWei <- lift (toWei requiredAmount) ;;
  if balance <? requiredWei then
    throw (mkError ("Insufficient balance. Required: " ++ requiredAmount
                    ++ " ETH, Available: " ++ fromWei balance ++ " ETH"))
  else ret true.

(** ** waitForConfirmation *)

(** The body of the inner [try]: one poll.  [Some receipt] stands for
    [return receipt], [None] for falling out of the [if]. *)
Definition pollOnce (txHash : string) : M (option Receipt) :=
  receipt <- call (EvGetReceipt txHash)
                  (fun h => getTransactionReceipt L h txHash) ;;
  match receipt with
  | Some r =>
      if status r then ret (Some r)
      else throw (mkError ("Transaction " ++ txHash ++ " failed on-chain"))
  | None => ret None
  end.

(** [while (attempts < maxAttempts)], entered with
    [remaining = maxAttempts - attempts].  The inner [catch] only logs. *)
Fixpoint pollLoop (txHash : string) (remaining : nat) : M (option Receipt) :=
  match remaining with
  | O => ret None
  | S remaining' =>
      r <- try_catch (pollOnce txHash) (fun _ => ret None) ;;
      match r with
      | Some receipt => ret (Some receipt)
      | None =>
          _ <- sleep (CONFIRMATION_DELAY cfg) ;;
          pollLoop txHash remaining'
      end
  end.

(** The body of the outer [try]: one round of polls, then the timeout. *)
Definition pollRound (txHash : string) (maxAttempts : nat) : M (option Receipt) :=
  r <- pollLoop txHash maxAttempts ;;
  match r with
  | Some receipt => ret (Some receipt)
  | None => throw (mkError ("Transaction confirmation timeout: " ++ txHash))
  end.

(** [for (let retry = 0; retry < retryCount; retry++)], entered with
    [remaining = retryCount - retry]. *)
Fixpoint retryLoop (txHash : string) (maxAttempts retryCount retry remaining : nat)
  : M (option Receipt) :=
  match remaining with
  | O => ret None
  | S remaining' =>
      r <- try_catch (pollRound txHash maxAttempts)
             (fun error =>
                if (retry =? retryCount - 1)%nat then throw error
                else _ <- sleep 5000 ;; ret None) ;;
      match r with
      | Some receipt => ret (Some receipt)
      | None => retryLoop txHash maxAttempts retryCount (S retry) remaining'
      end
  end.

(** The promise resolves with the receipt, or with [undefined] ([None])
    when the [for] loop ends without returning. *)
Definition waitForConfirmation (txHash : string) (maxAttempts retryCount : nat)
  : M (option Receipt) :=
  retryLoop txHash maxAttempts retryCount 0 retryCount.

(** ** createWallets *)

Fixpoint createLoop (remaining : nat) (newWallets : list Wallet) : M (list Wallet) :=
  match remaining with
  | O => ret newWallets
  | S remaining' =>
      w <- call EvCreate (create L) ;;
      createLoop remaining' (newWallets ++ [w])%list
  end.

Definition createWallets (count : Z) : M (list Wallet) :=
  newWallets <- createLoop (Z.to_nat count) [] ;;
  me <- get_this ;;
  _ <- set_wallets (wallets me ++ newWallets)%list ;;
  ret newWallets.

(** ** getNextNonce *)

(** What runs once the awaited transaction count has arrived. *)
Definition getNextNonce_resume (count : Z) : M Z :=
  _ <- set_currentNonce (Some count) ;;
  me <- get_this ;;
  let nonce := to_number (currentNonce me) in
  _ <- increment_currentNonce ;;
  ret nonce.

Definition getNextNonce : M Z :=
  try_catch
    (me <- get_this ;;
     count <- call (fetch_request me)
                   (fun h => getTransactionCount L h (address (mainWallet me)) "pending") ;;
     getNextNonce_resume count)
    (fun error => throw error).

(** ** The two tasks of processBatch, run without a break

    Each task as one computation, as it runs when no other task gets in
    between; [Async.fundTask] and [Async.returnTask] are the same tasks cut
    at their awaits. *)

Definition fundTx (main : Wallet) (gasPrice fundValue nonce : Z) (w : Wallet) : Tx :=
  mkTx (address main) (address w) fundValue GAS_LIMIT gasPrice nonce.

(** The task from the signature on, once the nonce is known. *)
Definition fundTask_submit (me : Manager) (gasPrice fundValue : Z) (w : Wallet)
  (nonce : Z) : M Outcome :=
  let tx := fundTx (mainWallet me) gasPrice fundValue nonce w in
  signed <- call (EvSignMain tx)
                 (fun h => signTransaction L h tx (privateKey (mainWallet me))) ;;
  receipt <- call (EvSend signed) (fun h => sendSignedTransaction L h signed) ;;
  _ <- waitForConfirmation (transactionHash receipt)
                           CONFIRMATION_ATTEMPTS RETRY_COUNT ;;
  ret (mkOutcome true w JsUndefined fund).

Definition fund_failure (w : Wallet) (error : Error) : M Outcome :=
  ret (mkOutcome false w (JsString (message error)) fund).

Definition fundTask (gasPrice fundValue : Z) (w : Wallet) : M Outcome :=
  try_catch
    (me <- get_this ;;
     nonce <- getNextNonce ;;
     fundTask_submit me gasPrice fundValue w nonce)
    (fund_failure w).

Definition returnTx (main : Wallet) (gasPrice returnValue : Z) (w : Wallet) : Tx :=
  let gasNeeded := GAS_LIMIT * gasPrice in
  let actualReturnValue := returnValue - gasNeeded in
  mkTx (address w) (address main) actualReturnValue GAS_LIMIT gasPrice 0.

Definition returnTask (gasPrice returnValue : Z) (w : Wallet) : M Outcome :=
  try_catch
    (me <- get_this ;;
     let tx := returnTx (mainWallet me) gasPrice returnValue w in
     signed <- call (EvSign tx (privateKey w))
                    (fun h => signTransaction L h tx (privateKey w)) ;;
     receipt <- call (EvSend signed) (fun h => sendSignedTransaction L h signed) ;;
     _ <- waitForConfirmation (transactionHash receipt)
                              CONFIRMATION_ATTEMPTS RETRY_COUNT ;;
     ret (mkOutcome true w JsUndefined return_))
    (fun error => ret (mkOutcome false w (JsString (message error)) return_)).

(** [pLimit(concurrency)] rejects anything but an integer from 1 up. *)
Definition pLimit (concurrency : Z) : M unit :=
  if concurrency <? 1 then
    throw (mkError "Expected `concurrency` to be a number from 1 and up")
  else ret tt.

(** Nominal amount to send back, in wei. *)
Definition returnValueOf (fundAmount returnPercentage : number) : Error + Z :=
  toWei (toString (PrimFloat.div (PrimFloat.mul fundAmount returnPercentage)
                                 (of_int 100))).

End WalletManager.

(* ================================================================== *)
(** * Async functions, await by await

    An async function runs until it awaits, and runs on when what it
    awaited has arrived; other functions run in between.  A [Task A] is
    what is left to run of an async function whose promise resolves with
    an [A]: it is over, resolved or rejected; or it goes on after reading
    [this], after assigning to fields of [this], or after an await.  A call
    that leaves the process is answered from the history at the time it is
    made, as in [call]; the answer is what the task runs on with when it is
    resumed. *)

Module Async.

Inductive Task (A : Type) : Type :=
| Resolve (a : A)
| Reject (e : Error)
| Read (k : Manager -> Task A)
| Update (f : Manager -> Manager) (k : Task A)
| Await (B : Type) (ev : Event) (answer : list Event -> Error + B)
        (k : Error + B -> Task A).

Arguments Resolve {A} a.
Arguments Reject {A} e.
Arguments Read {A} k.
Arguments Update {A} f k.
Arguments Await {A B} ev answer k.

Fixpoint bind {A B} (c : Task A) (k : A -> Task B) : Task B :=
  match c with
  | Resolve a => k a
  | Reject e => Reject e
  | Read k' => Read (fun me => bind (k' me) k)
  | Update f c' => Update f (bind c' k)
  | Await ev answer k' => Await ev answer (fun r => bind (k' r) k)
  end.

(** [try { c } catch (error) { h error }]. *)
Fixpoint try_catch {A} (c : Task A) (h : Error -> Task A) : Task A :=
  match c with
  | Resolve a => Resolve a
  | Reject e => h e
  | Read k => Read (fun me => try_catch (k me) h)
  | Update f c' => Update f (try_catch c' h)
  | Await ev answer k => Await ev answer (fun r => try_catch (k r) h)
  end.

Declare Scope task_scope.
Delimit Scope task_scope with task.
Bind Scope task_scope with Task.

Notation "x <- c ;; k" := (bind c (fun x => k))
  (at level 100, c at next level, right associativity) : task_scope.

(** [await] of a call that leaves the process: a rejected promise is
    thrown where it is awaited. *)
Definition await {B} (ev : Event) (answer : list Event -> Error + B) : Task B :=
  Await ev answer (fun r => match r with
                            | inr b => Resolve b
                            | inl e => Reject e
                            end).

Definition sleep (ms : Z) : Task unit := await (EvSleep ms) (fun _ => inr tt).

Definition get_this : Task Manager := Read (fun me => Resolve me).

Definition set_currentNonce (n : option Z) : Task unit :=
  Update (fun me => mkManager (mainWallet me) (batchSize me) (wallets me) n)
         (Resolve tt).

Definition increment_currentNonce : Task unit :=
  Update (fun me => mkManager (mainWallet me) (batchSize me) (wallets me)
                              (Some (to_number (currentNonce me) + 1)))
         (Resolve tt).

(** ** The task on its own

    The task run to its end with no other task in between: every await
    is answered at once. *)
Fixpoint alone {A} (c : Task A) : M A :=
  match c with
  | Resolve a => ret a
  | Reject e => throw e
  | Read k => fun s => alone (k (this s)) s
  | Update f c' => fun s => alone c' (mkState (f (this s)) (history s) (returned s))
  | Await ev answer k =>
      fun s => alone (k (answer (history s)))
                     (mkState (this s) (ev :: history s) (returned s))
  end.

(** ** The tasks behind a limiter

    [Promise.all(xs.map(x => limit(() => f x)))]: p-limit has at most
    [concurrency] of the tasks started and not yet settled, starts them in
    the order of [xs], and starts the next one when one settles.  A slot
    holds a task that waits for its start, or what a started task runs on
    with once its answer has arrived, or what it resolved with. *)

Inductive Slot (A : Type) : Type :=
| Queued (c : Task A)
| Pending (c : Task A)
| Settled (a : A).

Arguments Queued {A} c.
Arguments Pending {A} c.
Arguments Settled {A} a.

Definition is_pending {A} (slot : Slot A) : bool :=
  match slot with Pending _ => true | _ => false end.

Definition is_settled {A} (slot : Slot A) : bool :=
  match slot with Settled _ => true | _ => false end.

(** [limit.activeCount]. *)
Definition activeCount {A} (slots : list (Slot A)) : Z :=
  Z.of_nat (List.length (filter is_pending slots)).

(** The task runs up to its next await, where the request goes out and is
    answered, or to its end; a task that rejects makes [Promise.all]
    reject. *)
Fixpoint proceed {A} (c : Task A) : M (Slot A) :=
  match c with
  | Resolve a => ret (Settled a)
  | Reject e => throw e
  | Read k => fun s => proceed (k (this s)) s
  | Update f c' => fun s => proceed c' (mkState (f (this s)) (history s) (returned s))
  | Await ev answer k =>
      fun s => (inr (Pending (k (answer (history s)))),
                mkState (this s) (ev :: history s) (returned s))
  end.

(** The limiter starts queued tasks, in order, into its [free] places. *)
Fixpoint start {A} (free : nat) (slots : list (Slot A)) : M (list (Slot A)) :=
  match slots with
  | [] => ret []
  | Queued c :: rest =>
      match free with
      | O => ret slots
      | S free' =>
          slot <- proceed c ;;
          rest' <- start (if is_pending slot then free' else free) rest ;;
          ret (slot :: rest')
      end
  | slot :: rest =>
      rest' <- start free rest ;;
      ret (slot :: rest')
  end.

(** The answer awaited by the [k]-th pending task arrives, counting from
    0 in the order of the slots. *)
Fixpoint resume {A} (k : nat) (slots : list (Slot A)) : M (list (Slot A)) :=
  match slots with
  | [] => ret []
  | Pending c :: rest =>
      match k with
      | O => slot <- proceed c ;; ret (slot :: rest)
      | S k' => rest' <- resume k' rest ;; ret (Pending c :: rest')
      end
  | slot :: rest =>
      rest' <- resume k rest ;;
      ret (slot :: rest')
  end.

(** What is left of a slot, run to its end. *)
Definition settle {A} (slot : Slot A) : M A :=
  match slot with
  | Settled a => ret a
  | Pending c => alone c
  | Queued c => alone c
  end.

Section Limiter.

(** [concurrency] is what [pLimit] was given.  [arrival h n] tells which
    of the awaited answers arrives next when the history is [h] and [n]
    tasks have settled: the pending tasks are counted in the order of the
    slots, and [arrival h n] is taken modulo their number. *)
Variable concurrency : Z.
Variable arrival : list Event -> nat -> nat.

Context {A : Type}.

(** The turns of the event loop: the limiter fills its free places, then
    one answer arrives.  The loop ends when nothing is awaited.  [fuel]
    bounds the turns. *)
Fixpoint turns (fuel : nat) (slots : list (Slot A)) : M (list (Slot A)) :=
  slots <- start (Z.to_nat (concurrency - activeCount slots)) slots ;;
  match filter is_pending slots, fuel with
  | (_ :: _) as awaited, S fuel' =>
      h <- get_history ;;
      let k := (arrival h (List.length (filter is_settled slots))
                mod List.length awaited)%nat in
      slots <- resume k slots ;;
      turns fuel' slots
  | _, _ => ret slots
  end.

(** The results in the order of the tasks.  With fuel for every await of
    every task, all slots are settled when the loop ends; a slot that is
    not is run to its end then. *)
Definition all (fuel : nat) (tasks : list (Task A)) : M (list A) :=
  slots <- turns fuel (map Queued tasks) ;;
  mapM settle slots.

End Limiter.

(** ** The methods that run inside the tasks of a batch *)

Section Methods.

Variable L : Ledger.
Variable cfg : Config.

Local Open Scope task_scope.

Definition pollOnce (txHash : string) : Task (option Receipt) :=
  receipt <- await (EvGetReceipt txHash)
                   (fun h => getTransactionReceipt L h txHash) ;;
  match receipt with
  | Some r =>
      if status r then Resolve (Some r)
      else Reject (mkError ("Transaction " ++ txHash ++ " failed on-chain"))
  | None => Resolve None
  end.

Fixpoint pollLoop (txHash : string) (remaining : nat) : Task (option Receipt) :=
  match remaining with
  | O => Resolve None
  | S remaining' =>
      r <- try_catch (pollOnce txHash) (fun _ => Resolve None) ;;
      match r with
      | Some receipt => Resolve (Some receipt)
      | None =>
          _ <- sleep (CONFIRMATION_DELAY cfg) ;;
          pollLoop txHash remaining'
      end
  end.

Definition pollRound (txHash : string) (maxAttempts : nat) : Task (option Receipt) :=
  r <- pollLoop txHash maxAttempts ;;
  match r with
  | Some receipt => Resolve (Some receipt)
  | None => Reject (mkError ("Transaction confirmation timeout: " ++ txHash))
  end.

Fixpoint retryLoop (txHash : string) (maxAttempts retryCount retry remaining : nat)
  : Task (option Receipt) :=
  match remaining with
  | O => Resolve None
  | S remaining' =>
      r <- try_catch (pollRound txHash maxAttempts)
             (fun error =>
                if (retry =? retryCount - 1)%nat then Reject error
                else _ <- sleep 5000 ;; Resolve None) ;;
      match r with
      | Some receipt => Resolve (Some receipt)
      | None => retryLoop txHash maxAttempts retryCount (S retry) remaining'
      end
  end.

Definition waitForConfirmation (txHash : string) (maxAttempts retryCount : nat)
  : Task (option Receipt) :=
  retryLoop txHash maxAttempts retryCount 0 retryCount.

Definition getNextNonce : Task Z :=
  try_catch
    (me <- get_this ;;
     count <- await (fetch_request me)
                    (fun h => getTransactionCount L h (address (mainWallet me)) "pending") ;;
     _ <- set_currentNonce (Some count) ;;
     me <- get_this ;;
     let nonce := to_number (currentNonce me) in
     _ <- increment_currentNonce ;;
     Resolve nonce)
    (fun error => Reject error).

Definition fundTask (gasPrice fundValue : Z) (w : Wallet) : Task Outcome :=
  try_catch
    (me <- get_this ;;
     nonce <- getNextNonce ;;
     let tx := fundTx (mainWallet me) gasPrice fundValue nonce w in
     signed <- await (EvSignMain tx)
                     (fun h => signTransaction L h tx (privateKey (mainWallet me))) ;;
     receipt <- await (EvSend signed) (fun h => sendSignedTransaction L h signed) ;;
     _ <- waitForConfirmation (transactionHash receipt)
                              CONFIRMATION_ATTEMPTS RETRY_COUNT ;;
     Resolve (mkOutcome true w JsUndefined fund))
    (fun error => Resolve (mkOutcome false w (JsString (message error)) fund)).

Definition returnTask (gasPrice returnValue : Z) (w : Wallet) : Task Outcome :=
  try_catch
    (me <- get_this ;;
     let tx := returnTx (mainWallet me) gasPrice returnValue w in
     signed <- await (EvSign tx (privateKey w))
                     (fun h => signTransaction L h tx (privateKey w)) ;;
     receipt <- await (EvSend signed) (fun h => sendSignedTransaction L h signed) ;;
     _ <- waitForConfirmation (transactionHash receipt)
                              CONFIRMATION_ATTEMPTS RETRY_COUNT ;;
     Resolve (mkOutcome true w JsUndefined return_))
    (fun error => Resolve (mkOutcome false w (JsString (message error)) return_)).

(** The awaits of a funding task, at most: the count, the signature, the
    submission, and in each of the [RETRY_COUNT] rounds the polls, the
    pauses after them and the pause before the next round. *)
Definition lifetime : nat :=
  3 + RETRY_COUNT * (2 * CONFIRMATION_ATTEMPTS + 1).

End Methods.

End Async.

(* ================================================================== *)
(** * class WalletManager: the batches *)

Section Batches.

Variable L : Ledger.
Variable cfg : Config.

(** The order in which the answers arrive, see [Async.turns]. *)
Variable arrival : list Event -> nat -> nat.

(** ** processBatch *)

(** [Promise.all(xs.map(x => limit(() => task x)))]. *)
Definition all_limited {A} (tasks : list (Async.Task A)) : M (list A) :=
  Async.all (CONCURRENT_TRANSACTIONS cfg) arrival
            (Async.lifetime * List.length tasks) tasks.

Definition processBatch (ws : list Wallet) (fundAmount returnPercentage : number)
  : M (list Outcome * list Outcome) :=
  try_catch
    (gasPrice <- call EvGetGasPrice (getGasPrice L) ;;
     fundValue <- lift (toWei (toString fundAmount)) ;;
     returnValue <- lift (returnValueOf fundAmount returnPercentage) ;;
     _ <- pLimit (CONCURRENT_TRANSACTIONS cfg) ;;
     fundResults <- all_limited (map (Async.fundTask L cfg gasPrice fundValue) ws) ;;
     let successfullyFunded := map wallet (filter success fundResults) in
     returnResults <-
       all_limited (map (Async.returnTask L cfg gasPrice returnValue) successfullyFunded) ;;
     _ <- record_return (fundResults, returnResults) ;;
     ret (fundResults, returnResults))
    (fun error => throw error).

(** ** createAndManageWallets *)

Definition record_fund (result : Outcome) (results : Results) : M Results :=
  if negb (success result) then
    msg <- lift (get_message (error result)) ;;
    ret (mkResults (successful results)
                   (failed results ++ [mkFailedOp (address (wallet result)) msg funding])%list
                   (created results))
  else ret results.

Definition record_return_stage (result : Outcome) (results : Results) : M Results :=
  if negb (success result) then
    msg <- lift (get_message (error result)) ;;
    ret (mkResults (successful results)
                   (failed results ++ [mkFailedOp (address (wallet result)) msg returning])%list
                   (created results))
  else
    ret (mkResults (successful results ++ [address (wallet result)])%list
                   (failed results)
                   (created results)).

(** One turn of the batch loop, pause included.  [size] is the loop's
    local [batchSize]; [walletCount], [i] and [this.batchSize] are
    Numbers. *)
Definition batchBody (walletCount fundAmount i : number) (results : Results)
  : M Results :=
  me <- get_this ;;
  let size := Math_min (batchSize me) (PrimFloat.sub walletCount i) in
  newWallets <- createWallets L (iterations size) ;;
  let results := mkResults (successful results) (failed results)
                           (created results + Z.of_nat (List.length newWallets)) in
  batch <- processBatch newWallets fundAmount (of_int 95) ;;
  let '(fundResults, returnResults) := batch in
  results <- forEach record_fund fundResults results ;;
  results <- forEach record_return_stage returnResults results ;;
  me <- get_this ;;
  _ <- (if PrimFloat.ltb (PrimFloat.add i (batchSize me)) walletCount
        then sleep 1000 else ret tt) ;;
  ret results.

(** [for (let i = 0; i < walletCount; i += this.batchSize)].  The loop has
    no bound of its own when [this.batchSize] is not above 0; [None] is a
    run that is still going when the fuel is spent, or that is inside a
    [createWallets] whose loop does not end. *)
Fixpoint batchLoop (fuel : nat) (walletCount fundAmount i : number)
  (results : Results) (s : State) : option ((Error + Results) * State) :=
  if PrimFloat.ltb i walletCount then
    match fuel with
    | O => None
    | S fuel' =>
        if endless (Math_min (batchSize (this s)) (PrimFloat.sub walletCount i))
        then None
        else
          match batchBody walletCount fundAmount i results s with
          | (inr results', s') =>
              batchLoop fuel' walletCount fundAmount
                        (PrimFloat.add i (batchSize (this s'))) results' s'
          | (inl e, s') => Some (inl e, s')
          end
    end
  else Some (inr results, s).

(** What precedes the loop inside the [try]. *)
Definition preflight (walletCount fundAmount : number) : M unit :=
  let gasLimit := of_int 21000 in
  gasPrice <- call EvGetGasPrice (getGasPrice L) ;;
  units <- lift (toBN (PrimFloat.mul (PrimFloat.mul gasLimit (of_int 2)) walletCount)) ;;
  let estimatedGasCost := fromWei (gasPrice * units) in
  let totalRequired :=
    toString (PrimFloat.mul fundAmount walletCount) ++ estimatedGasCost in
  _ <- checkMainBalance L totalRequired ;;
  ret tt.

Definition wrap_failure (error : Error) : Error :=
  mkError ("Wallet creation failed: " ++ message error).

(** [fundAmount] is a Number by its type. *)
Definition createAndManageWallets (fuel : nat) (walletCount fundAmount : number)
  (s : State) : option ((Error + Results) * State) :=
  if negb (isInteger walletCount) || PrimFloat.leb walletCount PrimFloat.zero then
    Some (inl (mkError "Wallet count must be a positive integer"), s)
  else if PrimFloat.leb fundAmount PrimFloat.zero then
    Some (inl (mkError "Fund amount must be a positive number"), s)
  else
    match preflight walletCount fundAmount s with
    | (inl e, s') => Some (inl (wrap_failure e), s')
    | (inr _, s') =>
        match batchLoop fuel walletCount fundAmount PrimFloat.zero (mkResults [] [] 0) s' with
        | Some (inl e, s'') => Some (inl (wrap_failure e), s'')
        | r => r
        end
    end.

End Batches.

(* ================================================================== *)
(** * The funding tasks of a batch, interleaved

    [fundPromises] holds one task per wallet behind [limit]: at most
    [CONCURRENT_TRANSACTIONS] of them are past their start and not yet
    settled, and they start in the order of the wallets.  A started task
    runs up to its first await, the request for the transaction count
    inside [getNextNonce]; the node answers from what it has seen by then.
    When the task is resumed it runs on from that answer.  The awaits
    further down the task are not cut here: a resumed task runs to its
    outcome. *)

Module Interleaving.

Section Pool.

Variable L : Ledger.
Variable cfg : Config.
Variables gasPrice fundValue : Z.

Inductive Task : Type :=
| Queued (w : Wallet)
| AwaitingCount (w : Wallet) (answer : Error + Z)
| Settled (o : Outcome).

Record Pool : Type := mkPool { tasks : list Task; state : State }.

Inductive Action : Type :=
| Start               (* the limiter starts the next queued task *)
| Resume (i : nat).   (* the answer awaited by task [i] arrives *)

Definition queue (ws : list Wallet) (s : State) : Pool :=
  mkPool (map Queued ws) s.

Definition is_awaiting (t : Task) : bool :=
  match t with AwaitingCount _ _ => true | _ => false end.

Definition activeCount (ts : list Task) : Z :=
  Z.of_nat (List.length (filter is_awaiting ts)).

(** [fundTask] up to the await: the request goes out and is answered. *)
Definition fundTask_request : M (Error + Z) :=
  me <- get_this ;;
  call (fetch_request me)
       (fun h => inr (getTransactionCount L h (address (mainWallet me)) "pending")).

(** [fundTask] from the await on. *)
Definition fundTask_resume (w : Wallet) (answer : Error + Z) : M Outcome :=
  try_catch
    (me <- get_this ;;
     nonce <- try_catch (count <- lift answer ;; getNextNonce_resume count)
                        (fun error => throw error) ;;
     fundTask_submit L cfg me gasPrice fundValue w nonce)
    (fund_failure w).

(** Start the first queued task. *)
Fixpoint start_first (ts : list Task) (s : State) : option (list Task * State) :=
  match ts with
  | [] => None
  | Queued w :: ts' =>
      match fundTask_request s with
      | (inr answer, s') => Some (AwaitingCount w answer :: ts', s')
      | (inl _, _) => None
      end
  | t :: ts' =>
      match start_first ts' s with
      | Some (ts'', s') => Some (t :: ts'', s')
      | None => None
      end
  end.

Fixpoint resume_at (i : nat) (ts : list Task) (s : State) : option (list Task * State) :=
  match ts, i with
  | AwaitingCount w answer :: ts', O =>
      match fundTask_resume w answer s with
      | (inr o, s') => Some (Settled o :: ts', s')
      | (inl _, _) => None
      end
  | t :: ts', S i' =>
      match resume_at i' ts' s with
      | Some (ts'', s') => Some (t :: ts'', s')
      | None => None
      end
  | _, _ => None
  end.

(** One action, when it is enabled. *)
Definition step (a : Action) (p : Pool) : option Pool :=
  match a with
  | Start =>
      if activeCount (tasks p) <? CONCURRENT_TRANSACTIONS cfg then
        match start_first (tasks p) (state p) with
        | Some (ts, s) => Some (mkPool ts s)
        | None => None
        end
      else None
  | Resume i =>
      match resume_at i (tasks p) (state p) with
      | Some (ts, s) => Some (mkPool ts s)
      | None => None
      end
  end.

Fixpoint run (schedule : list Action) (p : Pool) : option Pool :=
  match schedule with
  | [] => Some p
  | a :: schedule' =>
      match step a p with
      | Some p' => run schedule' p'
      | None => None
      end
  end.

(** [fundResults], once every task has settled. *)
Fixpoint outcomes (ts : list Task) : option (list Outcome) :=
  match ts with
  | [] => Some []
  | Settled o :: ts' =>
      match outcomes ts' with
      | Some os => Some (o :: os)
      | None => None
      end
  | _ :: _ => None
  end.

End Pool.

(** The nonces of the funding transactions signed so far, oldest first. *)
Definition issued_nonces (h : list Event) : list Z :=
  rev (flat_map (fun ev => match ev with
                           | EvSignMain tx => [tx_nonce tx]
                           | _ => []
                           end) h).

End Interleaving.

(* ================================================================== *)
(** * The earlier script (src/unnamed/part_001)

    Its [getNextNonce] asks the node once and counts locally from then on,
    and its return transaction takes its nonce from that same counter,
    carries the nominal return value and a gas limit of 210000, and keeps
    the caught error object in the outcome. *)

Module Variant.

Section Methods.

Variable L : Ledger.
Variable cfg : Config.

Definition getNextNonce : M Z :=
  me <- get_this ;;
  _ <- match currentNonce me with
       | None =>
           count <- call (EvGetTransactionCount (address (mainWallet me)) "latest")
                         (fun h => getTransactionCount L h (address (mainWallet me)) "latest") ;;
           set_currentNonce (Some count)
       | Some _ => ret tt
       end ;;
  me <- get_this ;;
  _ <- increment_currentNonce ;;
  ret (to_number (currentNonce me)).

Definition returnTx (main : Wallet) (gasPrice returnValue nonce : Z) (w : Wallet) : Tx :=
  mkTx (address w) (address main) returnValue 210000 gasPrice nonce.

Definition returnTask (gasPrice returnValue : Z) (w : Wallet) : M Outcome :=
  try_catch
    (me <- get_this ;;
     nonce <- getNextNonce ;;
     let tx := returnTx (mainWallet me) gasPrice returnValue nonce w in
     signed <- call (EvSign tx (privateKey w))
                    (fun h => signTransaction L h tx (privateKey w)) ;;
     receipt <- call (EvSend signed) (fun h => sendSignedTransaction L h signed) ;;
     _ <- waitForConfirmation L cfg (transactionHash receipt) 20 3 ;;
     ret (mkOutcome true w JsUndefined return_))
    (fun error => ret (mkOutcome false w (JsError error) return_)).

End Methods.

End Variant.

(* ================================================================== *)
(** * The metrics

    [trackMetrics] reads and writes [this.metrics] and nothing else of
    [this]. *)

Module Metrics.

(** [this.metrics].  The two counters are Numbers that hold natural
    numbers; the times are the integers that [Date.now()] returns, [null]
    being [None]; [gasUsed] is a BN. *)
Record Metrics : Type := mkMetrics {
  startTime : option Z;
  endTime : option Z;
  successfulTransactions : Z;
  failedTransactions : Z;
  gasUsed : Z
}.

(** As the constructor sets it up. *)
Definition initial : Metrics := mkMetrics None None 0 0 0.

(** [n++] on a Number that holds a natural number: the sum is exact below
    2^53, and at 2^53 it rounds back to 2^53. *)
Definition increment (n : Z) : Z := if n <? 2 ^ 53 then n + 1 else n.

(** [!t] for a time or [null]. *)
Definition not_set (t : option Z) : bool :=
  match t with
  | None => true
  | Some t => t =? 0
  end.

(** [trackMetrics(operation, success, gasUsed)].  [now] is what
    [Date.now()] returns and [gas] what [web3.utils.toBN(gasUsed)] returns
    or throws; [operation] is not read. *)
Definition trackMetrics (now : Z) (success : bool) (gas : Error + Z) (m : Metrics)
  : (Error + unit) * Metrics :=
  let m :=
    if not_set (startTime m)
    then mkMetrics (Some now) (endTime m) (successfulTransactions m)
                   (failedTransactions m) (gasUsed m)
    else m in
  if success then
    let m := mkMetrics (startTime m) (endTime m) (increment (successfulTransactions m))
                       (failedTransactions m) (gasUsed m) in
    match gas with
    | inr g =>
        (inr tt, mkMetrics (startTime m) (endTime m) (successfulTransactions m)
                           (failedTransactions m) (gasUsed m + g))
    | inl e => (inl e, m)
    end
  else
    (inr tt, mkMetrics (startTime m) (endTime m) (successfulTransactions m)
                       (increment (failedTransactions m)) (gasUsed m)).

(** One call: the time it is made at, its [success] and the gas it
    reports, already a BN. *)
Record Call : Type := mkCall { at_time : Z; succeeded : bool; gas : Z }.

(** The calls of a list made one after the other. *)
Fixpoint track (calls : list Call) (m : Metrics) : Metrics :=
  match calls with
  | [] => m
  | c :: calls' =>
      track calls' (snd (trackMetrics (at_time c) (succeeded c) (inr (gas c)) m))
  end.

(** The gas reported by the calls with [success = true]. *)
Definition gas_of_successes (calls : list Call) : Z :=
  fold_right (fun c total => if succeeded c then gas c + total else total) 0 calls.

Definition failed_call (c : Call) : bool := negb (succeeded c).

End Metrics.

(* ================================================================== *)
(** * The total the pre-flight check is specified to require

    In the words of the specification, with every amount in wei:
    [fundAmount * totalAccountCount + perAccountGasReserve * totalAccountCount]. *)

Definition required_total (fundAmount totalAccountCount perAccountGasReserve : Z) : Z :=
  fundAmount * totalAccountCount + perAccountGasReserve * totalAccountCount.

(* ================================================================== *)
(** * A node to run against *)

Module Demo.

Definition count_events (p : Event -> bool) (h : list Event) : Z :=
  Z.of_nat (List.length (filter p h)).

Definition is_create (ev : Event) : bool :=
  match ev with EvCreate => true | _ => false end.

(** The raw transaction spells out sender, recipient and nonce. *)
Definition raw_of (tx : Tx) : string :=
  tx_from tx ++ ">" ++ tx_to tx ++ "#" ++ BN_toString (tx_nonce tx).

(** A node that holds [balance] for every address, quotes [gasPrice],
    names the k-th created account "0xW<k>", refuses the raw transactions
    in [reject] at submission and counts, on top of [baseline], the ones of
    a sender it took, and reports every transaction hash in [reverted] as
    mined with [status = false] and any other as mined with
    [status = true]. *)
Definition node (balance gasPrice baseline : Z) (reject reverted : string -> bool)
  : Ledger :=
  let taken_from addr ev :=
    match ev with
    | EvSend raw => String.prefix (addr ++ ">") raw && negb (reject raw)
    | _ => false
    end in
  {| getBalance := fun _ _ => inr balance;
     getGasPrice := fun _ => inr gasPrice;
     getTransactionCount := fun h addr _ =>
       inr (baseline + count_events (taken_from addr) h);
     create := fun h =>
       let k := BN_toString (count_events is_create h) in
       inr (mkWallet ("0xW" ++ k) ("key" ++ k));
     signTransaction := fun _ tx _ => inr (raw_of tx);
     sendSignedTransaction := fun _ raw =>
       if reject raw then inl (mkError ("rejected: " ++ raw))
       else inr (mkReceipt true ("0xH:" ++ raw));
     getTransactionReceipt := fun _ txHash =>
       inr (Some (mkReceipt (negb (reverted txHash)) txHash)) |}.

Definition nobody (_ : string) : bool := false.

Definition config : Config := mkConfig 1000 3000 5.

Definition main : Wallet := mkWallet "0xMAIN" "mainkey".

Definition gwei : Z := 10 ^ 9.
Definition ether : Z := 10 ^ 18.

(** The Number 0.001, the default [FUND_AMOUNT]. *)
Definition milli : number := PrimFloat.div (of_int 1) (of_int 1000).

(** A node with 50 ether, gas at 1 gwei and 7 transactions of the main
    wallet on record, on which nothing goes wrong. *)
Definition quiet : Ledger := node (50 * ether) gwei 7 nobody nobody.

(** The same node, except that it refuses the funding transaction of the
    second account at submission, whatever its nonce, and reports the
    return transaction of the third as reverted. *)
Definition rough : Ledger :=
  node (50 * ether) gwei 7
       (String.prefix "0xMAIN>0xW1#") (String.eqb "0xH:0xW2>0xMAIN#0").

Definition w0 : Wallet := mkWallet "0xW0" "key0".
Definition w1 : Wallet := mkWallet "0xW1" "key1".
Definition w2 : Wallet := mkWallet "0xW2" "key2".

(** The answers arrive for the pending tasks in turn. *)
Definition taking_turns (h : list Event) (settled : nat) : nat := List.length h.

(** One batch of three accounts, 1 ether each, on the rough node. *)
Definition sample_batch : (Error + list Outcome * list Outcome) * State :=
  processBatch rough config taking_turns [w0; w1; w2] (of_int 1) (of_int 95)
               (constructor main 50).

Definition sample_batch_outcomes : list Outcome * list Outcome :=
  Eval vm_compute in
    match fst sample_batch with inr b => b | inl _ => ([], []) end.

Definition sample_batch_state : State := Eval vm_compute in snd sample_batch.

(** A whole run: three accounts in batches of two, 1 ether each, on the
    rough node. *)
Definition sample_run : option ((Error + Results) * State) :=
  createAndManageWallets rough config taking_turns 10 (of_int 3) (of_int 1)
                         (constructor main 2).

Definition sample_results : Results :=
  Eval vm_compute in
    match sample_run with
    | Some (inr r, _) => r
    | _ => mkResults [] [] 0
    end.

Definition sample_state : State :=
  Eval vm_compute in
    match sample_run with
    | Some (_, s) => s
    | None => constructor main 2
    end.

End Demo.

(* ================================================================== *)
(** * Vocabulary of the properties *)

(** [advance P s s']: from [s] to [s'] the main wallet, the batch size and
    the record of returned batches are untouched, and the history has grown
    by events that all satisfy [P]. *)
Definition advance (P : Event -> Prop) (s s' : State) : Prop :=
  mainWallet (this s') = mainWallet (this s) /\
  batchSize (this s') = batchSize (this s) /\
  returned s' = returned s /\
  exists added, history s' = (added ++ history s)%list /\ Forall P added.

(** [emits main P c]: started with main wallet [main], [c] advances the
    state by events in [P], whether it returns or throws. *)
Definition emits {A} (main : Wallet) (P : Event -> Prop) (c : M A) : Prop :=
  forall s, mainWallet (this s) = main -> advance P s (snd (c s)).

Definition is_poll (ev : Event) : bool :=
  match ev with EvGetReceipt _ => true | _ => false end.

Definition is_fetch (ev : Event) : bool :=
  match ev with EvGetTransactionCount _ _ => true | _ => false end.

(** Number of events of a kind in a history. *)
Definition occurrences (p : Event -> bool) (h : list Event) : nat :=
  List.length (filter p h).

Definition poll_event (ev : Event) : Prop :=
  match ev with
  | EvGetReceipt _ | EvSleep _ => True
  | _ => False
  end.

Definition timeout_error (txHash : string) : Error :=
  mkError ("Transaction confirmation timeout: " ++ txHash).

Definition onchain_error (txHash : string) : Error :=
  mkError ("Transaction " ++ txHash ++ " failed on-chain").

Definition sequencer_event (ev : Event) : Prop :=
  match ev with EvGetTransactionCount _ _ => True | _ => False end.

Definition fund_event (ev : Event) : Prop :=
  match ev with
  | EvGetTransactionCount _ _ | EvSignMain _ | EvSend _
  | EvGetReceipt _ | EvSleep _ => True
  | _ => False
  end.

(** Events of a return task run with gas price [gp] and nominal return
    value [rv]: no request for a transaction count, and every signature is
    over [returnTx] of some wallet, with that wallet's key. *)
Definition return_event (main : Wallet) (gp rv : Z) (ev : Event) : Prop :=
  match ev with
  | EvSign tx key => exists w, tx = returnTx main gp rv w /\ key = privateKey w
  | EvSend _ | EvGetReceipt _ | EvSleep _ => True
  | _ => False
  end.

(** An outcome as a task for wallet [w] of kind [t] produces it: a failure
    carries the message string of what was caught. *)
Definition outcome_of (w : Wallet) (t : OpType) (o : Outcome) : Prop :=
  wallet o = w /\ type o = t /\
  (success o = true -> error o = JsUndefined) /\
  (success o = false -> exists msg, error o = JsString msg).

(** The signature request of the return task of wallet [w]. *)
Definition return_signature (main : Wallet) (gp rv : Z) (w : Wallet) : Event :=
  EvSign (returnTx main gp rv w) (privateKey w).

(** What a call of [processBatch] that returns has done: [gp] is the gas
    price it was quoted, [rv] the nominal return value in wei, and the
    history grew by the events of the funding tasks, then by those of the
    return tasks. *)
Record batch_run (L : Ledger) (ws : list Wallet) (fundAmount returnPercentage : number)
  (s s' : State) (fundResults returnResults : list Outcome)
  (gp rv : Z) (fundEvents returnEvents : list Event) : Prop := {
  run_gasPrice : getGasPrice L (history s) = inr gp;
  run_returnValue : returnValueOf fundAmount returnPercentage = inr rv;
  run_funded : Forall2 (fun w o => outcome_of w fund o) ws fundResults;
  run_returned :
    Forall2 (fun w o => outcome_of w return_ o)
            (map wallet (filter success fundResults)) returnResults;
  run_mainWallet : mainWallet (this s') = mainWallet (this s);
  run_batchSize : batchSize (this s') = batchSize (this s);
  run_log : returned s' = (fundResults, returnResults) :: returned s;
  run_history :
    history s' = (returnEvents ++ fundEvents ++ EvGetGasPrice :: history s)%list;
  run_fund_events : Forall fund_event fundEvents;
  run_return_events :
    Forall (return_event (mainWallet (this s)) gp rv) returnEvents;
  run_return_signed : forall w,
    In w (map wallet (filter success fundResults)) ->
    In (return_signature (mainWallet (this s)) gp rv w) returnEvents
}.

Definition create_event (ev : Event) : Prop :=
  match ev with EvCreate => True | _ => False end.

Definition failed_funding (o : Outcome) : FailedOp :=
  mkFailedOp (address (wallet o)) JsUndefined funding.

Definition failed_returning (o : Outcome) : FailedOp :=
  mkFailedOp (address (wallet o)) JsUndefined returning.

Definition unsuccessful (o : Outcome) : bool := negb (success o).

(** What the outcomes of one batch add to the report. *)
Definition batch_successful (b : list Outcome * list Outcome) : list string :=
  map (fun o => address (wallet o)) (filter success (snd b)).

Definition batch_failed (b : list Outcome * list Outcome) : list FailedOp :=
  (map failed_funding (filter unsuccessful (fst b)) ++
   map failed_returning (filter unsuccessful (snd b)))%list.

(** A failed outcome stores a string in [error]. *)
Definition string_errors (os : list Outcome) : Prop :=
  Forall (fun o => success o = false -> exists msg, error o = JsString msg) os.

(** The return outcomes of a batch are, in order, those of its successfully
    funded wallets, and every failed outcome holds a message string. *)
Definition return_stage_of_funded (b : list Outcome * list Outcome) : Prop :=
  map wallet (snd b) = map wallet (filter success (fst b)) /\
  string_errors (fst b) /\ string_errors (snd b).

Definition preflight_event (ev : Event) : Prop :=
  match ev with EvGetGasPrice | EvGetBalance _ => True | _ => False end.

Definition task_of (gp fv : Z) (w : Wallet) (t : Interleaving.Task) : Prop :=
  match t with
  | Interleaving.Queued w' => w' = w
  | Interleaving.AwaitingCount w' _ => w' = w
  | Interleaving.Settled o => outcome_of w fund o
  end.

Definition not_a_funding_signature (ev : Event) : Prop :=
  match ev with EvSignMain _ => False | _ => True end.

(** The submissions the node attributes to the main wallet, [from_main]
    telling them by their raw transaction. *)
Definition sent_by_main (from_main : string -> bool) (ev : Event) : bool :=
  match ev with EvSend raw => from_main raw | _ => false end.

Definition address_of (o : Outcome) : string := address (wallet o).

Definition is_returning (f : FailedOp) : bool :=
  match fo_stage f with returning => true | funding => false end.

(** The outcomes of the return stage over a whole run, oldest first, from
    the record of what [processBatch] returned (most recent first). *)
Definition return_stage (log : list (list Outcome * list Outcome)) : list Outcome :=
  List.concat (map snd (rev log)).

(** The return signatures of a batch, among the events its return stage
    added, carry [rv - GAS_LIMIT * gp]: below [rv] when the gas price is
    positive, and non-negative exactly when [rv] covers the gas. *)
Definition return_values_net_of_gas (gp rv : Z) (returnEvents : list Event) : Prop :=
  forall tx key, In (EvSign tx key) returnEvents ->
    tx_value tx = rv - GAS_LIMIT * gp /\
    (0 < gp -> tx_value tx < rv) /\
    (0 <= tx_value tx <-> GAS_LIMIT * gp <= rv).

Definition partitions_return_stage (reached : list Outcome) (results : Results) : Prop :=
  successful results = map address_of (filter success reached) /\
  filter is_returning (failed results)
    = map failed_returning (filter unsuccessful reached) /\
  (forall o, In o reached ->
     if success o then In (address_of o) (successful results)
     else In (failed_returning o) (failed results)) /\
  (NoDup (map address_of reached) ->
   forall o, In o reached ->
     ~ (In (address_of o) (successful results) /\
        In (address_of o) (map fo_address (filter is_returning (failed results))))).

Definition failed_errors_undefined (s s' : State) (results : Results) : Prop :=
  Forall (fun f => fo_error f = JsUndefined) (failed results) /\
  exists log,
    returned s' = (log ++ returned s)%list /\
    Forall (fun b => string_errors (fst b) /\ string_errors (snd b)) log /\
    failed results = List.concat (map batch_failed (rev log)).

(** ** Polling *)

(** What one guarded poll makes of the node's answer: a receipt with
    [status = true] is returned; a receipt with [status = false], no
    receipt and a failed request all leave the loop going. *)
Definition poll_result (answer : Error + option Receipt) : option Receipt :=
  match answer with
  | inr (Some r) => if status r then Some r else None
  | _ => None
  end.

(** Does the node's answer confirm the transaction? *)
Definition confirms (answer : Error + option Receipt) : bool :=
  match answer with inr (Some r) => status r | _ => false end.

(** The state after a request for the receipt, and after a pause. *)
Definition polled (txHash : string) (s : State) : State :=
  mkState (this s) (EvGetReceipt txHash :: history s) (returned s).

Definition paused (ms : Z) (s : State) : State :=
  mkState (this s) (EvSleep ms :: history s) (returned s).

(** Events of a wait for [txHash]: requests for its receipt, and pauses. *)
Definition wait_event (txHash : string) (ev : Event) : Prop :=
  match ev with
  | EvGetReceipt h => h = txHash
  | EvSleep _ => True
  | _ => False
  end.

(** Total of the pauses in a history, in milliseconds. *)
Definition slept (h : list Event) : Z :=
  fold_right (fun ev total => match ev with EvSleep ms => ms + total | _ => total end) 0 h.

(** [waited txHash n s s']: from [s] to [s'] nothing changed but the
    history, which grew by events of a wait for [txHash], at most [n] of
    them requests. *)
Definition waited (txHash : string) (n : nat) (s s' : State) : Prop :=
  this s' = this s /\ returned s' = returned s /\
  exists added, history s' = (added ++ history s)%list /\
                Forall (wait_event txHash) added /\
                (occurrences is_poll added <= n)%nat.

(** ** The transfers of a batch *)

(** In the history [h'], the event [ev] was added when the history was
    [h]. *)
Definition happened (h' : list Event) (ev : Event) (h : list Event) : Prop :=
  exists later, h' = (later ++ ev :: h)%list.

(** In the history [h'], the transaction [tx] was signed with [key] on the
    request [request], the node took the signed transaction, and a request
    for the receipt of the hash it gave was answered with a receipt of
    [status = true]. *)
Definition confirmed_in (L : Ledger) (h' : list Event) (request : Event)
  (tx : Tx) (key : string) : Prop :=
  exists hs raw hd receipt hp r,
    happened h' request hs /\ signTransaction L hs tx key = inr raw /\
    happened h' (EvSend raw) hd /\ sendSignedTransaction L hd raw = inr receipt /\
    happened h' (EvGetReceipt (transactionHash receipt)) hp /\
    getTransactionReceipt L hp (transactionHash receipt) = inr (Some r) /\
    status r = true.

(** The funding transfer to [w], and the return transfer from [w], were
    confirmed in [h']. *)
Definition funding_confirmed (L : Ledger) (main : Wallet) (h' : list Event)
  (gp fv : Z) (w : Wallet) : Prop :=
  exists nonce,
    confirmed_in L h' (EvSignMain (fundTx main gp fv nonce w))
      (fundTx main gp fv nonce w) (privateKey main).

Definition return_confirmed (L : Ledger) (main : Wallet) (h' : list Event)
  (gp rv : Z) (w : Wallet) : Prop :=
  confirmed_in L h' (return_signature main gp rv w) (returnTx main gp rv w) (privateKey w).

(** ** The turns of the batch loop *)

(** One turn of the loop as it went: the wallets created, the state after
    [createWallets], the state after [processBatch], and what
    [processBatch] returned. *)
Record Turn : Type := mkTurn {
  turn_wallets : list Wallet;
  turn_created : State;
  turn_processed : State;
  turn_results : list Outcome * list Outcome
}.

(** What a turn adds to the report. *)
Definition add_turn (results : Results) (t : Turn) : Results :=
  mkResults (successful results ++ batch_successful (turn_results t))
            (failed results ++ batch_failed (turn_results t))
            (created results + Z.of_nat (List.length (turn_wallets t))).

(** [t] is the turn taken at index [i] from the state [s], and [s'] the
    state it ends in, after the pause when there is one. *)
Definition turn_at (L : Ledger) (cfg : Config) (arrival : list Event -> nat -> nat)
  (walletCount fundAmount i : number) (s : State) (t : Turn) (s' : State) : Prop :=
  createWallets L (iterations (Math_min (batchSize (this s)) (PrimFloat.sub walletCount i))) s
    = (inr (turn_wallets t), turn_created t) /\
  processBatch L cfg arrival (turn_wallets t) fundAmount (of_int 95) (turn_created t)
    = (inr (turn_results t), turn_processed t) /\
  s' = (if PrimFloat.ltb (PrimFloat.add i (batchSize (this s))) walletCount
        then paused 1000 (turn_processed t) else turn_processed t).

(** The turns of a loop that is entered at index [i] in the state [s] and
    left in the state [s'], oldest first. *)
Fixpoint turns_from (L : Ledger) (cfg : Config) (arrival : list Event -> nat -> nat)
  (walletCount fundAmount i : number) (s : State) (turns : list Turn) (s' : State) : Prop :=
  match turns with
  | [] => PrimFloat.ltb i walletCount = false /\ s' = s
  | t :: turns' =>
      PrimFloat.ltb i walletCount = true /\
      exists s1,
        turn_at L cfg arrival walletCount fundAmount i s t s1 /\
        turns_from L cfg arrival walletCount fundAmount
                   (PrimFloat.add i (batchSize (this s))) s1 turns' s'
  end.

(** ** The report of a run *)

(** The addresses a report names, successes first. *)
Definition reported (results : Results) : list string :=
  (successful results ++ map fo_address (failed results))%list.

(** The sizes of the batches that [walletCount] wallets are cut into. *)
Definition batch_sizes (walletCount batchSize : Z) : list Z :=
  (repeat batchSize (Z.to_nat (walletCount / batchSize))
   ++ (if walletCount mod batchSize =? 0 then [] else [walletCount mod batchSize]))%list.

(** The node creates an account whenever asked, and quotes a gas price
    whenever asked. *)
Definition creates_accounts (L : Ledger) : Prop :=
  forall h, exists w, create L h = inr w.

Definition quotes_gas_price (L : Ledger) : Prop :=
  forall h, exists gp, getGasPrice L h = inr gp.

(** [fundAmount] and the 95 percent of it to return both convert to
    wei. *)
Definition converts (fundAmount : number) : Prop :=
  (exists fv, toWei (toString fundAmount) = inr fv) /\
  (exists rv, returnValueOf fundAmount (of_int 95) = inr rv).

(** ** A limiter with one slot *)

(** A node that keeps count for [main]: the pending count it reports is
    [baseline] plus the submissions it attributes to [main] ([from_main]
    tells them by their raw transaction), what is signed for [main] is
    attributed to it, and every submission is taken. *)
Definition keeps_count (L : Ledger) (main : Wallet) (baseline : Z)
  (from_main : string -> bool) : Prop :=
  (forall h, getTransactionCount L h (address main) "pending"
             = inr (baseline + Z.of_nat (occurrences (sent_by_main from_main) h))) /\
  (forall h tx, tx_from tx = address main ->
     exists raw, signTransaction L h tx (privateKey main) = inr raw /\
                 from_main raw = true) /\
  (forall h raw, exists r, sendSignedTransaction L h raw = inr r).

(** [k] nonces in a row, the first being [first]. *)
Definition nonces_from (first : Z) (k : nat) : list Z :=
  map (fun j => first + Z.of_nat j) (seq 0 k).

(** The pool of a limiter with one slot: the settled tasks, then at most
    one task awaiting its count, then the queued ones. *)
Definition one_slot_pool (settled : list Outcome) (awaiting : option (Wallet * (Error + Z)))
  (queued : list Wallet) : list Interleaving.Task :=
  (map Interleaving.Settled settled
   ++ match awaiting with
      | Some (w, answer) => [Interleaving.AwaitingCount w answer]
      | None => []
      end
   ++ map Interleaving.Queued queued)%list.

(** After [k] funding tasks run from the state [s0]: the main wallet is
    the same, [k] more submissions are attributed to it, and the nonces
    issued since are the [k] that follow the count in [s0]. *)
Definition funded_in_turn (from_main : string -> bool) (baseline : Z) (s0 : State)
  (k : nat) (s : State) : Prop :=
  mainWallet (this s) = mainWallet (this s0) /\
  occurrences (sent_by_main from_main) (history s)
  = (occurrences (sent_by_main from_main) (history s0) + k)%nat /\
  Interleaving.issued_nonces (history s)
  = (Interleaving.issued_nonces (history s0)
     ++ nonces_from (baseline + Z.of_nat (occurrences (sent_by_main from_main) (history s0)))
                    k)%list.

(** What holds of a pool of [n] tasks under a limiter with one slot. *)
Definition one_slot_invariant (L : Ledger) (from_main : string -> bool) (baseline : Z)
  (s0 : State) (n : nat) (p : Interleaving.Pool) : Prop :=
  exists settled awaiting queued,
    Interleaving.tasks p = one_slot_pool settled awaiting queued /\
    match awaiting with
    | None =>
        (List.length settled + List.length queued = n)%nat /\
        funded_in_turn from_main baseline s0 (List.length settled) (Interleaving.state p)
    | Some (w, answer) =>
        (List.length settled + 1 + List.length queued = n)%nat /\
        exists s, funded_in_turn from_main baseline s0 (List.length settled) s /\
                  Interleaving.fundTask_request L s = (inr answer, Interleaving.state p)
    end.

(** ** Calls in a row *)

(** [n] calls of [c], each awaited before the next is made. *)
Fixpoint in_turn {A} (n : nat) (c : M A) : M (list A) :=
  match n with
  | O => ret []
  | S n' => x <- c ;; xs <- in_turn n' c ;; ret (x :: xs)
  end.

(** ** Amounts that are not finite *)

Definition not_finite (x : number) : Prop :=
  Prim2SF x = S754_nan \/ Prim2SF x = S754_infinity false.

(** What [toWei] throws at a string that is not a decimal number. *)
Definition not_a_number_error (etherInput : string) : Error :=
  mkError ("while converting number to string, invalid number value '"
           ++ etherInput ++ "', should be a number matching (^-?[0-9.]+).").

(** ** Decimal strings and what they stand for *)

Definition all_digits (s : string) : bool :=
  forallb is_digit (list_ascii_of_string s).

(** [s] is a string of decimal digits that reads as [n]: parsed after
    anything, with anything after it, it shifts what was read so far by its
    length and adds [n]. *)
Definition stands_for (s : string) (n : Z) : Prop :=
  all_digits s = true /\
  forall acc rest,
    parse_digits_acc (s ++ rest) acc
    = parse_digits_acc rest (acc * 10 ^ Z.of_nat (String.length s) + n).

(* ================================================================== *)
(** * More nodes to run against *)

Module Scenario.

(** [Demo.quiet] with other answers to the requests for a receipt. *)
Definition with_receipts (answer : list Event -> string -> Error + option Receipt)
  : Ledger :=
  {| getBalance := getBalance Demo.quiet;
     getGasPrice := getGasPrice Demo.quiet;
     getTransactionCount := getTransactionCount Demo.quiet;
     create := create Demo.quiet;
     signTransaction := signTransaction Demo.quiet;
     sendSignedTransaction := sendSignedTransaction Demo.quiet;
     getTransactionReceipt := answer |}.

(** A node that never has a receipt. *)
Definition unmined : Ledger := with_receipts (fun _ _ => inr None).

(** A node that has the receipt once it has been asked for one [k]
    times. *)
Definition mined_after (k : nat) : Ledger :=
  with_receipts (fun h txHash =>
                   if (occurrences is_poll h <? k)%nat then inr None
                   else inr (Some (mkReceipt true txHash))).

(** [Demo.quiet], except that it creates two accounts and no more. *)
Definition creates_two : Ledger :=
  {| getBalance := getBalance Demo.quiet;
     getGasPrice := getGasPrice Demo.quiet;
     getTransactionCount := getTransactionCount Demo.quiet;
     create := fun h =>
       if Demo.count_events Demo.is_create h <? 2 then create Demo.quiet h
       else inl (mkError "no more accounts");
     signTransaction := signTransaction Demo.quiet;
     sendSignedTransaction := sendSignedTransaction Demo.quiet;
     getTransactionReceipt := getTransactionReceipt Demo.quiet |}.

(** [CONCURRENT_TRANSACTIONS] of 1, and of 0. *)
Definition one_slot : Config := mkConfig 1000 3000 1.
Definition no_slot : Config := mkConfig 1000 3000 0.

(** The submissions that [Demo.quiet] attributes to the main wallet. *)
Definition from_main (raw : string) : bool :=
  String.prefix ("0xMAIN" ++ ">") raw && negb (Demo.nobody raw).

(** Two accounts asked of the quiet node. *)
Definition two_created : list Wallet * State :=
  Eval vm_compute in
    match createWallets Demo.quiet 2 (constructor Demo.main 50) with
    | (inr ws, s) => (ws, s)
    | (inl _, s) => ([], s)
    end.

(** Three accounts asked of the node that creates two. *)
Definition third_refused : Error * State :=
  Eval vm_compute in
    match createWallets creates_two 3 (constructor Demo.main 50) with
    | (inl e, s) => (e, s)
    | (inr _, s) => (mkError "", s)
    end.

(** A batch under a limiter with no slot. *)
Definition batch_without_slot : Error * State :=
  Eval vm_compute in
    match processBatch Demo.quiet no_slot Demo.taking_turns [Demo.w0; Demo.w1]
            (of_int 1) (of_int 95) (constructor Demo.main 50) with
    | (inl e, s) => (e, s)
    | (inr _, s) => (mkError "", s)
    end.

(** Two funding tasks on the quiet node, each resumed before the next is
    started, under a limiter with one slot; and both started before either
    is resumed, under the limiter of [Demo.config]. *)
Definition in_turn_schedule : list Interleaving.Action :=
  [Interleaving.Start; Interleaving.Resume 0; Interleaving.Start; Interleaving.Resume 1].

Definition eager_schedule : list Interleaving.Action :=
  [Interleaving.Start; Interleaving.Start; Interleaving.Resume 0; Interleaving.Resume 1].

Definition pool_after (cfg : Config) (schedule : list Interleaving.Action)
  : Interleaving.Pool :=
  match Interleaving.run Demo.quiet cfg Demo.gwei Demo.ether schedule
          (Interleaving.queue [Demo.w0; Demo.w1] (constructor Demo.main 50)) with
  | Some p => p
  | None => Interleaving.queue [] (constructor Demo.main 50)
  end.

Definition in_turn_pool : Interleaving.Pool :=
  Eval vm_compute in pool_after one_slot in_turn_schedule.

Definition eager_pool : Interleaving.Pool :=
  Eval vm_compute in pool_after Demo.config eager_schedule.

Definition eager_outcomes : list Outcome :=
  Eval vm_compute in
    match Interleaving.outcomes (Interleaving.tasks eager_pool) with
    | Some os => os
    | None => []
    end.

End Scenario.

(* ================================================================== *)
(** * Numbers that hold integers *)

(** ** Numbers, bit by bit *)

Definition canon (z : positive) : spec_float :=
  let d := Zpos (Pos.size z) in
  S754_finite false (Z.to_pos (Zpos z * 2 ^ (53 - d))) (d - 53).

(** The double that holds the integer [z], for [0 <= z < 2^53]. *)
Definition holds (z : Z) : spec_float := binary_normalize prec emax z 0 false.

(** Rounding keeps the sign, and gives a Number. *)
Definition signed (sx : bool) (x : spec_float) : Prop :=
  match x with
  | S754_nan => False
  | S754_zero s | S754_infinity s | S754_finite s _ _ => s = sx
  end.

(** A Number that is zero (of either sign) or below. *)
Definition nonpositive (x : spec_float) : Prop :=
  match x with
  | S754_zero _ | S754_infinity true | S754_finite true _ _ => True
  | _ => False
  end.

(** A positive Number, finite or not. *)
Definition positive_number (x : spec_float) : Prop :=
  match x with
  | S754_infinity false | S754_finite false _ _ => True
  | _ => False
  end.

(* ================================================================== *)
(** * What the tasks of a pool do *)

(** ** What a task does, whatever runs in between *)

(** [h'] is [h] with more events on top. *)
Definition extends (h' h : list Event) : Prop := exists later, h' = (later ++ h)%list.

(** A property of histories and values that more events cannot undo. *)
Definition stable {A} (Q : list Event -> A -> Prop) : Prop :=
  forall h h' a, extends h' h -> Q h a -> Q h' a.

(** The history [h] grown event by event, each one allowed by [allowed]
    after the history it joins. *)
Inductive grown (allowed : list Event -> Event -> Prop) (h : list Event)
  : list Event -> Prop :=
| grown_none : grown allowed h h
| grown_more h' ev : grown allowed h h' -> allowed h' ev -> grown allowed h (ev :: h').

Section Meets.

(** [kept me]: what the tasks rely on and keep of [this]; [allowed h ev]:
    the event a task may add to the history [h]. *)
Variable kept : Manager -> Prop.
Variable allowed : list Event -> Event -> Prop.

(** [running Q E c h me]: the task [c], running when the history is [h]
    and [this] is [me], keeps [kept], adds allowed events only, and ends
    resolved with a value that [Q] holds of or rejected with an error that
    [E] holds of, whatever the other tasks add to the history and do to
    [this], within [kept], while it awaits. *)
Fixpoint running {A} (Q : list Event -> A -> Prop) (E : list Event -> Error -> Prop)
  (c : Async.Task A) (h : list Event) (me : Manager) : Prop :=
  match c with
  | Async.Resolve a => Q h a
  | Async.Reject e => E h e
  | Async.Read k => running Q E (k me) h me
  | Async.Update f c' => kept (f me) /\ running Q E c' h (f me)
  | Async.Await ev answer k =>
      allowed h ev /\
      forall h' me', extends h' (ev :: h) -> kept me' ->
        running Q E (k (answer h)) h' me'
  end.

(** [meets Q E c h]: the same of a task that is started or resumed at
    some time after [h]. *)
Definition meets {A} (Q : list Event -> A -> Prop) (E : list Event -> Error -> Prop)
  (c : Async.Task A) (h : list Event) : Prop :=
  forall h' me, extends h' h -> kept me -> running Q E c h' me.

End Meets.

(** ** The tasks of a pool *)

Section Pool.

Variable kept : Manager -> Prop.
Variable allowed : list Event -> Event -> Prop.

(** From [s] to [s'] the tasks have run: [this] is kept, no batch was put
    on record, and the history has grown by allowed events. *)
Definition ran (s s' : State) : Prop :=
  kept (this s') /\ returned s' = returned s /\
  grown allowed (history s) (history s').

Context {A : Type}.
Variable E : list Event -> Error -> Prop.

(** What holds of a slot while the task in it meets [Q]. *)
Definition slot_meets (h : list Event) (Q : list Event -> A -> Prop)
  (slot : Async.Slot A) : Prop :=
  match slot with
  | Async.Queued c | Async.Pending c => meets kept allowed Q E c h
  | Async.Settled a => Q h a
  end.

(** The outcome of a step on the slots: the slots still meet the [Qs], or
    a task has rejected with an error that [E] holds of. *)
Definition slots_meet (Qs : list (list Event -> A -> Prop))
  (out : (Error + list (Async.Slot A)) * State) : Prop :=
  match fst out with
  | inr slots => Forall2 (slot_meets (history (snd out))) Qs slots
  | inl e => E (history (snd out)) e
  end.

End Pool.

(** In the history [h], a request for the receipt of [txHash] was answered
    with the receipt [r], of [status = true]. *)
Definition receipt_seen (L : Ledger) (txHash : string) (h : list Event) (r : Receipt)
  : Prop :=
  exists hp, happened h (EvGetReceipt txHash) hp /\
             getTransactionReceipt L hp txHash = inr (Some r) /\ status r = true.

(** What [waitForConfirmation] resolves with: a receipt the node gave. *)
Definition wait_result (L : Ledger) (txHash : string) (h : list Event)
  (r : option Receipt) : Prop :=
  match r with
  | Some receipt => receipt_seen L txHash h receipt
  | None => True
  end.

Definition any_error (h : list Event) (e : Error) : Prop := True.
Definition no_error (h : list Event) (e : Error) : Prop := False.

(** What the tasks of a batch keep of [this]: all but [currentNonce]. *)
Definition keeps_but_nonce (main : Wallet) (size : number) (ws : list Wallet)
  (me : Manager) : Prop :=
  mainWallet me = main /\ batchSize me = size /\ wallets me = ws.

(** The request [getNextNonce] sends for [main]. *)
Definition count_request (main : Wallet) : Event :=
  EvGetTransactionCount (address main) "pending".

(** In the history [h], the node answered a request for the pending count
    of [main] with [n]. *)
Definition count_answer (L : Ledger) (main : Wallet) (h : list Event) (n : Z) : Prop :=
  exists hc, happened h (count_request main) hc /\
             getTransactionCount L hc (address main) "pending" = inr n.

(** The events of the funding stage of a batch over [ws], gas price [gp]
    and fund value [fv], each with the history [h] it joins: requests for
    the pending count of the main wallet; signatures of the main wallet
    over [fundTx] to a wallet of the batch, with a nonce the node gave in
    answer to such a request; submissions of what the node signed so; and
    waits. *)
Definition funding_step (L : Ledger) (main : Wallet) (gp fv : Z) (ws : list Wallet)
  (h : list Event) (ev : Event) : Prop :=
  match ev with
  | EvGetTransactionCount addr block => addr = address main /\ block = "pending"
  | EvSignMain tx =>
      exists w nonce, In w ws /\ tx = fundTx main gp fv nonce w /\
                      count_answer L main h nonce
  | EvSend raw =>
      exists w nonce hs, In w ws /\
        happened h (EvSignMain (fundTx main gp fv nonce w)) hs /\
        signTransaction L hs (fundTx main gp fv nonce w) (privateKey main) = inr raw
  | EvGetReceipt _ | EvSleep _ => True
  | _ => False
  end.

(** The events of the return stage over the wallets [funded]: signatures
    over [returnTx] of one of them, with its own key; submissions of what
    the node signed so; and waits. *)
Definition return_step (L : Ledger) (main : Wallet) (gp rv : Z) (funded : list Wallet)
  (h : list Event) (ev : Event) : Prop :=
  match ev with
  | EvSign tx key =>
      exists w, In w funded /\ tx = returnTx main gp rv w /\ key = privateKey w
  | EvSend raw =>
      exists w hs, In w funded /\
        happened h (return_signature main gp rv w) hs /\
        signTransaction L hs (returnTx main gp rv w) (privateKey w) = inr raw
  | EvGetReceipt _ | EvSleep _ => True
  | _ => False
  end.

(** What the funding task of [w] resolves with, in the history [h]. *)
Definition funding_result (L : Ledger) (main : Wallet) (gp fv : Z) (w : Wallet)
  (h : list Event) (o : Outcome) : Prop :=
  outcome_of w fund o /\
  (success o = true -> funding_confirmed L main h gp fv w).

(** What the return task of [w] resolves with, in the history [h], the
    return stage having started at [h0]: its signature request was made in
    that stage. *)
Definition return_result (L : Ledger) (main : Wallet) (gp rv : Z) (h0 : list Event)
  (w : Wallet) (h : list Event) (o : Outcome) : Prop :=
  outcome_of w return_ o /\
  (exists hs, happened h (return_signature main gp rv w) hs /\ extends hs h0) /\
  (success o = true -> return_confirmed L main h gp rv w).

(** What a call of [processBatch] that returns has done, whatever the
    order of arrival: [gp] is the gas price it was quoted, [fv] and [rv]
    the fund value and the nominal return value in wei, and [h1] the
    history when the funding stage was over and the return stage began.
    The funding tasks, one per wallet, added the events of the funding
    stage; then the return tasks, one per wallet whose funding outcome has
    [success = true], added those of the return stage. *)
Record batch_trace (L : Ledger) (ws : list Wallet) (fundAmount returnPercentage : number)
  (s s' : State) (fundResults returnResults : list Outcome)
  (gp fv rv : Z) (h1 : list Event) : Prop := {
  trace_gasPrice : getGasPrice L (history s) = inr gp;
  trace_fundValue : toWei (toString fundAmount) = inr fv;
  trace_returnValue : returnValueOf fundAmount returnPercentage = inr rv;
  trace_this :
    keeps_but_nonce (mainWallet (this s)) (batchSize (this s)) (wallets (this s)) (this s');
  trace_log : returned s' = (fundResults, returnResults) :: returned s;
  trace_funding :
    grown (funding_step L (mainWallet (this s)) gp fv ws) (EvGetGasPrice :: history s) h1;
  trace_returning :
    grown (return_step L (mainWallet (this s)) gp rv
                       (map wallet (filter success fundResults)))
          h1 (history s');
  trace_funded :
    Forall2 (fun w o => funding_result L (mainWallet (this s)) gp fv w (history s') o)
            ws fundResults;
  trace_returned :
    Forall2 (fun w o => return_result L (mainWallet (this s)) gp rv h1 w (history s') o)
            (map wallet (filter success fundResults)) returnResults
}.

(** [within n c]: the task [c] awaits at most [n] times before it settles,
    whatever it is answered. *)
Fixpoint within {A} (n : nat) (c : Async.Task A) : Prop :=
  match c with
  | Async.Resolve _ => True
  | Async.Reject _ => True
  | Async.Read k => forall me, within n (k me)
  | Async.Update _ c' => within n c'
  | Async.Await _ _ k =>
      match n with
      | O => False
      | S n' => forall r, within n' (k r)
      end
  end.

(** The turns a slot still takes, at most: a started task takes one more
    to take up its answer. *)
Definition slot_within {A} (n : nat) (slot : Async.Slot A) : Prop :=
  match slot with
  | Async.Queued c => within n c
  | Async.Pending c => exists n', n = S n' /\ within n' c
  | Async.Settled _ => True
  end.

(** A slot whose task has settled. *)
Definition settled {A} (slot : Async.Slot A) : Prop := Async.is_settled slot = true.

(* ================================================================== *)
(** * The batch in terms of its events *)

(** ** The two stages of a batch *)

(** The events a call of [processBatch] that returned has added, stage by
    stage, each with a history [h0] of the batch that it joined: [gp] is
    the gas price quoted, [fv] the fund value and [rv] the nominal return
    value in wei. *)
Record batch_events (L : Ledger) (ws : list Wallet) (fundAmount returnPercentage : number)
  (s s' : State) (fundResults returnResults : list Outcome)
  (gp fv rv : Z) (fundEvents returnEvents : list Event) : Prop := {
  stage_gasPrice : getGasPrice L (history s) = inr gp;
  stage_fundValue : toWei (toString fundAmount) = inr fv;
  stage_returnValue : returnValueOf fundAmount returnPercentage = inr rv;
  stage_history :
    history s' = (returnEvents ++ fundEvents ++ EvGetGasPrice :: history s)%list;
  stage_funding :
    Forall (fun ev => exists h0, happened (history s') ev h0 /\
                                 funding_step L (mainWallet (this s)) gp fv ws h0 ev)
           fundEvents;
  stage_returning :
    Forall (fun ev => exists h0, happened (history s') ev h0 /\
                                 return_step L (mainWallet (this s)) gp rv
                                   (map wallet (filter success fundResults)) h0 ev)
           returnEvents;
  stage_funded :
    Forall2 (fun w o => funding_result L (mainWallet (this s)) gp fv w (history s') o)
            ws fundResults;
  stage_returned :
    Forall2 (fun w o => outcome_of w return_ o /\
                        In (return_signature (mainWallet (this s)) gp rv w) returnEvents /\
                        (success o = true ->
                         return_confirmed L (mainWallet (this s)) (history s') gp rv w))
            (map wallet (filter success fundResults)) returnResults
}.

(** ** The claims in terms of the events *)

(** Every account with a funding outcome of [success = true] has its
    return transaction put up for signature, with its own key, among the
    events of the return stage; the transaction goes from the account to
    the main wallet and carries [rv - GAS_LIMIT * gp]. *)
Definition every_funded_signs (main : Wallet) (gp rv : Z) (fundResults : list Outcome)
  (returnEvents : list Event) : Prop :=
  forall o, In o fundResults -> success o = true ->
    exists tx,
      In (EvSign tx (privateKey (wallet o))) returnEvents /\
      tx = returnTx main gp rv (wallet o) /\
      tx_from tx = address (wallet o) /\ tx_to tx = address main /\
      tx_value tx = rv - GAS_LIMIT * gp.

(** Every transaction put up for signature with an account key, among the
    events of the return stage, is the return transaction of an account
    with a funding outcome of [success = true]. *)
Definition only_funded_sign (main : Wallet) (gp rv : Z) (fundResults : list Outcome)
  (returnEvents : list Event) : Prop :=
  forall tx key, In (EvSign tx key) returnEvents ->
    exists o, In o fundResults /\ success o = true /\
              tx = returnTx main gp rv (wallet o) /\ key = privateKey (wallet o).

(** Every submission of the return stage is of what the node signed, in
    answer to a signature request of the return stage, over the return
    transaction of an account with a funding outcome of [success = true]. *)
Definition only_funded_submit (L : Ledger) (main : Wallet) (gp rv : Z)
  (h' : list Event) (fundResults : list Outcome) (returnEvents : list Event) : Prop :=
  forall raw, In (EvSend raw) returnEvents ->
    exists o hs, In o fundResults /\ success o = true /\
      happened h' (return_signature main gp rv (wallet o)) hs /\
      signTransaction L hs (returnTx main gp rv (wallet o)) (privateKey (wallet o))
        = inr raw.

(** Every submission of the funding stage is of what the node signed for
    the main wallet over a funding transaction to a wallet of the batch. *)
Definition only_main_submits (L : Ledger) (main : Wallet) (gp fv : Z) (ws : list Wallet)
  (h' : list Event) (fundEvents : list Event) : Prop :=
  forall raw, In (EvSend raw) fundEvents ->
    exists w nonce hs, In w ws /\
      happened h' (EvSignMain (fundTx main gp fv nonce w)) hs /\
      signTransaction L hs (fundTx main gp fv nonce w) (privateKey main) = inr raw.

Definition batch_return_values (L : Ledger) (ws : list Wallet)
  (fundAmount returnPercentage : number) (s s' : State) (fundResults : list Outcome)
  : Prop :=
  exists gp rv fundEvents returnEvents,
    getGasPrice L (history s) = inr gp /\
    returnValueOf fundAmount returnPercentage = inr rv /\
    map wallet fundResults = ws /\
    history s' = (returnEvents ++ fundEvents ++ EvGetGasPrice :: history s)%list /\
    (forall tx key, ~ In (EvSign tx key) fundEvents) /\
    every_funded_signs (mainWallet (this s)) gp rv fundResults returnEvents /\
    only_funded_sign (mainWallet (this s)) gp rv fundResults returnEvents /\
    return_values_net_of_gas gp rv returnEvents.

Definition returns_only_funded (L : Ledger) (ws : list Wallet) (s s' : State)
  (fundResults returnResults : list Outcome) : Prop :=
  map wallet fundResults = ws /\
  map wallet returnResults = map wallet (filter success fundResults) /\
  Forall (fun o => type o = return_) returnResults /\
  (forall r, In r returnResults ->
     exists f, In f fundResults /\ wallet f = wallet r /\ success f = true) /\
  (NoDup ws ->
   forall f, In f fundResults -> success f = false ->
     ~ In (wallet f) (map wallet returnResults)) /\
  exists gp fv rv fundEvents returnEvents,
    history s' = (returnEvents ++ fundEvents ++ EvGetGasPrice :: history s)%list /\
    (forall tx key, ~ In (EvSign tx key) fundEvents) /\
    only_main_submits L (mainWallet (this s)) gp fv ws (history s') fundEvents /\
    every_funded_signs (mainWallet (this s)) gp rv fundResults returnEvents /\
    only_funded_sign (mainWallet (this s)) gp rv fundResults returnEvents /\
    only_funded_submit L (mainWallet (this s)) gp rv (history s') fundResults
                       returnEvents /\
    (NoDup ws ->
     forall f, In f fundResults -> success f = false ->
       forall tx, tx_from tx = address (wallet f) ->
         ~ In (EvSign tx (privateKey (wallet f))) returnEvents).

Definition batch_return_nonces (L : Ledger) (ws : list Wallet)
  (fundAmount returnPercentage : number) (s s' : State) (fundResults : list Outcome)
  : Prop :=
  exists gp rv fundEvents returnEvents,
    getGasPrice L (history s) = inr gp /\
    returnValueOf fundAmount returnPercentage = inr rv /\
    map wallet fundResults = ws /\
    history s' = (returnEvents ++ fundEvents ++ EvGetGasPrice :: history s)%list /\
    (forall tx key, ~ In (EvSign tx key) fundEvents) /\
    every_funded_signs (mainWallet (this s)) gp rv fundResults returnEvents /\
    (forall tx key, In (EvSign tx key) returnEvents -> tx_nonce tx = 0) /\
    occurrences is_fetch returnEvents = 0%nat.

(* ================================================================== *)
(** * Integers as Numbers *)

Lemma digits2_size p : digits2_pos p = Pos.size p.
Proof. induction p; simpl; congruence. Qed.

Lemma iter_pos_nat {A} (f : A -> A) n : forall x,
  iter_pos f n x = Nat.iter (Pos.to_nat n) f x.
Proof.
  induction n as [n IH | n IH |]; intros x; cbn [iter_pos].
  - rewrite !IH, <- Nat.iter_add, <- Nat.iter_succ_r. f_equal. lia.
  - rewrite !IH, <- Nat.iter_add. f_equal. lia.
  - reflexivity.
Qed.

Lemma shr_exact n : forall z, 0 < z ->
  Nat.iter n shr_1 (Build_shr_record (z * 2 ^ Z.of_nat n) false false)
  = Build_shr_record z false false.
Proof.
  induction n as [| n IH]; intros z Hz.
  - simpl. now rewrite Z.mul_1_r.
  - rewrite Nat.iter_succ_r.
    assert (H : z * 2 ^ Z.of_nat (S n) = Zpos (xO (Z.to_pos (z * 2 ^ Z.of_nat n)))).
    { assert (0 < 2 ^ Z.of_nat n) by (apply Z.pow_pos_nonneg; lia).
      rewrite (Pos2Z.inj_xO (Z.to_pos _)), Z2Pos.id by nia.
      rewrite Nat2Z.inj_succ, Z.pow_succ_r by lia. ring. }
    rewrite H. cbn [shr_1 orb].
    assert (0 < 2 ^ Z.of_nat n) by (apply Z.pow_pos_nonneg; lia).
    rewrite Z2Pos.id by nia. now apply IH.
Qed.

(** Size of a positive: 2^(size - 1) <= p < 2^size. *)
Lemma size_bounds p : 2 ^ (Zpos (Pos.size p) - 1) <= Zpos p < 2 ^ Zpos (Pos.size p).
Proof.
  split.
  - pose proof (Pos.size_le p) as H. 
    assert (H' : 2 ^ Zpos (Pos.size p) <= 2 * Zpos p).
    { change (2 * Zpos p) with (Zpos p~0). rewrite <- Pos2Z.inj_pow. now apply Pos2Z.pos_le_pos. }
    replace (Zpos (Pos.size p)) with (Z.succ (Zpos (Pos.size p) - 1)) in H' by lia.
    rewrite Z.pow_succ_r in H' by lia. lia.
  - pose proof (Pos.size_gt p) as H. rewrite <- Pos2Z.inj_pow. now apply Pos2Z.pos_lt_pos.
Qed.

Lemma size_unique p d : 0 < d -> 2 ^ (d - 1) <= Zpos p < 2 ^ d -> Zpos (Pos.size p) = d.
Proof.
  intros Hd [Hlo Hhi]. destruct (size_bounds p) as [Hlo' Hhi'].
  destruct (Z.lt_trichotomy (Zpos (Pos.size p)) d) as [H | [H | H]]; trivial; exfalso.
  - assert (2 ^ Zpos (Pos.size p) <= 2 ^ (d - 1)) by (apply Z.pow_le_mono_r; lia). lia.
  - assert (2 ^ d <= 2 ^ (Zpos (Pos.size p) - 1)) by (apply Z.pow_le_mono_r; lia). lia.
Qed.

Lemma size_shift p k : 0 <= k ->
  Zpos (Pos.size (Z.to_pos (Zpos p * 2 ^ k))) = Zpos (Pos.size p) + k.
Proof.
  intros Hk. apply size_unique; [lia |].
  destruct (size_bounds p) as [Hlo Hhi].
  rewrite Z2Pos.id by (assert (0 < 2 ^ k) by (apply Z.pow_pos_nonneg; lia); nia).
  replace (Zpos (Pos.size p) + k - 1) with ((Zpos (Pos.size p) - 1) + k) by lia.
  rewrite !Z.pow_add_r by lia.
  assert (0 < 2 ^ k) by (apply Z.pow_pos_nonneg; lia). split; nia.
Qed.

Lemma iter_xO p d : Zpos (Pos.iter xO p d) = Zpos p * 2 ^ Zpos d.
Proof.
  change (Pos.iter xO p d) with (shift_pos d p).
  rewrite shift_pos_correct, Zpower_pos_nat, Zpower_nat_Z, positive_nat_Z. ring.
Qed.

(** The double that holds a positive integer below 2^53, after a shift. *)
Lemma shr_fexp_canonical (m : positive) e :
  Zpos (Pos.size m) = 53 -> -1074 <= e ->
  shr_fexp prec emax (Zpos m) e loc_Exact = (Build_shr_record (Zpos m) false false, e).
Proof.
  intros Hm He. unfold shr_fexp, Zdigits2. rewrite digits2_size, Hm.
  unfold fexp, emin, prec, emax.
  replace (Z.max (53 + e - 53) (3 - 1024 - 53) - e) with 0 by lia. reflexivity.
Qed.

(** A significand that is [p] bits too long, all of them zero, is cut to
    its 53 bits without loss. *)
Lemma shr_fexp_exact (m : positive) (p : positive) e :
  Zpos (Pos.size m) = 53 -> -1074 <= e + Zpos p ->
  shr_fexp prec emax (Zpos m * 2 ^ Zpos p) e loc_Exact
  = (Build_shr_record (Zpos m) false false, e + Zpos p).
Proof.
  intros Hm He.
  assert (Hpp : 0 < 2 ^ Zpos p) by (apply Z.pow_pos_nonneg; lia).
  unfold shr_fexp.
  replace (Zdigits2 (Zpos m * 2 ^ Zpos p)) with (53 + Zpos p).
  2:{ rewrite <- (Z2Pos.id (Zpos m * 2 ^ Zpos p)) by nia. unfold Zdigits2.
      rewrite digits2_size, size_shift by lia. lia. }
  unfold fexp, emin, prec, emax.
  replace (Z.max (53 + Zpos p + e - 53) (3 - 1024 - 53) - e) with (Zpos p) by lia.
  cbn [shr shr_record_of_loc]. rewrite iter_pos_nat.
  rewrite <- (positive_nat_Z p) at 1. now rewrite shr_exact.
Qed.

Lemma round_aux_canonical s (m : positive) e :
  Zpos (Pos.size m) = 53 -> -1074 <= e <= 971 ->
  binary_round_aux prec emax s (Zpos m) e loc_Exact = S754_finite s m e.
Proof.
  intros Hm He. unfold binary_round_aux. rewrite shr_fexp_canonical by (trivial; lia).
  cbn [shr_m loc_of_shr_record round_nearest_even].
  rewrite shr_fexp_canonical by (trivial; lia). cbn [shr_m].
  unfold emax, prec. now replace (e <=? 1024 - 53) with true by (symmetry; apply Z.leb_le; lia).
Qed.

Lemma round_shifted s (z : positive) (k : Z) :
  Zpos z < 2 ^ 53 -> 0 <= k ->
  binary_round prec emax s (Z.to_pos (Zpos z * 2 ^ k)) (- k)
  = S754_finite s (Z.to_pos (Zpos z * 2 ^ (53 - Zpos (Pos.size z)))) (Zpos (Pos.size z) - 53).
Proof.
  intros Hz Hk.
  assert (Hd : 1 <= Zpos (Pos.size z) <= 53).
  { split; [lia |]. destruct (size_bounds z) as [Hlo _].
    destruct (Z.le_gt_cases (Zpos (Pos.size z)) 53) as [H | H]; trivial.
    assert (2 ^ 53 <= 2 ^ (Zpos (Pos.size z) - 1)) by (apply Z.pow_le_mono_r; lia). lia. }
  set (d := Zpos (Pos.size z)) in *.
  assert (Hpk : 0 < 2 ^ k) by (apply Z.pow_pos_nonneg; lia).
  assert (Hpd : 0 < 2 ^ (53 - d)) by (apply Z.pow_pos_nonneg; lia).
  assert (Hsize : Zpos (Pos.size (Z.to_pos (Zpos z * 2 ^ (53 - d)))) = 53).
  { rewrite size_shift by lia. fold d. lia. }
  unfold binary_round. rewrite digits2_size, size_shift by trivial. fold d.
  unfold fexp, emin, prec, emax.
  replace (Z.max (d + k + - k - 53) (3 - 1024 - 53)) with (d - 53) by lia.
  unfold shl_align.
  destruct (d - 53 - - k) as [| p | p] eqn:Hp.
  - replace k with (53 - d) by lia. replace (- (53 - d)) with (d - 53) by lia.
    apply round_aux_canonical; [exact Hsize | lia].
  - (* the sum is too long by [p] bits, all of them zero *)
    unfold binary_round_aux. rewrite Z2Pos.id by nia.
    replace (Zpos z * 2 ^ k) with (Zpos (Z.to_pos (Zpos z * 2 ^ (53 - d))) * 2 ^ Zpos p).
    2:{ rewrite Z2Pos.id by nia. rewrite <- Z.mul_assoc, <- Z.pow_add_r by lia.
        f_equal. f_equal. lia. }
    fold prec emax. rewrite shr_fexp_exact by (trivial; lia).
    cbn [shr_m loc_of_shr_record round_nearest_even].
    rewrite shr_fexp_canonical by (trivial; lia). cbn [shr_m].
    unfold emax, prec.
    replace (- k + Zpos p <=? 1024 - 53) with true by (symmetry; apply Z.leb_le; lia).
    f_equal. lia.
  - replace (Pos.iter xO (Z.to_pos (Zpos z * 2 ^ k)) p)
      with (Z.to_pos (Zpos z * 2 ^ (53 - d))).
    2:{ apply Pos2Z.inj. rewrite iter_xO, !Z2Pos.id by nia.
        rewrite <- Z.mul_assoc, <- Z.pow_add_r by lia. f_equal. f_equal. lia. }
    apply round_aux_canonical; [exact Hsize | lia].
Qed.

Lemma shl_align_value m e e' :
  e' <= e -> Zpos (fst (shl_align m e e')) = Zpos m * 2 ^ (e - e').
Proof.
  intros H. unfold shl_align. destruct (e' - e) as [| p | p] eqn:Hp; try lia.
  - cbn [fst]. replace (e - e') with 0 by lia. lia.
  - cbn [fst]. rewrite iter_xO. f_equal. f_equal. lia.
Qed.

Lemma holds_pos (z : positive) :
  Zpos z < 2 ^ 53 ->
  holds (Zpos z)
  = S754_finite false (Z.to_pos (Zpos z * 2 ^ (53 - Zpos (Pos.size z)))) (Zpos (Pos.size z) - 53).
Proof.
  intros Hz. unfold holds, binary_normalize.
  rewrite <- (round_shifted false z 0) by (trivial; lia).
  f_equal. apply Pos2Z.inj. rewrite Z2Pos.id; lia.
Qed.

Lemma size_le_53 (z : positive) : Zpos z < 2 ^ 53 -> 1 <= Zpos (Pos.size z) <= 53.
Proof.
  intros Hz. split; [lia |]. destruct (size_bounds z) as [Hlo _].
  destruct (Z.le_gt_cases (Zpos (Pos.size z)) 53) as [H | H]; trivial.
  assert (2 ^ 53 <= 2 ^ (Zpos (Pos.size z) - 1)) by (apply Z.pow_le_mono_r; lia). lia.
Qed.

Lemma holds_add a b :
  0 <= a -> 0 <= b -> a + b < 2 ^ 53 ->
  SFadd prec emax (holds a) (holds b) = holds (a + b).
Proof.
  intros Ha Hb Hab.
  destruct a as [| a | a]; [| | lia].
  { destruct b as [| b | b]; [reflexivity | | lia].
    change (0 + Zpos b) with (Zpos b). rewrite holds_pos by lia. reflexivity. }
  destruct b as [| b | b]; [| | lia].
  { rewrite Z.add_0_r, holds_pos by lia. reflexivity. }
  rewrite (holds_pos a), (holds_pos b) by lia.
  pose proof (size_le_53 a ltac:(lia)) as Hda. pose proof (size_le_53 b ltac:(lia)) as Hdb.
  set (da := Zpos (Pos.size a)) in *. set (db := Zpos (Pos.size b)) in *.
  assert (Hpa : 0 < 2 ^ (53 - da)) by (apply Z.pow_pos_nonneg; lia).
  assert (Hpb : 0 < 2 ^ (53 - db)) by (apply Z.pow_pos_nonneg; lia).
  cbn [SFadd cond_Zopp]. rewrite !shl_align_value by lia.
  rewrite !Z2Pos.id by nia.
  set (k := - Z.min (da - 53) (db - 53)).
  assert (Hk : 0 <= k) by lia.
  assert (Hpk : 0 < 2 ^ k) by (apply Z.pow_pos_nonneg; lia).
  replace (Zpos a * 2 ^ (53 - da) * 2 ^ (da - 53 - Z.min (da - 53) (db - 53))
           + Zpos b * 2 ^ (53 - db) * 2 ^ (db - 53 - Z.min (da - 53) (db - 53)))
    with (Zpos (a + b) * 2 ^ k).
  2:{ rewrite <- !Z.mul_assoc, <- !Z.pow_add_r by lia.
      replace (53 - da + (da - 53 - Z.min (da - 53) (db - 53))) with k by lia.
      replace (53 - db + (db - 53 - Z.min (da - 53) (db - 53))) with k by lia.
      rewrite Pos2Z.inj_add. ring. }
  replace (Z.min (da - 53) (db - 53)) with (- k) by lia.
  change (Zpos a + Zpos b) with (Zpos (a + b)).
  rewrite holds_pos by lia.
  rewrite <- (round_shifted false (a + b) k) by (trivial; lia).
  unfold binary_normalize.
  destruct (Zpos (a + b) * 2 ^ k) as [| q | q] eqn:Hq; try nia.
  reflexivity.
Qed.

Lemma holds_sub a b :
  0 <= b -> b <= a -> a < 2 ^ 53 ->
  SFsub prec emax (holds a) (holds b) = holds (a - b).
Proof.
  intros Hb Hba Ha.
  destruct b as [| b | b]; [| | lia].
  { rewrite Z.sub_0_r. destruct a as [| a | a]; [reflexivity | | lia].
    rewrite holds_pos by lia. reflexivity. }
  destruct a as [| a | a]; [lia | | lia].
  rewrite (holds_pos a), (holds_pos b) by lia.
  pose proof (size_le_53 a ltac:(lia)) as Hda. pose proof (size_le_53 b ltac:(lia)) as Hdb.
  set (da := Zpos (Pos.size a)) in *. set (db := Zpos (Pos.size b)) in *.
  assert (Hpa : 0 < 2 ^ (53 - da)) by (apply Z.pow_pos_nonneg; lia).
  assert (Hpb : 0 < 2 ^ (53 - db)) by (apply Z.pow_pos_nonneg; lia).
  cbn [SFsub cond_Zopp]. rewrite !shl_align_value by lia.
  rewrite !Z2Pos.id by nia.
  set (k := - Z.min (da - 53) (db - 53)).
  assert (Hk : 0 <= k) by lia.
  assert (Hpk : 0 < 2 ^ k) by (apply Z.pow_pos_nonneg; lia).
  replace (Zpos a * 2 ^ (53 - da) * 2 ^ (da - 53 - Z.min (da - 53) (db - 53))
           - Zpos b * 2 ^ (53 - db) * 2 ^ (db - 53 - Z.min (da - 53) (db - 53)))
    with ((Zpos a - Zpos b) * 2 ^ k).
  2:{ rewrite <- !Z.mul_assoc, <- !Z.pow_add_r by lia.
      replace (53 - da + (da - 53 - Z.min (da - 53) (db - 53))) with k by lia.
      replace (53 - db + (db - 53 - Z.min (da - 53) (db - 53))) with k by lia.
      ring. }
  replace (Z.min (da - 53) (db - 53)) with (- k) by lia.
  destruct (Zpos a - Zpos b) as [| c | c] eqn:Hc; [reflexivity | | lia].
  rewrite holds_pos by lia.
  rewrite <- (round_shifted false c k) by (trivial; lia).
  unfold binary_normalize.
  destruct (Zpos c * 2 ^ k) as [| q | q] eqn:Hq; try nia.
  reflexivity.
Qed.

Lemma holds_compare a b :
  0 <= a < 2 ^ 53 -> 0 <= b < 2 ^ 53 ->
  SFcompare (holds a) (holds b) = Some (a ?= b).
Proof.
  intros Ha Hb.
  destruct a as [| a | a]; [| | lia].
  { destruct b as [| b | b]; [reflexivity | | lia]. rewrite holds_pos by lia. reflexivity. }
  destruct b as [| b | b]; [| | lia].
  { rewrite holds_pos by lia. reflexivity. }
  rewrite (holds_pos a), (holds_pos b) by lia.
  pose proof (size_le_53 a ltac:(lia)) as Hda. pose proof (size_le_53 b ltac:(lia)) as Hdb.
  destruct (size_bounds a) as [Hal Hah], (size_bounds b) as [Hbl Hbh].
  set (da := Zpos (Pos.size a)) in *. set (db := Zpos (Pos.size b)) in *.
  assert (Hpa : 0 < 2 ^ (53 - da)) by (apply Z.pow_pos_nonneg; lia).
  assert (Hpb : 0 < 2 ^ (53 - db)) by (apply Z.pow_pos_nonneg; lia).
  cbn [SFcompare]. f_equal.
  destruct (Z.compare_spec (da - 53) (db - 53)) as [He | He | He].
  - replace (53 - db) with (53 - da) in * by lia.
    rewrite Pos.compare_cont_spec.
    match goal with |- Pos.switch_Eq Eq ?c = _ => replace (Pos.switch_Eq Eq c) with c by (now destruct c) end.
    set (p := 2 ^ (53 - da)) in *.
    destruct (Z.compare_spec (Zpos a) (Zpos b)) as [H | H | H].
    + rewrite H. apply Pos.compare_refl.
    + apply Pos.compare_lt_iff. assert (Zpos a * p < Zpos b * p) by nia. lia.
    + apply Pos.compare_gt_iff. assert (Zpos b * p < Zpos a * p) by nia. lia.
  - symmetry. apply Z.compare_lt_iff.
    assert (2 ^ da <= 2 ^ (db - 1)) by (apply Z.pow_le_mono_r; lia). lia.
  - symmetry. apply Z.compare_gt_iff.
    assert (2 ^ db <= 2 ^ (da - 1)) by (apply Z.pow_le_mono_r; lia). lia.
Qed.

(** ** Numbers that hold integers *)

Lemma of_int_holds z : 0 <= z < 2 ^ 53 -> Prim2SF (of_int z) = holds z.
Proof.
  intros Hz. unfold of_int, holds. rewrite FloatAxioms.of_uint63_spec. f_equal.
  rewrite Uint63.of_Z_spec. apply Z.mod_small. unfold wB, Uint63.size.
  assert (2 ^ 53 < 2 ^ Z.of_nat 63) by (vm_compute; reflexivity). lia.
Qed.

Lemma of_holds x z :
  0 <= z < 2 ^ 53 -> Prim2SF x = holds z -> x = of_int z.
Proof.
  intros Hz Hx. apply Prim2SF_inj. now rewrite of_int_holds.
Qed.

Lemma of_int_add a b :
  0 <= a -> 0 <= b -> a + b < 2 ^ 53 ->
  PrimFloat.add (of_int a) (of_int b) = of_int (a + b).
Proof.
  intros Ha Hb Hab. apply of_holds; [lia |].
  rewrite FloatAxioms.add_spec, !of_int_holds by lia. now apply holds_add.
Qed.

Lemma of_int_sub a b :
  0 <= b -> b <= a -> a < 2 ^ 53 ->
  PrimFloat.sub (of_int a) (of_int b) = of_int (a - b).
Proof.
  intros Hb Hba Ha. apply of_holds; [lia |].
  rewrite FloatAxioms.sub_spec, !of_int_holds by lia. now apply holds_sub.
Qed.

Lemma of_int_ltb a b :
  0 <= a < 2 ^ 53 -> 0 <= b < 2 ^ 53 ->
  PrimFloat.ltb (of_int a) (of_int b) = (a <? b).
Proof.
  intros Ha Hb. rewrite FloatAxioms.ltb_spec, !of_int_holds by lia. unfold SFltb.
  rewrite holds_compare by lia. unfold Z.ltb. now destruct (a ?= b).
Qed.

Lemma of_int_leb a b :
  0 <= a < 2 ^ 53 -> 0 <= b < 2 ^ 53 ->
  PrimFloat.leb (of_int a) (of_int b) = (a <=? b).
Proof.
  intros Ha Hb. rewrite FloatAxioms.leb_spec, !of_int_holds by lia. unfold SFleb.
  rewrite holds_compare by lia. unfold Z.leb. now destruct (a ?= b).
Qed.

Lemma of_int_is_a_number a : 0 <= a < 2 ^ 53 -> is_nan (of_int a) = false.
Proof.
  intros Ha. unfold is_nan. rewrite FloatAxioms.eqb_spec, !of_int_holds by lia. unfold SFeqb.
  rewrite holds_compare by lia. now rewrite Z.compare_refl.
Qed.

Lemma zero_is_of_int : PrimFloat.zero = of_int 0.
Proof. reflexivity. Qed.

Lemma Math_min_of_int a b :
  0 <= a < 2 ^ 53 -> 0 <= b < 2 ^ 53 ->
  Math_min (of_int a) (of_int b) = of_int (Z.min a b).
Proof.
  intros Ha Hb. unfold Math_min.
  rewrite !of_int_is_a_number, !of_int_ltb by lia.
  destruct (Z.ltb_spec a b) as [Hab | Hab]; [now rewrite Z.min_l by lia |].
  destruct (Z.ltb_spec b a) as [Hba | Hba]; [now rewrite Z.min_r by lia |].
  assert (a = b) as -> by lia. rewrite Z.min_id. now destruct (Prim2SF (of_int b)) as [[] | | |].
Qed.

Lemma iterations_of_int n : 0 <= n < 2 ^ 53 -> iterations (of_int n) = n.
Proof.
  intros Hn. unfold iterations. rewrite of_int_holds by lia.
  destruct n as [| n | n]; [reflexivity | | lia].
  rewrite holds_pos by lia. pose proof (size_le_53 n ltac:(lia)) as Hd.
  set (d := Zpos (Pos.size n)) in *.
  assert (Hp : 0 < 2 ^ (53 - d)) by (apply Z.pow_pos_nonneg; lia).
  rewrite Z2Pos.id by lia.
  destruct (Z.leb_spec 0 (d - 53)) as [He | He].
  - replace (53 - d) with 0 by lia. replace (d - 53) with 0 by lia. cbn. lia.
  - replace (- (d - 53)) with (53 - d) by lia.
    rewrite <- Z.mul_opp_l, Z.div_mul by lia. lia.
Qed.

Lemma endless_of_int n : 0 <= n < 2 ^ 53 -> endless (of_int n) = false.
Proof.
  intros Hn. unfold endless. rewrite iterations_of_int by lia.
  rewrite of_int_holds by lia.
  destruct n as [| n | n]; [reflexivity | | lia].
  rewrite holds_pos by lia. apply Z.ltb_ge. lia.
Qed.

Lemma isInteger_of_int n : 0 <= n < 2 ^ 53 -> isInteger (of_int n) = true.
Proof.
  intros Hn. unfold isInteger. rewrite of_int_holds by lia.
  destruct n as [| n | n]; [reflexivity | | lia].
  rewrite holds_pos by lia. pose proof (size_le_53 n ltac:(lia)) as Hd.
  set (d := Zpos (Pos.size n)) in *.
  assert (Hp : 0 < 2 ^ (53 - d)) by (apply Z.pow_pos_nonneg; lia).
  rewrite Z2Pos.id by lia. apply orb_true_iff. right. apply Z.eqb_eq.
  replace (- (d - 53)) with (53 - d) by lia. now apply Z.mod_mul; lia.
Qed.

(** ** Numbers that are zero or less *)

Lemma iter_pos_keeps {A} (P : A -> Prop) (f : A -> A) :
  (forall x, P x -> P (f x)) -> forall p x, P x -> P (iter_pos f p x).
Proof.
  intros Hf. induction p as [p IH | p IH |]; intros x Hx; cbn [iter_pos]; auto.
Qed.

Lemma shr_1_nonneg mrs : 0 <= shr_m mrs -> 0 <= shr_m (shr_1 mrs).
Proof.
  destruct mrs as [m r s]. cbn [shr_m shr_1].
  destruct m as [| [p | p |] | p]; cbn [shr_m]; lia.
Qed.

Lemma shr_fexp_nonneg m e l :
  0 <= m -> 0 <= shr_m (fst (shr_fexp prec emax m e l)).
Proof.
  intros Hm. unfold shr_fexp, shr.
  assert (H0 : 0 <= shr_m (shr_record_of_loc m l)) by (destruct l as [| []]; exact Hm).
  destruct (fexp prec emax (Zdigits2 m + e) - e) as [| p | p]; cbn [fst]; trivial.
  apply iter_pos_keeps; [apply shr_1_nonneg | exact H0].
Qed.

Lemma round_nearest_even_nonneg m l : 0 <= m -> 0 <= round_nearest_even m l.
Proof.
  intros Hm. unfold round_nearest_even.
  destruct l as [| []]; try destruct (Z.even m); lia.
Qed.

Lemma round_aux_signed sx (m : positive) e l :
  signed sx (binary_round_aux prec emax sx (Zpos m) e l).
Proof.
  unfold binary_round_aux.
  pose proof (shr_fexp_nonneg (Zpos m) e l ltac:(lia)) as H1.
  destruct (shr_fexp prec emax (Zpos m) e l) as [mrs' e'].
  cbn [fst] in H1.
  pose proof (shr_fexp_nonneg (round_nearest_even (shr_m mrs') (loc_of_shr_record mrs'))
                e' loc_Exact (round_nearest_even_nonneg _ _ H1)) as H2.
  destruct (shr_fexp prec emax _ e' loc_Exact) as [mrs'' e''].
  cbn [fst] in H2.
  destruct (shr_m mrs'') as [| p | p]; [reflexivity | | lia].
  destruct (e'' <=? emax - prec); reflexivity.
Qed.

Lemma round_signed sx (m : positive) e : signed sx (binary_round prec emax sx m e).
Proof.
  unfold binary_round. destruct (shl_align m e _) as [mz ez]. apply round_aux_signed.
Qed.

Lemma signed_nonpositive x : signed true x -> nonpositive x.
Proof. destruct x as [s | s | | s m e]; cbn; intros H; subst; trivial. Qed.

Lemma SFadd_nonpositive x y :
  nonpositive x -> nonpositive y -> nonpositive (SFadd prec emax x y).
Proof.
  destruct x as [sx | [] | | [] mx ex]; cbn [nonpositive]; try contradiction; intros _;
    destruct y as [sy | [] | | [] my ey]; cbn [nonpositive]; try contradiction; intros _;
    try exact I.
  - cbn [SFadd]. destruct sx, sy; exact I.
  - cbn [SFadd]. unfold binary_normalize.
    destruct (shl_align mx ex (Z.min ex ey)) as [mx' ex'].
    destruct (shl_align my ey (Z.min ex ey)) as [my' ey'].
    cbn [fst cond_Zopp Z.opp Z.add]. apply signed_nonpositive, round_signed.
Qed.

Lemma leb_zero_nonpositive x :
  PrimFloat.leb x PrimFloat.zero = true <-> nonpositive (Prim2SF x).
Proof.
  rewrite FloatAxioms.leb_spec. change (Prim2SF PrimFloat.zero) with (S754_zero false).
  unfold SFleb. destruct (Prim2SF x) as [s | [] | | [] m e]; cbn; intuition discriminate.
Qed.

Lemma add_nonpositive x y :
  PrimFloat.leb x PrimFloat.zero = true -> PrimFloat.leb y PrimFloat.zero = true ->
  PrimFloat.leb (PrimFloat.add x y) PrimFloat.zero = true.
Proof.
  rewrite !leb_zero_nonpositive, FloatAxioms.add_spec. apply SFadd_nonpositive.
Qed.

Lemma zero_ltb_positive x :
  PrimFloat.ltb PrimFloat.zero x = true <-> positive_number (Prim2SF x).
Proof.
  rewrite FloatAxioms.ltb_spec. change (Prim2SF PrimFloat.zero) with (S754_zero false).
  unfold SFltb. destruct (Prim2SF x) as [s | [] | | [] m e]; cbn; intuition discriminate.
Qed.

Lemma SFcompare_nonpositive_positive x y :
  nonpositive x -> positive_number y -> SFcompare x y = Some Lt.
Proof.
  destruct x as [sx | [] | | [] mx ex]; cbn [nonpositive]; try contradiction; intros _;
    destruct y as [sy | [] | | [] my ey]; cbn [positive_number]; try contradiction; intros _;
    reflexivity.
Qed.

Lemma nonpositive_ltb_positive x y :
  PrimFloat.leb x PrimFloat.zero = true -> PrimFloat.ltb PrimFloat.zero y = true ->
  PrimFloat.ltb x y = true.
Proof.
  rewrite leb_zero_nonpositive, zero_ltb_positive, FloatAxioms.ltb_spec. intros Hx Hy.
  unfold SFltb. now rewrite SFcompare_nonpositive_positive.
Qed.

(* ================================================================== *)
(** * The conversions at a few values *)

Example toString_integer : toString (of_int 10000) = "10000".
Proof. vm_compute. reflexivity. Qed.

Example toString_fraction :
  toString (PrimFloat.div (of_int 1) (of_int 1000)) = "0.001".
Proof. vm_compute. reflexivity. Qed.

Example toString_rounded_sum :
  toString (PrimFloat.add (PrimFloat.div (of_int 1) (of_int 10))
                          (PrimFloat.div (of_int 2) (of_int 10)))
  = "0.30000000000000004".
Proof. vm_compute. reflexivity. Qed.

Example toString_small : toString (PrimFloat.div (of_int 1) (of_int 10000000)) = "1e-7".
Proof. vm_compute. reflexivity. Qed.

Example toString_large :
  toString (PrimFloat.mul (of_int 100000000000) (of_int 10000000000)) = "1e+21".
Proof. vm_compute. reflexivity. Qed.

Example toWei_fraction : toWei "0.001" = inr (10 ^ 15).
Proof. vm_compute. reflexivity. Qed.

Example toWei_exponent : exists e, toWei "1e-7" = inl e.
Proof. eexists. vm_compute. reflexivity. Qed.

Example toWei_two_points : exists e, toWei "0.0030.000126" = inl e.
Proof. eexists. vm_compute. reflexivity. Qed.

Example fromWei_fraction : fromWei 420000000000000000 = "0.42".
Proof. vm_compute. reflexivity. Qed.

Example fromWei_whole : fromWei (3 * 10 ^ 18) = "3".
Proof. vm_compute. reflexivity. Qed.

(* ================================================================== *)
(** * Reasoning about runs *)

Lemma bind_inr {A B} (c : M A) (k : A -> M B) s b s' :
  bind c k s = (inr b, s') ->
  exists a s1, c s = (inr a, s1) /\ k a s1 = (inr b, s').
Proof.
  unfold bind. destruct (c s) as [[e | a] s1]; intros H.
  - discriminate.
  - now exists a, s1.
Qed.

Lemma try_catch_cases {A} (c : M A) (h : Error -> M A) s :
  (exists a s1, c s = (inr a, s1) /\ try_catch c h s = (inr a, s1)) \/
  (exists e s1, c s = (inl e, s1) /\ try_catch c h s = h e s1).
Proof.
  unfold try_catch. destruct (c s) as [[e | a] s1].
  - right. now exists e, s1.
  - left. now exists a, s1.
Qed.

(** ** What a computation may change *)

Lemma advance_refl P s : advance P s s.
Proof. repeat split; trivial. now exists []. Qed.

Lemma advance_trans P s1 s2 s3 :
  advance P s1 s2 -> advance P s2 s3 -> advance P s1 s3.
Proof.
  intros (Hm1 & Hb1 & Hr1 & a1 & Hh1 & Hf1) (Hm2 & Hb2 & Hr2 & a2 & Hh2 & Hf2).
  repeat split; try congruence.
  exists (a2 ++ a1)%list. split.
  - rewrite Hh2, Hh1. now rewrite app_assoc.
  - apply Forall_app. now split.
Qed.

Lemma advance_weaken (P Q : Event -> Prop) s s' :
  (forall ev, P ev -> Q ev) -> advance P s s' -> advance Q s s'.
Proof.
  intros HPQ (Hm & Hb & Hr & a & Hh & Hf). repeat split; trivial.
  exists a. split; trivial. revert Hf. apply Forall_impl. exact HPQ.
Qed.

Lemma emits_ret {A} main P (a : A) : emits main P (ret a).
Proof. intros s _. apply advance_refl. Qed.

Lemma emits_throw {A} main P e : emits main P (@throw A e).
Proof. intros s _. apply advance_refl. Qed.

Lemma emits_lift {A} main P (r : Error + A) : emits main P (lift r).
Proof. intros s _. apply advance_refl. Qed.

Lemma emits_bind {A B} main P (c : M A) (k : A -> M B) :
  emits main P c -> (forall a, emits main P (k a)) -> emits main P (bind c k).
Proof.
  intros Hc Hk s Hs. unfold bind. specialize (Hc s Hs).
  destruct (c s) as [[e | a] s1]; simpl in *; trivial.
  eapply advance_trans; [exact Hc |].
  apply Hk. destruct Hc as (Hm & _). congruence.
Qed.

Lemma emits_try_catch {A} main P (c : M A) (h : Error -> M A) :
  emits main P c -> (forall e, emits main P (h e)) -> emits main P (try_catch c h).
Proof.
  intros Hc Hh s Hs. unfold try_catch. specialize (Hc s Hs).
  destruct (c s) as [[e | a] s1]; simpl in *; trivial.
  eapply advance_trans; [exact Hc |].
  apply Hh. destruct Hc as (Hm & _). congruence.
Qed.

Lemma emits_call {A} main (P : Event -> Prop) ev (answer : list Event -> Error + A) :
  P ev -> emits main P (call ev answer).
Proof.
  intros Hev s _. unfold call; simpl. repeat split; trivial.
  exists [ev]. split; trivial. now constructor.
Qed.

Lemma emits_sleep main (P : Event -> Prop) ms :
  P (EvSleep ms) -> emits main P (sleep ms).
Proof. intros H. now apply emits_call. Qed.

(** [get_this] hands out a manager whose main wallet is [main]. *)
Lemma emits_with_this {B} main P (k : Manager -> M B) :
  (forall me, mainWallet me = main -> emits main P (k me)) ->
  emits main P (bind get_this k).
Proof.
  intros Hk s Hs. unfold bind, get_this. now apply Hk.
Qed.

Lemma emits_set_wallets main P ws : emits main P (set_wallets ws).
Proof. intros s _. unfold set_wallets, bind, get_this, set_this; simpl.
  repeat split; trivial. now exists []. Qed.

Lemma emits_set_currentNonce main P n : emits main P (set_currentNonce n).
Proof. intros s _. unfold set_currentNonce, bind, get_this, set_this; simpl.
  repeat split; trivial. now exists []. Qed.

Lemma emits_increment_currentNonce main P : emits main P increment_currentNonce.
Proof.
  unfold increment_currentNonce. apply emits_with_this. intros me _.
  apply emits_set_currentNonce.
Qed.

Lemma emits_mapM {A B} main P (f : A -> M B) xs :
  (forall x, In x xs -> emits main P (f x)) -> emits main P (mapM f xs).
Proof.
  induction xs as [| x xs IH]; intros Hf; simpl.
  - apply emits_ret.
  - apply emits_bind; [apply Hf; now left |]. intros y.
    apply emits_bind; [apply IH; intros; apply Hf; now right |]. intros ys.
    apply emits_ret.
Qed.

Lemma emits_weaken {A} main (P Q : Event -> Prop) (c : M A) :
  (forall ev, P ev -> Q ev) -> emits main P c -> emits main Q c.
Proof. intros HPQ Hc s Hs. eapply advance_weaken; eauto. Qed.

(* ================================================================== *)
(** * Properties of the methods *)

Lemma length_append (a b : string) :
  String.length (a ++ b) = (String.length a + String.length b)%nat.
Proof. induction a as [| c a IH]; simpl; [reflexivity | now rewrite IH]. Qed.

Lemma timeout_is_not_onchain txHash : timeout_error txHash <> onchain_error txHash.
Proof.
  unfold timeout_error, onchain_error. intros H.
  apply (f_equal (fun e => String.length (message e))) in H. simpl in H.
  rewrite !length_append in H. simpl in H. lia.
Qed.

Section MethodFacts.

Variable L : Ledger.
Variable cfg : Config.

(** ** waitForConfirmation *)

Lemma emits_pollOnce main txHash : emits main poll_event (pollOnce L txHash).
Proof.
  unfold pollOnce. apply emits_bind; [now apply emits_call |].
  intros [r |]; [destruct (status r) |]; (apply emits_ret || apply emits_throw).
Qed.

Lemma emits_pollLoop main txHash n : emits main poll_event (pollLoop L cfg txHash n).
Proof.
  induction n as [| n IH]; simpl; [apply emits_ret |].
  apply emits_bind.
  - apply emits_try_catch; [apply emits_pollOnce | intros; apply emits_ret].
  - intros [r |]; [apply emits_ret |].
    apply emits_bind; [now apply emits_sleep | intros; apply IH].
Qed.

Lemma emits_pollRound main txHash n : emits main poll_event (pollRound L cfg txHash n).
Proof.
  unfold pollRound. apply emits_bind; [apply emits_pollLoop |].
  intros [r |]; [apply emits_ret | apply emits_throw].
Qed.

Lemma emits_retryLoop main txHash m rc retry n :
  emits main poll_event (retryLoop L cfg txHash m rc retry n).
Proof.
  revert retry. induction n as [| n IH]; intros retry; simpl; [apply emits_ret |].
  apply emits_bind.
  - apply emits_try_catch; [apply emits_pollRound |]. intros e.
    destruct (retry =? rc - 1)%nat; [apply emits_throw |].
    apply emits_bind; [now apply emits_sleep | intros; apply emits_ret].
  - intros [r |]; [apply emits_ret | apply IH].
Qed.

Lemma emits_waitForConfirmation main txHash m rc :
  emits main poll_event (waitForConfirmation L cfg txHash m rc).
Proof. apply emits_retryLoop. Qed.

(** The poll loop swallows whatever a poll throws. *)
Lemma pollLoop_never_throws txHash n s :
  exists r, fst (pollLoop L cfg txHash n s) = inr r.
Proof.
  revert s. induction n as [| n IH]; intros s; simpl.
  - now exists None.
  - unfold bind at 1.
    destruct (try_catch_cases (pollOnce L txHash) (fun _ => ret None) s)
      as [(a & s1 & _ & ->) | (e & s1 & _ & ->)].
    + destruct a as [r |]; simpl; [now exists (Some r) |].
      unfold bind, sleep, call; simpl. apply IH.
    + simpl. unfold bind, sleep, call; simpl. apply IH.
Qed.

Lemma pollRound_throws_timeout txHash n s e :
  fst (pollRound L cfg txHash n s) = inl e -> e = timeout_error txHash.
Proof.
  unfold pollRound, bind.
  destruct (pollLoop_never_throws txHash n s) as [r Hr].
  destruct (pollLoop L cfg txHash n s) as [[e' | r'] s1]; simpl in *; [discriminate |].
  destruct r'; simpl; intros H; [discriminate |]. now injection H as <-.
Qed.

Lemma retryLoop_throws_timeout txHash m rc retry n s e :
  fst (retryLoop L cfg txHash m rc retry n s) = inl e -> e = timeout_error txHash.
Proof.
  revert retry s. induction n as [| n IH]; intros retry s; simpl; [discriminate |].
  unfold bind at 1, try_catch.
  destruct (pollRound L cfg txHash m s) as [[e' | r] s1] eqn:Hround.
  - assert (e' = timeout_error txHash) as ->.
    { apply (pollRound_throws_timeout txHash m s). now rewrite Hround. }
    destruct (retry =? rc - 1)%nat; simpl.
    + intros H. now injection H as <-.
    + apply IH.
  - destruct r; simpl; [discriminate | apply IH].
Qed.

(** Whatever the node answers, the only error [waitForConfirmation] can
    end with is the timeout. *)
Lemma waitForConfirmation_throws_timeout txHash m rc s e :
  fst (waitForConfirmation L cfg txHash m rc s) = inl e -> e = timeout_error txHash.
Proof. apply retryLoop_throws_timeout. Qed.

Lemma waitForConfirmation_never_onchain_error txHash m rc s :
  fst (waitForConfirmation L cfg txHash m rc s) <> inl (onchain_error txHash).
Proof.
  intros H. apply waitForConfirmation_throws_timeout in H.
  symmetry in H. now apply timeout_is_not_onchain in H.
Qed.

(** *** A transaction mined with [status = false] *)

Section Reverted.

Variable txHash : string.
Hypothesis reverted : forall h,
  exists r, getTransactionReceipt L h txHash = inr (Some r) /\ status r = false.

Lemma pollOnce_reverted s :
  pollOnce L txHash s =
  (inl (onchain_error txHash),
   mkState (this s) (EvGetReceipt txHash :: history s) (returned s)).
Proof.
  unfold pollOnce, bind, call. simpl.
  destruct (reverted (history s)) as (r & -> & Hr). now rewrite Hr.
Qed.

Lemma pollLoop_reverted n s :
  exists s', pollLoop L cfg txHash n s = (inr None, s') /\
             occurrences is_poll (history s') = (occurrences is_poll (history s) + n)%nat.
Proof.
  revert s. induction n as [| n IH]; intros s; simpl.
  - exists s. split; [reflexivity | lia].
  - unfold bind at 1, try_catch. rewrite pollOnce_reverted.
    unfold ret at 1. unfold bind at 1, sleep, call. simpl.
    destruct (IH (mkState (this s)
                    (EvSleep (CONFIRMATION_DELAY cfg) :: EvGetReceipt txHash :: history s)
                    (returned s))) as (s' & Hrun & Hcount).
    exists s'. split; [exact Hrun |].
    rewrite Hcount. unfold occurrences. simpl. lia.
Qed.

Lemma pollRound_reverted m s :
  exists s', pollRound L cfg txHash m s = (inl (timeout_error txHash), s') /\
             occurrences is_poll (history s') = (occurrences is_poll (history s) + m)%nat.
Proof.
  destruct (pollLoop_reverted m s) as (s' & Hrun & Hcount).
  exists s'. split; [| exact Hcount].
  unfold pollRound, bind. now rewrite Hrun.
Qed.

Lemma retryLoop_reverted m rc n : forall retry s,
  (0 < n)%nat -> (retry + n = rc)%nat ->
  exists s', retryLoop L cfg txHash m rc retry n s = (inl (timeout_error txHash), s') /\
             occurrences is_poll (history s') = (occurrences is_poll (history s) + n * m)%nat.
Proof.
  induction n as [| n IH]; intros retry s Hn Hrc; [lia |].
  simpl. unfold bind at 1, try_catch.
  destruct (pollRound_reverted m s) as (s1 & -> & Hc1).
  destruct (retry =? rc - 1)%nat eqn:Hlast.
  - apply Nat.eqb_eq in Hlast. assert (n = 0)%nat as -> by lia.
    exists s1. split; [reflexivity |]. rewrite Hc1. lia.
  - apply Nat.eqb_neq in Hlast.
    unfold bind at 1, sleep, call, ret. simpl.
    destruct (IH (S retry) (mkState (this s1) (EvSleep 5000 :: history s1) (returned s1)))
      as (s' & Hrun & Hcount); [lia | lia |].
    exists s'. split; [exact Hrun |].
    rewrite Hcount. unfold occurrences in *. simpl. rewrite Hc1. lia.
Qed.

(** With a reverted transaction every poll of every round is spent and the
    call ends with the timeout. *)
Lemma waitForConfirmation_reverted m rc s :
  (0 < rc)%nat ->
  exists s', waitForConfirmation L cfg txHash m rc s = (inl (timeout_error txHash), s') /\
             occurrences is_poll (history s') = (occurrences is_poll (history s) + rc * m)%nat.
Proof. intros Hrc. apply retryLoop_reverted; lia. Qed.

End Reverted.

(** ** getNextNonce *)

Lemma emits_getNextNonce main : emits main sequencer_event (getNextNonce L).
Proof.
  unfold getNextNonce. apply emits_try_catch; [| intros; apply emits_throw].
  apply emits_with_this. intros me _.
  apply emits_bind; [now apply emits_call |]. intros count.
  unfold getNextNonce_resume.
  apply emits_bind; [apply emits_set_currentNonce |]. intros _.
  apply emits_with_this. intros me' _.
  apply emits_bind; [apply emits_increment_currentNonce | intros; apply emits_ret].
Qed.

(** ** The two tasks of processBatch *)

Lemma poll_is_fund_event ev : poll_event ev -> fund_event ev.
Proof. now destruct ev. Qed.

Lemma poll_is_return_event main gp rv ev : poll_event ev -> return_event main gp rv ev.
Proof. now destruct ev. Qed.

Lemma emits_fundTask main gp fv w : emits main fund_event (fundTask L cfg gp fv w).
Proof.
  unfold fundTask. apply emits_try_catch; [| intros; apply emits_ret].
  apply emits_with_this. intros me _.
  apply emits_bind.
  { eapply emits_weaken; [| apply emits_getNextNonce]. now intros []. }
  intros nonce. unfold fundTask_submit.
  apply emits_bind; [now apply emits_call |]. intros signed.
  apply emits_bind; [now apply emits_call |]. intros receipt.
  apply emits_bind; [| intros; apply emits_ret].
  eapply emits_weaken; [apply poll_is_fund_event | apply emits_waitForConfirmation].
Qed.

(** A [try] whose body ends in [ret a] and whose handler returns. *)
Lemma guarded_task {A} (body : M A) (h : Error -> A) (Q : A -> Prop) s :
  (forall a s1, body s = (inr a, s1) -> Q a) ->
  (forall e, Q (h e)) ->
  exists a, fst (try_catch body (fun e => ret (h e)) s) = inr a /\ Q a.
Proof.
  intros Hbody Hh. unfold try_catch.
  destruct (body s) as [[e | a] s1] eqn:Hrun; simpl.
  - exists (h e). split; [reflexivity | apply Hh].
  - exists a. split; [reflexivity | eapply Hbody; reflexivity].
Qed.

Lemma fundTask_total gp fv w s :
  exists o, fst (fundTask L cfg gp fv w s) = inr o /\ outcome_of w fund o.
Proof.
  unfold fundTask, fund_failure. apply guarded_task.
  - intros a s1 H.
    apply bind_inr in H as (me & s2 & _ & H).
    apply bind_inr in H as (nonce & s3 & _ & H).
    unfold fundTask_submit in H.
    apply bind_inr in H as (signed & s4 & _ & H).
    apply bind_inr in H as (receipt & s5 & _ & H).
    apply bind_inr in H as (r & s6 & _ & H).
    injection H as <- _. repeat split; trivial; discriminate.
  - intros e. repeat split; trivial; try discriminate. intros _. now eexists.
Qed.

Lemma call_then_marks {A B} main P ev (answer : list Event -> Error + A)
  (k : A -> M B) s :
  (forall a, emits main P (k a)) -> mainWallet (this s) = main ->
  exists later,
    history (snd (bind (call ev answer) k s)) = (later ++ ev :: history s)%list.
Proof.
  intros Hk Hs. unfold bind, call.
  destruct (answer (history s)) as [e | a]; simpl.
  - now exists [].
  - destruct (Hk a (mkState (this s) (ev :: history s) (returned s)) Hs)
      as (_ & _ & _ & added & Hh & _).
    exists added. exact Hh.
Qed.

Lemma call_then_emits {A B} main (P : Event -> Prop) ev
  (answer : list Event -> Error + A) (k : A -> M B) s :
  (forall a, emits main P (k a)) -> mainWallet (this s) = main ->
  exists later,
    history (snd (bind (call ev answer) k s)) = (later ++ ev :: history s)%list /\
    Forall P later.
Proof.
  intros Hk Hs. unfold bind, call.
  destruct (answer (history s)) as [e | a]; simpl.
  - exists []. now split.
  - destruct (Hk a (mkState (this s) (ev :: history s) (returned s)) Hs)
      as (_ & _ & _ & added & Hh & Hall).
    exists added. now split.
Qed.

Lemma try_catch_ret_state {A} (c : M A) (h : Error -> A) s :
  snd (try_catch c (fun e => ret (h e)) s) = snd (c s).
Proof. unfold try_catch, ret. now destruct (c s) as [[e | a] s1]. Qed.

Lemma Forall2_outcome_wallets t ws os :
  Forall2 (fun w o => outcome_of w t o) ws os -> map wallet os = ws.
Proof.
  induction 1 as [| w o ws os (Hw & _) _ IH]; simpl; [reflexivity |].
  now rewrite Hw, IH.
Qed.

Lemma Forall2_outcome_errors t ws os :
  Forall2 (fun w o => outcome_of w t o) ws os ->
  Forall (fun o => type o = t /\ (success o = false -> exists msg, error o = JsString msg)) os.
Proof.
  induction 1 as [| w o ws os (_ & Ht & _ & He) _ IH]; constructor; auto.
Qed.

End MethodFacts.

(* ================================================================== *)
(** * The tasks of a pool *)

Lemma extends_refl h : extends h h.
Proof. now exists []. Qed.

Lemma extends_trans h1 h2 h3 : extends h3 h2 -> extends h2 h1 -> extends h3 h1.
Proof. intros (l2 & ->) (l1 & ->). exists (l2 ++ l1)%list. now rewrite app_assoc. Qed.

Lemma extends_cons ev h' h : extends h' h -> extends (ev :: h') h.
Proof. intros (l & ->). now exists (ev :: l). Qed.

Lemma grown_extends allowed h h' : grown allowed h h' -> extends h' h.
Proof.
  induction 1 as [| h' ev _ IH _]; [apply extends_refl | now apply extends_cons].
Qed.

Lemma grown_trans allowed h1 h2 h3 :
  grown allowed h1 h2 -> grown allowed h2 h3 -> grown allowed h1 h3.
Proof. intros H12 H23. induction H23; [exact H12 | now constructor]. Qed.

Section MeetsFacts.

Variable kept : Manager -> Prop.
Variable allowed : list Event -> Event -> Prop.

Lemma meets_later {A} (Q : list Event -> A -> Prop) E (c : Async.Task A) h h' :
  extends h' h -> meets kept allowed Q E c h -> meets kept allowed Q E c h'.
Proof.
  intros Hext H h'' me Hext' Hme. apply H; trivial. eapply extends_trans; eauto.
Qed.

Lemma running_weaken {A} (Q Q' : list Event -> A -> Prop) (E E' : list Event -> Error -> Prop)
  (c : Async.Task A) :
  (forall h a, Q h a -> Q' h a) -> (forall h e, E h e -> E' h e) ->
  forall h me, running kept allowed Q E c h me -> running kept allowed Q' E' c h me.
Proof.
  intros HQ HE. induction c as [a | e | k IH | f c IH | B ev answer k IH];
    intros h me H; cbn [running] in *; auto.
  - destruct H as [Hf H]. split; auto.
  - destruct H as [Hev H]. split; auto.
Qed.

Lemma running_bind {A B} (Q1 : list Event -> A -> Prop) (Q2 : list Event -> B -> Prop) E
  (c : Async.Task A) (k : A -> Async.Task B) :
  forall h me,
    kept me ->
    running kept allowed Q1 E c h me ->
    (forall a h' me', extends h' h -> kept me' -> Q1 h' a ->
       running kept allowed Q2 E (k a) h' me') ->
    running kept allowed Q2 E (Async.bind c k) h me.
Proof.
  induction c as [a | e | k' IH | f c IH | B' ev answer k' IH];
    intros h me Hme H Hk; cbn [running Async.bind] in *.
  - apply Hk; [apply extends_refl | exact Hme | exact H].
  - exact H.
  - apply IH; auto.
  - destruct H as [Hf H]. split; [exact Hf | apply IH; auto].
  - destruct H as [Hev H]. split; [exact Hev |]. intros h' me' Hext Hme'.
    apply IH; [exact Hme' | now apply H |]. intros a h'' me'' Hext' Hme'' Ha.
    apply Hk; trivial. eapply extends_trans; [exact Hext' |].
    eapply extends_trans; [exact Hext |]. apply extends_cons, extends_refl.
Qed.

Lemma running_try_catch {A} (Q : list Event -> A -> Prop) E1 E2
  (c : Async.Task A) (handler : Error -> Async.Task A) :
  forall h me,
    kept me ->
    running kept allowed Q E1 c h me ->
    (forall e h' me', extends h' h -> kept me' -> E1 h' e ->
       running kept allowed Q E2 (handler e) h' me') ->
    running kept allowed Q E2 (Async.try_catch c handler) h me.
Proof.
  induction c as [a | e | k' IH | f c IH | B' ev answer k' IH];
    intros h me Hme H Hh; cbn [running Async.try_catch] in *.
  - exact H.
  - apply Hh; [apply extends_refl | exact Hme | exact H].
  - apply IH; auto.
  - destruct H as [Hf H]. split; [exact Hf | apply IH; auto].
  - destruct H as [Hev H]. split; [exact Hev |]. intros h' me' Hext Hme'.
    apply IH; [exact Hme' | now apply H |]. intros e h'' me'' Hext' Hme'' He.
    apply Hh; trivial. eapply extends_trans; [exact Hext' |].
    eapply extends_trans; [exact Hext |]. apply extends_cons, extends_refl.
Qed.

End MeetsFacts.

(** ** The limiter and the event loop keep what the tasks meet *)

Section Running.

Variable kept : Manager -> Prop.
Variable allowed : list Event -> Event -> Prop.

Lemma ran_refl s : kept (this s) -> ran kept allowed s s.
Proof. intros H. repeat split; trivial. constructor. Qed.

Lemma ran_trans s1 s2 s3 : ran kept allowed s1 s2 -> ran kept allowed s2 s3 -> ran kept allowed s1 s3.
Proof.
  intros (_ & Hr1 & Hg1) (Hk & Hr2 & Hg2). repeat split; trivial; [congruence |].
  eapply grown_trans; eauto.
Qed.

Lemma ran_extends s s' : ran kept allowed s s' -> extends (history s') (history s).
Proof. intros (_ & _ & Hg). eapply grown_extends; eauto. Qed.

Context {A : Type}.
Variable E : list Event -> Error -> Prop.
Hypothesis E_stable : stable E.

Lemma slot_later (Q : list Event -> A -> Prop) slot h h' :
  stable Q -> extends h' h ->
  slot_meets kept allowed E h Q slot -> slot_meets kept allowed E h' Q slot.
Proof.
  intros HQ Hext. destruct slot as [c | c | a]; cbn [slot_meets];
    try (now apply meets_later). now apply HQ.
Qed.

Lemma slots_later (Qs : list (list Event -> A -> Prop)) slots h h' :
  Forall stable Qs -> extends h' h ->
  Forall2 (slot_meets kept allowed E h) Qs slots ->
  Forall2 (slot_meets kept allowed E h') Qs slots.
Proof.
  intros HQs Hext H. induction H as [| Q slot Qs slots Hslot _ IH]; constructor.
  - inversion HQs; subst. eapply slot_later; eauto.
  - inversion HQs; subst. auto.
Qed.

Lemma proceed_running Q (c : Async.Task A) : forall s,
  kept (this s) -> running kept allowed Q E c (history s) (this s) ->
  ran kept allowed s (snd (Async.proceed c s)) /\
  match fst (Async.proceed c s) with
  | inr slot => slot_meets kept allowed E (history (snd (Async.proceed c s))) Q slot
  | inl e => E (history (snd (Async.proceed c s))) e
  end.
Proof.
  induction c as [a | e | k IH | f c IH | B ev answer k IH]; intros s Hs H;
    cbn [running Async.proceed] in *.
  - split; [now apply ran_refl | exact H].
  - split; [now apply ran_refl | exact H].
  - apply IH; auto.
  - destruct H as [Hf H].
    destruct (IH (mkState (f (this s)) (history s) (returned s)) Hf H)
      as [(Hk & Hr & Hg) Hout].
    split; [| exact Hout]. repeat split; trivial.
  - destruct H as [Hev Hk]. cbn [fst snd history this slot_meets].
    split; [| exact Hk]. repeat split; trivial. constructor; [constructor | exact Hev].
Qed.

Lemma proceed_meets Q (c : Async.Task A) s :
  kept (this s) -> meets kept allowed Q E c (history s) ->
  ran kept allowed s (snd (Async.proceed c s)) /\
  match fst (Async.proceed c s) with
  | inr slot => slot_meets kept allowed E (history (snd (Async.proceed c s))) Q slot
  | inl e => E (history (snd (Async.proceed c s))) e
  end.
Proof.
  intros Hs H. apply proceed_running; trivial. apply H; trivial. apply extends_refl.
Qed.

Lemma alone_running Q (c : Async.Task A) : forall s,
  kept (this s) -> running kept allowed Q E c (history s) (this s) ->
  ran kept allowed s (snd (Async.alone c s)) /\
  match fst (Async.alone c s) with
  | inr a => Q (history (snd (Async.alone c s))) a
  | inl e => E (history (snd (Async.alone c s))) e
  end.
Proof.
  induction c as [a | e | k IH | f c IH | B ev answer k IH]; intros s Hs H;
    cbn [running Async.alone] in *.
  - split; [now apply ran_refl | exact H].
  - split; [now apply ran_refl | exact H].
  - apply IH; auto.
  - destruct H as [Hf H].
    destruct (IH (mkState (f (this s)) (history s) (returned s)) Hf H)
      as [(Hk & Hr & Hg) Hout].
    split; [| exact Hout]. repeat split; trivial.
  - destruct H as [Hev Hk].
    set (s1 := mkState (this s) (ev :: history s) (returned s)).
    destruct (IH (answer (history s)) s1 Hs (Hk _ _ (extends_refl _) Hs))
      as [(Hk' & Hr & Hg) Hout].
    split; [| exact Hout]. repeat split; trivial.
    eapply grown_trans; [| exact Hg]. constructor; [constructor | exact Hev].
Qed.

Lemma alone_meets Q (c : Async.Task A) s :
  kept (this s) -> meets kept allowed Q E c (history s) ->
  ran kept allowed s (snd (Async.alone c s)) /\
  match fst (Async.alone c s) with
  | inr a => Q (history (snd (Async.alone c s))) a
  | inl e => E (history (snd (Async.alone c s))) e
  end.
Proof.
  intros Hs H. apply alone_running; trivial. apply H; trivial. apply extends_refl.
Qed.

Lemma bind_eq {X Y} (c : M X) (k : X -> M Y) s :
  bind c k s = match c s with
               | (inr a, s') => k a s'
               | (inl e, s') => (inl e, s')
               end.
Proof. reflexivity. Qed.

Lemma start_meets : forall (slots : list (Async.Slot A)) free Qs s,
  Forall stable Qs -> kept (this s) ->
  Forall2 (slot_meets kept allowed E (history s)) Qs slots ->
  ran kept allowed s (snd (Async.start free slots s)) /\
  slots_meet kept allowed E Qs (Async.start free slots s).
Proof.
  induction slots as [| slot rest IH]; intros free Qs s HQs Hs H.
  - inversion H; subst. split; [now apply ran_refl | constructor].
  - inversion H as [| Q ? Qs' ? Hslot Hrest]; subst. inversion HQs as [| ? ? HQ HQs']; subst.
    assert (Hskip : forall slot',
      slot_meets kept allowed E (history s) Q slot' ->
      let out := bind (Async.start free rest) (fun rest' => ret (slot' :: rest')) s in
      ran kept allowed s (snd out) /\ slots_meet kept allowed E (Q :: Qs') out).
    { intros slot' Hslot'. cbn zeta. rewrite bind_eq.
      destruct (IH free Qs' s HQs' Hs Hrest) as [Hran Hout]. unfold slots_meet in *.
      destruct (Async.start free rest s) as [[e | rest'] s1]; cbn [fst snd ret] in *.
      - split; trivial.
      - split; trivial. constructor; trivial.
        eapply slot_later; eauto. eapply ran_extends; eauto. }
    destruct slot as [c | c | a]; [| now apply Hskip | now apply Hskip].
    cbn [Async.start]. destruct free as [| free'].
    { split; [now apply ran_refl | exact H]. }
    rewrite bind_eq.
    destruct (proceed_meets Q c s Hs Hslot) as [Hran Hout].
    destruct (Async.proceed c s) as [[e | slot'] s1]; cbn [fst snd] in *.
    { split; [exact Hran | exact Hout]. }
    rewrite bind_eq.
    assert (Hrest1 : Forall2 (slot_meets kept allowed E (history s1)) Qs' rest).
    { eapply slots_later; eauto. eapply ran_extends; eauto. }
    destruct (IH (if Async.is_pending slot' then free' else S free') Qs' s1 HQs'
                 (proj1 Hran) Hrest1) as [Hran2 Hout2].
    unfold slots_meet in *.
    destruct (Async.start (if Async.is_pending slot' then free' else S free') rest s1)
      as [[e | rest'] s2]; cbn [fst snd ret] in *.
    + split; [exact (ran_trans _ _ _ Hran Hran2) | exact Hout2].
    + split; [exact (ran_trans _ _ _ Hran Hran2) |]. constructor; trivial.
      eapply slot_later; eauto. eapply ran_extends; eauto.
Qed.

Lemma resume_meets : forall (slots : list (Async.Slot A)) k Qs s,
  Forall stable Qs -> kept (this s) ->
  Forall2 (slot_meets kept allowed E (history s)) Qs slots ->
  ran kept allowed s (snd (Async.resume k slots s)) /\
  slots_meet kept allowed E Qs (Async.resume k slots s).
Proof.
  induction slots as [| slot rest IH]; intros k Qs s HQs Hs H.
  - inversion H; subst. split; [now apply ran_refl | constructor].
  - inversion H as [| Q ? Qs' ? Hslot Hrest]; subst. inversion HQs as [| ? ? HQ HQs']; subst.
    assert (Hskip : forall k' slot',
      slot_meets kept allowed E (history s) Q slot' ->
      let out := bind (Async.resume k' rest) (fun rest' => ret (slot' :: rest')) s in
      ran kept allowed s (snd out) /\ slots_meet kept allowed E (Q :: Qs') out).
    { intros k' slot' Hslot'. cbn zeta. rewrite bind_eq.
      destruct (IH k' Qs' s HQs' Hs Hrest) as [Hran Hout]. unfold slots_meet in *.
      destruct (Async.resume k' rest s) as [[e | rest'] s1]; cbn [fst snd ret] in *.
      - split; trivial.
      - split; trivial. constructor; trivial.
        eapply slot_later; eauto. eapply ran_extends; eauto. }
    destruct slot as [c | c | a]; [now apply Hskip | | now apply Hskip].
    cbn [Async.resume]. destruct k as [| k']; [| now apply Hskip].
    rewrite bind_eq.
    destruct (proceed_meets Q c s Hs Hslot) as [Hran Hout].
    unfold slots_meet.
    destruct (Async.proceed c s) as [[e | slot'] s1]; cbn [fst snd ret] in *.
    + split; trivial.
    + split; trivial. constructor; trivial.
      eapply slots_later; eauto. eapply ran_extends; eauto.
Qed.

Lemma turns_meets concurrency arrival : forall fuel (slots : list (Async.Slot A)) Qs s,
  Forall stable Qs -> kept (this s) ->
  Forall2 (slot_meets kept allowed E (history s)) Qs slots ->
  ran kept allowed s (snd (Async.turns concurrency arrival fuel slots s)) /\
  slots_meet kept allowed E Qs (Async.turns concurrency arrival fuel slots s).
Proof.
  induction fuel as [| fuel IH]; intros slots Qs s HQs Hs H.
  - cbn [Async.turns]. rewrite bind_eq.
    destruct (start_meets slots (Z.to_nat (concurrency - Async.activeCount slots)) Qs s
                HQs Hs H) as [Hran Hout].
    unfold slots_meet in *.
    destruct (Async.start (Z.to_nat (concurrency - Async.activeCount slots)) slots s)
      as [[e | slots1] s1]; cbn [fst snd] in *;
      [now split |].
    destruct (filter Async.is_pending slots1); cbn [ret fst snd]; now split.
  - cbn [Async.turns]. rewrite bind_eq.
    destruct (start_meets slots (Z.to_nat (concurrency - Async.activeCount slots)) Qs s
                HQs Hs H) as [Hran Hout].
    unfold slots_meet in Hout.
    destruct (Async.start (Z.to_nat (concurrency - Async.activeCount slots)) slots s)
      as [[e | slots1] s1]; cbn [fst snd] in *;
      [now split |].
    destruct (filter Async.is_pending slots1) as [| p ps] eqn:Hp;
      [cbn [ret fst snd]; now split |].
    rewrite bind_eq. unfold get_history at 1 2. rewrite bind_eq.
    set (k := (arrival (history s1) _ mod _)%nat).
    destruct (resume_meets slots1 k Qs s1 HQs (proj1 Hran) Hout) as [Hran2 Hout2].
    unfold slots_meet in Hout2.
    destruct (Async.resume k slots1 s1) as [[e | slots2] s2]; cbn [fst snd] in *.
    + split; [exact (ran_trans _ _ _ Hran Hran2) | exact Hout2].
    + destruct (IH slots2 Qs s2 HQs (proj1 Hran2) Hout2) as [Hran3 Hout3].
      split; [| exact Hout3].
      exact (ran_trans _ _ _ (ran_trans _ _ _ Hran Hran2) Hran3).
Qed.

Lemma settle_meets : forall (slots : list (Async.Slot A)) Qs s,
  Forall stable Qs -> kept (this s) ->
  Forall2 (slot_meets kept allowed E (history s)) Qs slots ->
  ran kept allowed s (snd (mapM Async.settle slots s)) /\
  match fst (mapM Async.settle slots s) with
  | inr results =>
      Forall2 (fun Q a => Q (history (snd (mapM Async.settle slots s))) a) Qs results
  | inl e => E (history (snd (mapM Async.settle slots s))) e
  end.
Proof.
  induction slots as [| slot rest IH]; intros Qs s HQs Hs H.
  - inversion H; subst. split; [now apply ran_refl | constructor].
  - inversion H as [| Q ? Qs' ? Hslot Hrest]; subst. inversion HQs as [| ? ? HQ HQs']; subst.
    cbn [mapM]. rewrite bind_eq.
    assert (Hone : ran kept allowed s (snd (Async.settle slot s)) /\
                   match fst (Async.settle slot s) with
                   | inr a => Q (history (snd (Async.settle slot s))) a
                   | inl e => E (history (snd (Async.settle slot s))) e
                   end).
    { destruct slot as [c | c | a]; cbn [Async.settle slot_meets] in *;
        try (now apply alone_meets). split; [now apply ran_refl | exact Hslot]. }
    destruct Hone as [Hran Hout].
    destruct (Async.settle slot s) as [[e | a] s1]; cbn [fst snd] in *; [now split |].
    rewrite bind_eq.
    assert (Hrest1 : Forall2 (slot_meets kept allowed E (history s1)) Qs' rest).
    { eapply slots_later; eauto. eapply ran_extends; eauto. }
    destruct (IH Qs' s1 HQs' (proj1 Hran) Hrest1) as [Hran2 Hout2].
    destruct (mapM Async.settle rest s1) as [[e | results] s2]; cbn [fst snd ret] in *.
    + split; [exact (ran_trans _ _ _ Hran Hran2) | exact Hout2].
    + split; [exact (ran_trans _ _ _ Hran Hran2) |]. constructor; trivial.
      eapply HQ; [| exact Hout]. eapply ran_extends; eauto.
Qed.

(** [Promise.all] over limited tasks that meet the [Qs]: it resolves with
    results that the [Qs] hold of, one per task and in their order, or it
    rejects with an error of one task. *)
Lemma all_meets concurrency arrival fuel (tasks : list (Async.Task A))
  (Qs : list (list Event -> A -> Prop)) s :
  Forall stable Qs -> kept (this s) ->
  Forall2 (fun Q c => meets kept allowed Q E c (history s)) Qs tasks ->
  let out := Async.all concurrency arrival fuel tasks s in
  ran kept allowed s (snd out) /\
  match fst out with
  | inr results => Forall2 (fun Q a => Q (history (snd out)) a) Qs results
  | inl e => E (history (snd out)) e
  end.
Proof.
  intros HQs Hs H. cbn zeta. unfold Async.all. rewrite bind_eq.
  assert (H0 : Forall2 (slot_meets kept allowed E (history s)) Qs (map Async.Queued tasks)).
  { clear - H. induction H; cbn [map]; constructor; trivial. }
  destruct (turns_meets concurrency arrival fuel _ Qs s HQs Hs H0) as [Hran Hout].
  unfold slots_meet in Hout.
  destruct (Async.turns concurrency arrival fuel (map Async.Queued tasks) s)
    as [[e | slots] s1]; cbn [fst snd] in *; [now split |].
  destruct (settle_meets slots Qs s1 HQs (proj1 Hran) Hout) as [Hran2 Hout2].
  split; [exact (ran_trans _ _ _ Hran Hran2) | exact Hout2].
Qed.

End Running.

Lemma happened_later more h' ev h :
  happened h' ev h -> happened (more ++ h')%list ev h.
Proof. intros (later & ->). exists (more ++ later)%list. now rewrite <- app_assoc. Qed.

Lemma confirmed_in_later L more h' request tx key :
  confirmed_in L h' request tx key -> confirmed_in L (more ++ h')%list request tx key.
Proof.
  intros (hs & raw & hd & receipt & hp & r & H1 & H2 & H3 & H4 & H5 & H6 & H7).
  exists hs, raw, hd, receipt, hp, r. repeat split; trivial; now apply happened_later.
Qed.

Lemma happened_extends h'' h' ev h : extends h'' h' -> happened h' ev h -> happened h'' ev h.
Proof. intros (more & ->). apply happened_later. Qed.

Lemma happened_now ev h : happened (ev :: h) ev h.
Proof. now exists []. Qed.

Lemma no_error_stable : stable no_error.
Proof. now intros h h' e _ H. Qed.

Section Rules.

Variable kept : Manager -> Prop.
Variable allowed : list Event -> Event -> Prop.

Lemma running_await_bind {B C} ev (answer : list Event -> Error + B) (k : B -> Async.Task C)
  (Q : list Event -> C -> Prop) E h me :
  allowed h ev ->
  (forall h' me', extends h' (ev :: h) -> kept me' ->
     match answer h with
     | inr b => running kept allowed Q E (k b) h' me'
     | inl e => E h' e
     end) ->
  running kept allowed Q E (Async.bind (Async.await ev answer) k) h me.
Proof.
  intros Hev H. cbn [Async.bind Async.await running]. split; [exact Hev |].
  intros h' me' Hext Hme'. specialize (H h' me' Hext Hme').
  destruct (answer h) as [e | b]; exact H.
Qed.

End Rules.

Section Waiting.

Variable L : Ledger.
Variable cfg : Config.
Variable kept : Manager -> Prop.
Variable allowed : list Event -> Event -> Prop.
Variable txHash : string.

Hypothesis may_poll : forall h, allowed h (EvGetReceipt txHash).
Hypothesis may_sleep : forall h ms, allowed h (EvSleep ms).

Lemma running_sleep_bind {C} ms (k : unit -> Async.Task C) (Q : list Event -> C -> Prop)
  E h me :
  (forall h' me', extends h' h -> kept me' -> running kept allowed Q E (k tt) h' me') ->
  running kept allowed Q E (Async.bind (Async.sleep ms) k) h me.
Proof.
  intros H. apply running_await_bind; [apply may_sleep |]. intros h' me' Hext Hme'.
  apply H; trivial. eapply extends_trans; [exact Hext |]. apply extends_cons, extends_refl.
Qed.

Lemma running_pollOnce h me :
  running kept allowed (wait_result L txHash) any_error (Async.pollOnce L txHash) h me.
Proof.
  unfold Async.pollOnce. apply running_await_bind; [apply may_poll |].
  intros h' me' Hext Hme'.
  destruct (getTransactionReceipt L h txHash) as [e | [r |]] eqn:Hr;
    cbn [running wait_result]; [exact I | | exact I].
  destruct (status r) eqn:Hs; cbn [running wait_result]; [| exact I].
  exists h. split; [| now split]. eapply happened_extends; [exact Hext | apply happened_now].
Qed.

Lemma running_pollLoop n : forall h me,
  kept me ->
  running kept allowed (wait_result L txHash) any_error (Async.pollLoop L cfg txHash n) h me.
Proof.
  induction n as [| n IH]; intros h me Hme; cbn [Async.pollLoop]; [exact I |].
  apply (running_bind kept allowed (wait_result L txHash)); trivial.
  - eapply running_try_catch; [exact Hme | apply running_pollOnce |].
    intros e h' me' _ _ _. exact I.
  - intros [r |] h' me' Hext Hme' Hr; [exact Hr |].
    apply running_sleep_bind. intros h'' me'' _ Hme''. now apply IH.
Qed.

(** With a round still to go, the wait does not resolve with
    [undefined]. *)
Definition confirmed_result (h : list Event) (r : option Receipt) : Prop :=
  exists receipt, r = Some receipt /\ receipt_seen L txHash h receipt.

Lemma running_pollRound n h me :
  kept me ->
  running kept allowed confirmed_result any_error (Async.pollRound L cfg txHash n) h me.
Proof.
  intros Hme. unfold Async.pollRound.
  apply (running_bind kept allowed (wait_result L txHash)); trivial;
    [now apply running_pollLoop |].
  intros [r |] h' me' _ _ Hr; [| exact I]. exists r. now split.
Qed.

Lemma running_retryLoop m rc remaining : forall retry h me,
  kept me ->
  (retry + S remaining = rc)%nat ->
  running kept allowed confirmed_result any_error
          (Async.retryLoop L cfg txHash m rc retry (S remaining)) h me.
Proof.
  induction remaining as [| remaining IH]; intros retry h me Hme Hrc; cbn [Async.retryLoop].
  - (* the last round: the timeout is thrown on *)
    replace (retry =? rc - 1)%nat with true by (symmetry; apply Nat.eqb_eq; lia).
    apply (running_bind kept allowed confirmed_result); trivial.
    + eapply running_try_catch; [exact Hme | now apply running_pollRound |].
      intros e h' me' _ _ _. exact I.
    + intros r h' me' _ _ (receipt & -> & Hr). exists receipt. now split.
  - replace (retry =? rc - 1)%nat with false by (symmetry; apply Nat.eqb_neq; lia).
    apply (running_bind kept allowed (wait_result L txHash)); trivial.
    + eapply running_try_catch; [exact Hme | |].
      * eapply running_weaken; [| | now apply running_pollRound].
        -- intros h0 r (receipt & -> & Hr). exact Hr.
        -- intros h0 e He. exact He.
      * intros e h' me' _ Hme' _. apply running_sleep_bind. intros h'' me'' _ _. exact I.
    + intros [r |] h' me' _ Hme' Hr.
      * exists r. now split.
      * apply IH; [exact Hme' | lia].
Qed.

Lemma running_waitForConfirmation m rc h me :
  kept me -> (0 < rc)%nat ->
  running kept allowed confirmed_result any_error
          (Async.waitForConfirmation L cfg txHash m rc) h me.
Proof.
  intros Hme Hrc. unfold Async.waitForConfirmation.
  destruct rc as [| rc]; [lia |]. apply running_retryLoop; [exact Hme | lia].
Qed.

End Waiting.

(** ** What the two tasks of a batch meet *)

Lemma funding_result_stable L main gp fv w : stable (funding_result L main gp fv w).
Proof.
  intros h h' o (more & ->) (Ho & Hc). split; [exact Ho |].
  intros Hs. destruct (Hc Hs) as (nonce & Hn). exists nonce. now apply confirmed_in_later.
Qed.

Lemma return_result_stable L main gp rv h0 w : stable (return_result L main gp rv h0 w).
Proof.
  intros h h' o Hext (Ho & (hs & Hhs & Hh0) & Hc). split; [exact Ho |]. split.
  - exists hs. split; [| exact Hh0]. eapply happened_extends; eauto.
  - intros Hs. destruct Hext as (more & ->). unfold return_confirmed in *.
    apply confirmed_in_later. now apply Hc.
Qed.

Section Tasks.

Variable L : Ledger.
Variable cfg : Config.
Variable main : Wallet.
Variable size : number.
Variable tracked : list Wallet.

Let kept := keeps_but_nonce main size tracked.

Lemma kept_nonce me n :
  kept me -> kept (mkManager (mainWallet me) (batchSize me) (wallets me) n).
Proof. intros (Hm & Hb & Hw). now repeat split. Qed.

Section Funding.

Variables gp fv : Z.
Variable ws : list Wallet.

Let allowed := funding_step L main gp fv ws.

Lemma running_getNextNonce h me :
  kept me ->
  running kept allowed (count_answer L main) any_error (Async.getNextNonce L) h me.
Proof.
  intros Hme. unfold Async.getNextNonce.
  eapply running_try_catch; [exact Hme | | intros e h' me' _ _ _; exact I].
  cbn [Async.bind Async.get_this running].
  apply running_await_bind.
  { destruct Hme as (Hm & _). cbn. rewrite Hm. now split. }
  intros h' me' Hext Hme'.
  destruct (getTransactionCount L h (address (mainWallet me)) "pending") as [e | count] eqn:Hc;
    [exact I |].
  cbn [Async.bind Async.set_currentNonce Async.get_this Async.increment_currentNonce
       running currentNonce to_number mainWallet batchSize wallets].
  split; [now apply kept_nonce |]. split; [now apply kept_nonce |].
  exists h. destruct Hme as (Hm & _). rewrite <- Hm. split; [| exact Hc].
  eapply happened_extends; [exact Hext | apply happened_now].
Qed.

Lemma running_fundTask w h me :
  In w ws -> kept me ->
  running kept allowed (funding_result L main gp fv w) no_error
          (Async.fundTask L cfg gp fv w) h me.
Proof.
  intros Hw Hme. unfold Async.fundTask.
  eapply running_try_catch with (E1 := any_error); [exact Hme | |].
  2:{ intros e h' me' _ _ _. cbn [running]. split; [| discriminate].
      repeat split; try discriminate. intros _. now eexists. }
  cbn [Async.bind Async.get_this running].
  apply (running_bind kept allowed (count_answer L main)); trivial;
    [now apply running_getNextNonce |].
  intros nonce h1 me1 Hext1 Hme1 Hnonce.
  assert (Hmain : mainWallet me = main) by apply Hme. rewrite Hmain.
  set (tx := fundTx main gp fv nonce w).
  apply running_await_bind.
  { cbn. exists w, nonce. now repeat split. }
  intros h2 me2 Hext2 Hme2.
  destruct (signTransaction L h1 tx (privateKey main)) as [e | raw] eqn:Hraw; [exact I |].
  apply running_await_bind.
  { cbn. exists w, nonce, h1. now repeat split. }
  intros h3 me3 Hext3 Hme3.
  destruct (sendSignedTransaction L h2 raw) as [e | receipt] eqn:Hreceipt; [exact I |].
  apply (running_bind kept allowed (confirmed_result L (transactionHash receipt))); trivial.
  { apply running_waitForConfirmation; trivial; [intros; exact I | intros; exact I |].
    unfold RETRY_COUNT. lia. }
  intros r h4 me4 Hext4 Hme4 (rc & -> & hp & Hhp & Hrc & Hstatus).
  cbn [running]. split; [repeat split; try discriminate; trivial |].
  intros _. exists nonce. exists h1, raw, h2, receipt, hp, rc.
  assert (H32 : extends h3 (EvSignMain tx :: h1)).
  { eapply extends_trans; [exact Hext3 |]. now apply extends_cons. }
  repeat split; trivial.
  - exact (extends_trans _ _ _ Hext4 H32).
  - exact (extends_trans _ _ _ Hext4 Hext3).
Qed.

End Funding.

Section Returning.

Variables gp rv : Z.
Variable funded : list Wallet.
Variable h0 : list Event.

Let allowed := return_step L main gp rv funded.

Lemma running_returnTask w h me :
  In w funded -> extends h h0 -> kept me ->
  running kept allowed (return_result L main gp rv h0 w) no_error
          (Async.returnTask L cfg gp rv w) h me.
Proof.
  intros Hw Hh0 Hme. unfold Async.returnTask.
  assert (Hmain : mainWallet me = main) by apply Hme.
  cbn [Async.bind Async.get_this Async.try_catch running]. rewrite Hmain.
  set (tx := returnTx main gp rv w).
  split.
  { cbn. exists w. now repeat split. }
  intros h1 me1 Hext1 Hme1.
  destruct (signTransaction L h tx (privateKey w)) as [e | raw] eqn:Hraw.
  { cbn [Async.bind Async.try_catch running]. split; [| split; [| discriminate]].
    - repeat split; try discriminate. intros _. now eexists.
    - exists h. now split. }
  assert (Hsigned : forall h', extends h' h1 ->
            exists hs, happened h' (return_signature main gp rv w) hs /\ extends hs h0).
  { intros h' Hext'. exists h. split; [| exact Hh0]. exact (extends_trans _ _ _ Hext' Hext1). }
  change (running kept allowed (return_result L main gp rv h0 w) no_error
            (Async.try_catch
               (Async.bind (Async.await (EvSend raw) (fun h => sendSignedTransaction L h raw))
                  (fun receipt =>
                     Async.bind (Async.waitForConfirmation L cfg (transactionHash receipt)
                                   CONFIRMATION_ATTEMPTS RETRY_COUNT)
                       (fun _ => Async.Resolve (mkOutcome true w JsUndefined return_))))
               (fun error => Async.Resolve (mkOutcome false w (JsString (message error))
                                                      return_)))
            h1 me1).
  eapply running_try_catch with (E1 := any_error); [exact Hme1 | |].
  2:{ intros e h' me' Hext' _ _. cbn [running]. split; [| split; [| discriminate]].
      - repeat split; try discriminate. intros _. now eexists.
      - now apply Hsigned. }
  apply running_await_bind.
  { cbn. exists w, h. now repeat split. }
  intros h2 me2 Hext2 Hme2.
  destruct (sendSignedTransaction L h1 raw) as [e | receipt] eqn:Hreceipt; [exact I |].
  apply (running_bind kept allowed (confirmed_result L (transactionHash receipt))); trivial.
  { apply running_waitForConfirmation; trivial; [intros; exact I | intros; exact I |].
    unfold RETRY_COUNT. lia. }
  intros r h3 me3 Hext3 Hme3 (rc & -> & hp & Hhp & Hrc & Hstatus).
  assert (H31 : extends h3 h1).
  { eapply extends_trans; [exact Hext3 |]. eapply extends_trans; [exact Hext2 |].
    apply extends_cons, extends_refl. }
  cbn [running]. split; [repeat split; try discriminate; trivial |]. split.
  - now apply Hsigned.
  - intros _. exists h, raw, h1, receipt, hp, rc. repeat split; trivial.
    + exact (extends_trans _ _ _ H31 Hext1).
    + exact (extends_trans _ _ _ Hext3 Hext2).
Qed.

End Returning.

End Tasks.

Lemma Forall2_map_l {X Y Z} (R : Y -> Z -> Prop) (f : X -> Y) xs zs :
  Forall2 R (map f xs) zs <-> Forall2 (fun x z => R (f x) z) xs zs.
Proof.
  split.
  - revert zs. induction xs as [| x xs IH]; intros zs H; inversion H; subst; constructor; auto.
  - induction 1; cbn [map]; constructor; auto.
Qed.

Lemma Forall2_map_both {X Y Z} (R : Y -> Z -> Prop) (f : X -> Y) (g : X -> Z) xs :
  (forall x, In x xs -> R (f x) (g x)) -> Forall2 R (map f xs) (map g xs).
Proof.
  induction xs as [| x xs IH]; intros H; cbn [map]; constructor.
  - apply H. now left.
  - apply IH. intros y Hy. apply H. now right.
Qed.

Lemma Forall2_impl {X Y} (R R' : X -> Y -> Prop) xs ys :
  (forall x y, R x y -> R' x y) -> Forall2 R xs ys -> Forall2 R' xs ys.
Proof. intros H. induction 1; constructor; auto. Qed.

Lemma lift_inr {A} (r : Error + A) s a s' : lift r s = (inr a, s') -> r = inr a /\ s' = s.
Proof. unfold lift. intros H. injection H as -> ->. now split. Qed.

Lemma try_catch_rethrow {A} (c : M A) s : try_catch c (fun e => throw e) s = c s.
Proof. unfold try_catch, throw. now destruct (c s) as [[e | a] s1]. Qed.

Section Batch.

Variable L : Ledger.
Variable cfg : Config.
Variable arrival : list Event -> nat -> nat.

(** The funding stage. *)
Lemma funding_stage gp fv ws s :
  let out := all_limited cfg arrival (map (Async.fundTask L cfg gp fv) ws) s in
  let main := mainWallet (this s) in
  ran (keeps_but_nonce main (batchSize (this s)) (wallets (this s)))
      (funding_step L main gp fv ws) s (snd out) /\
  exists fundResults,
    fst out = inr fundResults /\
    Forall2 (fun w o => funding_result L main gp fv w (history (snd out)) o) ws fundResults.
Proof.
  cbn zeta. unfold all_limited.
  set (main := mainWallet (this s)).
  set (kept := keeps_but_nonce main (batchSize (this s)) (wallets (this s))).
  set (allowed := funding_step L main gp fv ws).
  destruct (all_meets kept allowed no_error (CONCURRENT_TRANSACTIONS cfg) arrival
              (Async.lifetime * List.length (map (Async.fundTask L cfg gp fv) ws))
              (map (Async.fundTask L cfg gp fv) ws)
              (map (funding_result L main gp fv) ws) s) as [Hran Hout].
  - apply Forall_forall. intros Q HQ. apply in_map_iff in HQ as (w & <- & _).
    apply funding_result_stable.
  - now repeat split.
  - apply Forall2_map_both. intros w Hw h' me Hext Hme. now apply running_fundTask.
  - split; [exact Hran |].
    destruct (fst (Async.all _ _ _ _ s)) as [e | fundResults]; [contradiction |].
    exists fundResults. split; [reflexivity |]. now apply Forall2_map_l in Hout.
Qed.

(** The return stage. *)
Lemma return_stage_run main gp rv funded s :
  mainWallet (this s) = main ->
  let out := all_limited cfg arrival (map (Async.returnTask L cfg gp rv) funded) s in
  ran (keeps_but_nonce main (batchSize (this s)) (wallets (this s)))
      (return_step L main gp rv funded) s (snd out) /\
  exists returnResults,
    fst out = inr returnResults /\
    Forall2 (fun w o => return_result L main gp rv (history s) w (history (snd out)) o)
            funded returnResults.
Proof.
  intros Hmain. cbn zeta. unfold all_limited.
  set (kept := keeps_but_nonce main (batchSize (this s)) (wallets (this s))).
  set (allowed := return_step L main gp rv funded).
  destruct (all_meets kept allowed no_error (CONCURRENT_TRANSACTIONS cfg) arrival
              (Async.lifetime * List.length (map (Async.returnTask L cfg gp rv) funded))
              (map (Async.returnTask L cfg gp rv) funded)
              (map (return_result L main gp rv (history s)) funded) s) as [Hran Hout].
  - apply Forall_forall. intros Q HQ. apply in_map_iff in HQ as (w & <- & _).
    apply return_result_stable.
  - now repeat split.
  - apply Forall2_map_both. intros w Hw h' me Hext Hme. now apply running_returnTask.
  - split; [exact Hran |].
    destruct (fst (Async.all _ _ _ _ s)) as [e | returnResults]; [contradiction |].
    exists returnResults. split; [reflexivity |]. now apply Forall2_map_l in Hout.
Qed.

Lemma processBatch_trace ws fundAmount returnPercentage s fundResults returnResults s' :
  processBatch L cfg arrival ws fundAmount returnPercentage s
    = (inr (fundResults, returnResults), s') ->
  exists gp fv rv h1,
    batch_trace L ws fundAmount returnPercentage s s' fundResults returnResults gp fv rv h1.
Proof.
  unfold processBatch. rewrite try_catch_rethrow. intros H.
  apply bind_inr in H as (gp & s1 & Hgp & H).
  unfold call in Hgp. injection Hgp as Hgp <-.
  apply bind_inr in H as (fv & s1' & Hfv & H).
  apply lift_inr in Hfv as (Hfv & ->).
  apply bind_inr in H as (rv & s1' & Hrv & H).
  apply lift_inr in Hrv as (Hrv & ->).
  apply bind_inr in H as ([] & s1' & Hlim & H).
  assert (s1' = mkState (this s) (EvGetGasPrice :: history s) (returned s)) as ->.
  { unfold pLimit in Hlim. destruct (CONCURRENT_TRANSACTIONS cfg <? 1);
      [discriminate | now injection Hlim as <-]. }
  set (s1 := mkState (this s) (EvGetGasPrice :: history s) (returned s)) in *.
  apply bind_inr in H as (fs & s2 & Hfund & H).
  apply bind_inr in H as (rs & s3 & Hret & H).
  apply bind_inr in H as ([] & s4 & Hrec & H).
  injection H as <- <- <-.
  unfold record_return in Hrec. injection Hrec as <-.
  destruct (funding_stage gp fv ws s1) as [(Hk1 & Hr1 & Hg1) (fs' & Hfs & Hfunded)].
  rewrite Hfund in *. cbn [fst snd] in *. injection Hfs as <-.
  cbn [this history returned s1] in *.
  destruct (return_stage_run (mainWallet (this s)) gp rv (map wallet (filter success fs)) s2)
    as [(Hk2 & Hr2 & Hg2) (rs' & Hrs & Hreturned)]; [apply Hk1 |].
  rewrite Hret in *. cbn [fst snd] in *. injection Hrs as <-.
  exists gp, fv, rv, (history s2).
  destruct Hk1 as (Hm1 & Hb1 & Hw1). destruct Hk2 as (Hm2 & Hb2 & Hw2).
  constructor; cbn [this history returned]; trivial.
  - repeat split; congruence.
  - congruence.
  - revert Hfunded. apply Forall2_impl. intros w o. apply funding_result_stable.
    eapply grown_extends; eauto.
Qed.

End Batch.

Lemma within_mono {A} (c : Async.Task A) : forall n m, (n <= m)%nat -> within n c -> within m c.
Proof.
  induction c as [a | e | k IH | f c IH | B ev answer k IH]; cbn [within]; intros n m Hle H; auto.
  - intros me. eapply IH; eauto.
  - eapply IH; eauto.
  - destruct n as [| n]; [contradiction |]. destruct m as [| m]; [lia |].
    intros r. apply (IH r n m); [lia | apply H].
Qed.

Lemma within_bind {A B} (c : Async.Task A) (k : A -> Async.Task B) m :
  (forall a, within m (k a)) ->
  forall n, within n c -> within (n + m) (Async.bind c k).
Proof.
  intros Hk.
  induction c as [a | e | k' IH | f c IH | B' ev answer k' IH];
    cbn [within Async.bind]; intros n H; auto.
  - apply (within_mono _ m); [lia | apply Hk].
  - destruct n as [| n]; [contradiction |]. cbn [Nat.add]. intros r. apply IH, H.
Qed.

Lemma within_try_catch {A} (c : Async.Task A) (h : Error -> Async.Task A) m :
  (forall e, within m (h e)) ->
  forall n, within n c -> within (n + m) (Async.try_catch c h).
Proof.
  intros Hh.
  induction c as [a | e | k' IH | f c IH | B' ev answer k' IH];
    cbn [within Async.try_catch]; intros n H; auto.
  - apply (within_mono _ m); [lia | apply Hh].
  - destruct n as [| n]; [contradiction |]. cbn [Nat.add]. intros r. apply IH, H.
Qed.

Lemma within_await_bind {A B} ev (answer : list Event -> Error + B) (k : B -> Async.Task A) n :
  (forall b, within n (k b)) ->
  within (S n) (Async.bind (Async.await ev answer) k).
Proof.
  intros Hk. cbn. intros [e | b]; cbn; [trivial | apply Hk].
Qed.

Section Lifetimes.

Variable L : Ledger.
Variable cfg : Config.

Lemma within_pollOnce txHash : within 1 (Async.pollOnce L txHash).
Proof.
  unfold Async.pollOnce. apply within_await_bind.
  intros [r |]; [destruct (status r) |]; exact I.
Qed.

Lemma within_pollLoop txHash remaining :
  within (2 * remaining) (Async.pollLoop L cfg txHash remaining).
Proof.
  induction remaining as [| n IH]; [exact I |].
  cbn [Async.pollLoop].
  replace (2 * S n)%nat with ((1 + 0) + (1 + 2 * n))%nat by lia.
  apply within_bind.
  - intros [r |]; [exact I |].
    apply (within_await_bind (EvSleep _) _ (fun _ => Async.pollLoop L cfg txHash n)).
    intros _. exact IH.
  - apply within_try_catch; [intros e; exact I | apply within_pollOnce].
Qed.

Lemma within_pollRound txHash maxAttempts :
  within (2 * maxAttempts) (Async.pollRound L cfg txHash maxAttempts).
Proof.
  unfold Async.pollRound.
  replace (2 * maxAttempts)%nat with (2 * maxAttempts + 0)%nat by lia.
  apply within_bind; [intros [r |]; exact I | apply within_pollLoop].
Qed.

Lemma within_retryLoop txHash maxAttempts retryCount remaining : forall retry,
  within (remaining * (2 * maxAttempts + 1))
         (Async.retryLoop L cfg txHash maxAttempts retryCount retry remaining).
Proof.
  induction remaining as [| n IH]; intros retry; [exact I |].
  cbn [Async.retryLoop].
  replace (S n * (2 * maxAttempts + 1))%nat
    with ((2 * maxAttempts + 1) + n * (2 * maxAttempts + 1))%nat by lia.
  apply within_bind.
  - intros [r |]; [exact I | apply IH].
  - apply within_try_catch; [| apply within_pollRound].
    intros e. destruct (retry =? retryCount - 1)%nat; [exact I |].
    apply (within_await_bind (EvSleep _) _ (fun _ => Async.Resolve None)).
    intros _. exact I.
Qed.

Lemma within_waitForConfirmation txHash maxAttempts retryCount :
  within (retryCount * (2 * maxAttempts + 1))
         (Async.waitForConfirmation L cfg txHash maxAttempts retryCount).
Proof. apply within_retryLoop. Qed.

Lemma within_getNextNonce : within 1 (Async.getNextNonce L).
Proof.
  unfold Async.getNextNonce.
  change 1%nat with (1 + 0)%nat.
  apply within_try_catch; [intros e; exact I |].
  cbn. intros me [e | count]; cbn; trivial.
Qed.

Lemma within_fundTask gp fv w : within Async.lifetime (Async.fundTask L cfg gp fv w).
Proof.
  unfold Async.fundTask, Async.lifetime.
  replace (3 + RETRY_COUNT * (2 * CONFIRMATION_ATTEMPTS + 1))%nat
    with ((3 + RETRY_COUNT * (2 * CONFIRMATION_ATTEMPTS + 1)) + 0)%nat by lia.
  apply within_try_catch; [intros e; exact I |].
  cbn [Async.bind Async.get_this within]. intros me.
  change (3 + RETRY_COUNT * (2 * CONFIRMATION_ATTEMPTS + 1))%nat
    with (1 + (2 + RETRY_COUNT * (2 * CONFIRMATION_ATTEMPTS + 1)))%nat.
  apply within_bind; [| apply within_getNextNonce].
  intros nonce.
  apply within_await_bind. intros signed.
  apply within_await_bind. intros receipt.
  replace (RETRY_COUNT * (2 * CONFIRMATION_ATTEMPTS + 1))%nat
    with (RETRY_COUNT * (2 * CONFIRMATION_ATTEMPTS + 1) + 0)%nat by lia.
  apply within_bind; [intros r; exact I | apply within_waitForConfirmation].
Qed.

Lemma within_returnTask gp rv w : within Async.lifetime (Async.returnTask L cfg gp rv w).
Proof.
  unfold Async.returnTask, Async.lifetime.
  replace (3 + RETRY_COUNT * (2 * CONFIRMATION_ATTEMPTS + 1))%nat
    with ((3 + RETRY_COUNT * (2 * CONFIRMATION_ATTEMPTS + 1)) + 0)%nat by lia.
  apply within_try_catch; [intros e; exact I |].
  cbn [Async.bind Async.get_this within]. intros me.
  apply (within_mono _ (2 + RETRY_COUNT * (2 * CONFIRMATION_ATTEMPTS + 1))); [lia |].
  apply within_await_bind. intros signed.
  apply within_await_bind. intros receipt.
  replace (RETRY_COUNT * (2 * CONFIRMATION_ATTEMPTS + 1))%nat
    with (RETRY_COUNT * (2 * CONFIRMATION_ATTEMPTS + 1) + 0)%nat by lia.
  apply within_bind; [intros r; exact I | apply within_waitForConfirmation].
Qed.

End Lifetimes.

(** ** The loop settles every task *)

Section Settling.

Context {A : Type}.

Lemma proceed_within (c : Async.Task A) : forall n s slot s',
  within n c -> Async.proceed c s = (inr slot, s') ->
  match slot with
  | Async.Settled _ => True
  | Async.Pending c' => exists n', n = S n' /\ within n' c'
  | Async.Queued _ => False
  end.
Proof.
  induction c as [a | e | k IH | f c IH | B ev answer k IH];
    cbn [within Async.proceed]; intros n s slot s' Hn H.
  - injection H as <- <-. exact I.
  - discriminate.
  - eapply IH; eauto.
  - eapply IH; eauto.
  - injection H as <- <-. destruct n as [| n]; [contradiction |]. now exists n.
Qed.

Lemma proceed_slot_within (c : Async.Task A) n s slot s' :
  within n c -> Async.proceed c s = (inr slot, s') ->
  slot_within n slot /\ (Async.is_pending slot = false -> settled slot).
Proof.
  intros Hn H. pose proof (proceed_within c n s slot s' Hn H) as Hs.
  destruct slot as [c' | c' | a]; [contradiction | |]; cbn [slot_within Async.is_pending].
  - split; [exact Hs | discriminate].
  - split; [exact I | reflexivity].
Qed.

Lemma start_within (slots : list (Async.Slot A)) : forall free ns s slots' s',
  Forall2 slot_within ns slots ->
  Async.start free slots s = (inr slots', s') ->
  Forall2 slot_within ns slots' /\
  (filter Async.is_pending slots' = [] ->
   filter Async.is_pending slots = [] /\ ((0 < free)%nat -> Forall settled slots')).
Proof.
  induction slots as [| slot rest IH]; intros free ns s slots' s' Hns H.
  - cbn in H. injection H as <- <-. split; [exact Hns |]. intros _. split; [reflexivity | constructor].
  - inversion Hns as [| n slot0 ns' rest0 Hn Hrest]; subst.
    destruct slot as [c | c | a].
    + destruct free as [| free'].
      * cbn in H. injection H as <- <-. split; [exact Hns |].
        intros Hp. cbn in Hp. split; [exact Hp | lia].
      * cbn [Async.start] in H. unfold bind in H.
        destruct (Async.proceed c s) as [[e | slot1] s1] eqn:Hc; [discriminate |].
        destruct (Async.start _ rest s1) as [[e | rest'] s2] eqn:Hr; [discriminate |].
        cbn in H. injection H as <- <-.
        destruct (proceed_slot_within c n s slot1 s1 Hn Hc) as [Hw Hset].
        destruct (IH _ ns' s1 rest' s2 Hrest Hr) as [Hrest' Hnone].
        split; [now constructor |].
        cbn [filter]. destruct (Async.is_pending slot1) eqn:Hp1; [discriminate |].
        intros Hp. destruct (Hnone Hp) as [Hp0 Hall]. cbn [filter Async.is_pending].
        split; [exact Hp0 |]. intros _. constructor; [now apply Hset | apply Hall; lia].
    + cbn [Async.start] in H. unfold bind in H.
      destruct (Async.start free rest s) as [[e | rest'] s2] eqn:Hr; [discriminate |].
      cbn in H. injection H as <- <-.
      destruct (IH _ ns' s rest' s2 Hrest Hr) as [Hrest' Hnone].
      split; [now constructor |]. cbn [filter Async.is_pending]. discriminate.
    + cbn [Async.start] in H. unfold bind in H.
      destruct (Async.start free rest s) as [[e | rest'] s2] eqn:Hr; [discriminate |].
      cbn in H. injection H as <- <-.
      destruct (IH _ ns' s rest' s2 Hrest Hr) as [Hrest' Hnone].
      split; [now constructor |]. cbn [filter Async.is_pending].
      intros Hp. destruct (Hnone Hp) as [Hp0 Hall]. split; [exact Hp0 |].
      intros Hfree. constructor; [reflexivity | now apply Hall].
Qed.

Lemma resume_within (slots : list (Async.Slot A)) : forall k ns s slots' s',
  Forall2 slot_within ns slots ->
  (k < List.length (filter Async.is_pending slots))%nat ->
  Async.resume k slots s = (inr slots', s') ->
  exists ns', Forall2 slot_within ns' slots' /\ (S (list_sum ns') <= list_sum ns)%nat.
Proof.
  induction slots as [| slot rest IH]; intros k ns s slots' s' Hns Hk H.
  - cbn in Hk. lia.
  - inversion Hns as [| n slot0 ns' rest0 Hn Hrest]; subst.
    destruct slot as [c | c | a].
    + cbn [Async.resume] in H. unfold bind in H. cbn [filter Async.is_pending] in Hk.
      destruct (Async.resume k rest s) as [[e | rest'] s2] eqn:Hr; [discriminate |].
      cbn in H. injection H as <- <-.
      destruct (IH k ns' s rest' s2 Hrest Hk Hr) as (ns2 & H2 & Hsum).
      exists (n :: ns2). split; [now constructor | unfold list_sum in *; cbn [fold_right] in *; lia].
    + destruct Hn as (n' & -> & Hn'). cbn [filter Async.is_pending List.length] in Hk.
      destruct k as [| k'].
      * cbn [Async.resume] in H. unfold bind in H.
        destruct (Async.proceed c s) as [[e | slot1] s1] eqn:Hc; [discriminate |].
        cbn in H. injection H as <- <-.
        destruct (proceed_slot_within c n' s slot1 s1 Hn' Hc) as [Hw _].
        exists (n' :: ns'). split; [now constructor | unfold list_sum in *; cbn [fold_right] in *; lia].
      * cbn [Async.resume] in H. unfold bind in H.
        destruct (Async.resume k' rest s) as [[e | rest'] s2] eqn:Hr; [discriminate |].
        cbn in H. injection H as <- <-.
        destruct (IH k' ns' s rest' s2 Hrest ltac:(lia) Hr) as (ns2 & H2 & Hsum).
        exists (S n' :: ns2). split; [constructor; [now exists n' | exact H2] |].
        unfold list_sum in *; cbn [fold_right] in *; lia.
    + cbn [Async.resume] in H. unfold bind in H. cbn [filter Async.is_pending] in Hk.
      destruct (Async.resume k rest s) as [[e | rest'] s2] eqn:Hr; [discriminate |].
      cbn in H. injection H as <- <-.
      destruct (IH k ns' s rest' s2 Hrest Hk Hr) as (ns2 & H2 & Hsum).
      exists (n :: ns2). split; [now constructor | unfold list_sum in *; cbn [fold_right] in *; lia].
Qed.

Lemma nothing_due_nothing_pending ns (slots : list (Async.Slot A)) :
  Forall2 slot_within ns slots -> list_sum ns = 0%nat ->
  filter Async.is_pending slots = [].
Proof.
  induction 1 as [| n slot ns rest Hn Hrest IH]; [reflexivity |].
  unfold list_sum in *. cbn [fold_right]. intros Hsum. destruct slot as [c | c | a]; cbn [filter Async.is_pending].
  - apply IH. lia.
  - destruct Hn as (n' & -> & _). lia.
  - apply IH. lia.
Qed.

Variable concurrency : Z.
Variable arrival : list Event -> nat -> nat.
Hypothesis some_place : 1 <= concurrency.

Lemma turns_settle : forall fuel ns (slots : list (Async.Slot A)) s slots' s',
  Forall2 slot_within ns slots -> (list_sum ns <= fuel)%nat ->
  Async.turns concurrency arrival fuel slots s = (inr slots', s') ->
  Forall settled slots'.
Proof.
  assert (Hfree : forall (slots1 slots : list (Async.Slot A)) ns s s1,
    Forall2 slot_within ns slots ->
    Async.start (Z.to_nat (concurrency - Async.activeCount slots)) slots s = (inr slots1, s1) ->
    filter Async.is_pending slots1 = [] -> Forall settled slots1).
  { intros slots1 slots ns s s1 Hns Hst Hp.
    destruct (start_within slots _ ns s slots1 s1 Hns Hst) as [_ Hnone].
    destruct (Hnone Hp) as [Hp0 Hall]. apply Hall.
    unfold Async.activeCount. rewrite Hp0. cbn. lia. }
  induction fuel as [| fuel IH]; intros ns slots s slots' s' Hns Hsum H.
  - cbn [Async.turns] in H. unfold bind in H.
    destruct (Async.start _ slots s) as [[e | slots1] s1] eqn:Hst; [discriminate |].
    destruct (start_within slots _ ns s slots1 s1 Hns Hst) as [Hns1 _].
    assert (Hp : filter Async.is_pending slots1 = [])
      by (apply (nothing_due_nothing_pending ns); [exact Hns1 | lia]).
    assert (slots' = slots1) as ->.
    { destruct (filter Async.is_pending slots1); cbn in H; now injection H as <- <-. }
    exact (Hfree slots1 slots ns s s1 Hns Hst Hp).
  - cbn [Async.turns] in H. unfold bind at 1 in H.
    destruct (Async.start _ slots s) as [[e | slots1] s1] eqn:Hst; [discriminate |].
    destruct (start_within slots _ ns s slots1 s1 Hns Hst) as [Hns1 _].
    destruct (filter Async.is_pending slots1) as [| p awaited] eqn:Hp.
    + cbn in H. injection H as <- <-. exact (Hfree slots1 slots ns s s1 Hns Hst Hp).
    + unfold bind, get_history in H. cbn [fst snd] in H.
      set (k := (arrival (history s1) (List.length (filter Async.is_settled slots1))
                 mod List.length (p :: awaited))%nat) in H.
      destruct (Async.resume k slots1 s1) as [[e | slots2] s2] eqn:Hres; [discriminate |].
      destruct (resume_within slots1 k ns s1 slots2 s2 Hns1) as (ns2 & Hns2 & Hsum2); trivial.
      { rewrite Hp. apply Nat.mod_upper_bound. discriminate. }
      apply (IH ns2 slots2 s2 slots' s' Hns2); [lia | exact H].
Qed.

(** With a place in the limiter and fuel for the awaits of every task,
    the loop ends with every task settled. *)
Lemma tasks_settle n fuel (tasks : list (Async.Task A)) s slots s' :
  Forall (within n) tasks -> (n * List.length tasks <= fuel)%nat ->
  Async.turns concurrency arrival fuel (map Async.Queued tasks) s = (inr slots, s') ->
  Forall settled slots.
Proof.
  intros Hn Hfuel H.
  apply (turns_settle fuel (map (fun _ => n) tasks) (map Async.Queued tasks) s slots s');
    trivial.
  - clear - Hn. induction Hn; cbn [map]; constructor; trivial.
  - revert Hfuel. generalize fuel. clear.
    induction tasks as [| c rest IH]; unfold list_sum in *; cbn [map fold_right List.length]; intros fuel H; [lia |].
    specialize (IH (fuel - n)%nat). lia.
Qed.

End Settling.

Section BatchSettles.

Variable L : Ledger.
Variable cfg : Config.
Variable arrival : list Event -> nat -> nat.
Hypothesis some_place : 1 <= CONCURRENT_TRANSACTIONS cfg.

(** Every funding task of a batch has settled when the loop of its stage
    ends. *)
Lemma funding_settles gp fv ws s slots s' :
  Async.turns (CONCURRENT_TRANSACTIONS cfg) arrival
              (Async.lifetime * List.length (map (Async.fundTask L cfg gp fv) ws))
              (map Async.Queued (map (Async.fundTask L cfg gp fv) ws)) s = (inr slots, s') ->
  Forall settled slots.
Proof.
  apply (tasks_settle _ _ some_place Async.lifetime); [| lia].
  apply Forall_forall. intros c Hc. apply in_map_iff in Hc as (w & <- & _).
  apply within_fundTask.
Qed.

(** And so has every return task. *)
Lemma returning_settles gp rv funded s slots s' :
  Async.turns (CONCURRENT_TRANSACTIONS cfg) arrival
              (Async.lifetime * List.length (map (Async.returnTask L cfg gp rv) funded))
              (map Async.Queued (map (Async.returnTask L cfg gp rv) funded)) s = (inr slots, s') ->
  Forall settled slots.
Proof.
  apply (tasks_settle _ _ some_place Async.lifetime); [| lia].
  apply Forall_forall. intros c Hc. apply in_map_iff in Hc as (w & <- & _).
  apply within_returnTask.
Qed.

End BatchSettles.

(* ================================================================== *)
(** * The tasks on their own *)

Lemma bind_ext {A B} (c1 c2 : M A) (k1 k2 : A -> M B) s :
  c1 s = c2 s -> (forall a s', k1 a s' = k2 a s') -> bind c1 k1 s = bind c2 k2 s.
Proof.
  intros Hc Hk. unfold bind. rewrite Hc. destruct (c2 s) as [[e | a] s']; [reflexivity |].
  apply Hk.
Qed.

Lemma try_catch_ext {A} (c1 c2 : M A) (h1 h2 : Error -> M A) s :
  c1 s = c2 s -> (forall e s', h1 e s' = h2 e s') ->
  try_catch c1 h1 s = try_catch c2 h2 s.
Proof.
  intros Hc Hh. unfold try_catch. rewrite Hc. destruct (c2 s) as [[e | a] s']; [| reflexivity].
  apply Hh.
Qed.

Lemma alone_bind {A B} (c : Async.Task A) (k : A -> Async.Task B) : forall s,
  Async.alone (Async.bind c k) s = bind (Async.alone c) (fun a => Async.alone (k a)) s.
Proof.
  induction c as [a | e | k' IH | f c IH | X ev answer k' IH]; intros s;
    cbn [Async.bind Async.alone]; try reflexivity.
  - apply IH.
  - apply IH.
  - apply IH.
Qed.

Lemma alone_try_catch {A} (c : Async.Task A) (h : Error -> Async.Task A) : forall s,
  Async.alone (Async.try_catch c h) s
  = try_catch (Async.alone c) (fun e => Async.alone (h e)) s.
Proof.
  induction c as [a | e | k' IH | f c IH | X ev answer k' IH]; intros s;
    cbn [Async.try_catch Async.alone]; try reflexivity.
  - apply IH.
  - apply IH.
  - apply IH.
Qed.

Lemma alone_await {B} ev (answer : list Event -> Error + B) s :
  Async.alone (Async.await ev answer) s = call ev answer s.
Proof.
  unfold Async.await, call. cbn [Async.alone]. now destruct (answer (history s)).
Qed.

Lemma bind_get_this {B} (k : Manager -> M B) s : bind get_this k s = k (this s) s.
Proof. reflexivity. Qed.

Section Alone.

Variable L : Ledger.
Variable cfg : Config.

Lemma alone_pollOnce txHash s :
  Async.alone (Async.pollOnce L txHash) s = pollOnce L txHash s.
Proof.
  unfold Async.pollOnce, pollOnce. rewrite alone_bind.
  apply bind_ext; [apply alone_await |].
  intros [r |] s'; [destruct (status r) |]; reflexivity.
Qed.

Lemma alone_pollLoop txHash remaining : forall s,
  Async.alone (Async.pollLoop L cfg txHash remaining) s = pollLoop L cfg txHash remaining s.
Proof.
  induction remaining as [| n IH]; intros s; [reflexivity |].
  cbn [Async.pollLoop pollLoop]. rewrite alone_bind. apply bind_ext.
  - rewrite alone_try_catch. apply try_catch_ext; [apply alone_pollOnce | reflexivity].
  - intros [r |] s'; [reflexivity |]. rewrite alone_bind.
    apply bind_ext; [apply alone_await |]. intros _ s''. apply IH.
Qed.

Lemma alone_pollRound txHash maxAttempts s :
  Async.alone (Async.pollRound L cfg txHash maxAttempts) s
  = pollRound L cfg txHash maxAttempts s.
Proof.
  unfold Async.pollRound, pollRound. rewrite alone_bind.
  apply bind_ext; [apply alone_pollLoop |]. intros [r |] s'; reflexivity.
Qed.

Lemma alone_retryLoop txHash maxAttempts retryCount remaining : forall retry s,
  Async.alone (Async.retryLoop L cfg txHash maxAttempts retryCount retry remaining) s
  = retryLoop L cfg txHash maxAttempts retryCount retry remaining s.
Proof.
  induction remaining as [| n IH]; intros retry s; [reflexivity |].
  cbn [Async.retryLoop retryLoop]. rewrite alone_bind. apply bind_ext.
  - rewrite alone_try_catch. apply try_catch_ext; [apply alone_pollRound |].
    intros e s'. destruct (retry =? retryCount - 1)%nat; [reflexivity |].
    rewrite alone_bind. apply bind_ext; [apply alone_await | reflexivity].
  - intros [r |] s'; [reflexivity | apply IH].
Qed.

(** [waitForConfirmation] as a task, every await answered at once, is
    [waitForConfirmation]. *)
Lemma alone_waitForConfirmation txHash maxAttempts retryCount s :
  Async.alone (Async.waitForConfirmation L cfg txHash maxAttempts retryCount) s
  = waitForConfirmation L cfg txHash maxAttempts retryCount s.
Proof. apply alone_retryLoop. Qed.

(** And so for [getNextNonce] and for the two tasks of a batch. *)
Lemma alone_getNextNonce s : Async.alone (Async.getNextNonce L) s = getNextNonce L s.
Proof.
  unfold Async.getNextNonce, getNextNonce. rewrite alone_try_catch.
  apply try_catch_ext; [| reflexivity].
  cbn [Async.bind Async.get_this Async.alone].
  rewrite bind_get_this, alone_bind.
  apply bind_ext; [apply alone_await |]. intros count s'. reflexivity.
Qed.

Lemma alone_fundTask gp fv w s :
  Async.alone (Async.fundTask L cfg gp fv w) s = fundTask L cfg gp fv w s.
Proof.
  unfold Async.fundTask, fundTask. rewrite alone_try_catch.
  apply try_catch_ext; [| reflexivity].
  cbn [Async.bind Async.get_this Async.alone].
  rewrite bind_get_this, alone_bind.
  apply bind_ext; [apply alone_getNextNonce |]. intros nonce s'.
  unfold fundTask_submit. rewrite alone_bind.
  apply bind_ext; [apply alone_await |]. intros signed s2. rewrite alone_bind.
  apply bind_ext; [apply alone_await |]. intros receipt s3. rewrite alone_bind.
  apply bind_ext; [apply alone_waitForConfirmation | reflexivity].
Qed.

Lemma alone_returnTask gp rv w s :
  Async.alone (Async.returnTask L cfg gp rv w) s = returnTask L cfg gp rv w s.
Proof.
  unfold Async.returnTask, returnTask. rewrite alone_try_catch.
  apply try_catch_ext; [| reflexivity].
  cbn [Async.bind Async.get_this Async.alone].
  rewrite bind_get_this, alone_bind.
  apply bind_ext; [apply alone_await |]. intros signed s2. rewrite alone_bind.
  apply bind_ext; [apply alone_await |]. intros receipt s3. rewrite alone_bind.
  apply bind_ext; [apply alone_waitForConfirmation | reflexivity].
Qed.

End Alone.

(* ================================================================== *)
(** * The funding tasks under a schedule *)

Section InterleavingFacts.

Variable L : Ledger.
Variable cfg : Config.

(** The nonce handed out is the node's answer; the counter kept in
    [this.currentNonce] is overwritten before it is read. *)
Lemma getNextNonce_resume_returns_answer count s :
  fst (getNextNonce_resume count s) = inr count.
Proof. reflexivity. Qed.

(** Run without interruption, request and resumption make up [fundTask]. *)
Lemma fundTask_request_then_resume gp fv w s :
  fundTask L cfg gp fv w s =
  match Interleaving.fundTask_request L s with
  | (inr answer, s1) => Interleaving.fundTask_resume L cfg gp fv w answer s1
  | (inl e, s1) => fund_failure w e s1
  end.
Proof.
  unfold fundTask, Interleaving.fundTask_request, Interleaving.fundTask_resume,
    getNextNonce, try_catch, bind, get_this, call, lift. simpl.
  destruct (getTransactionCount L (history s) (address (mainWallet (this s))) "pending");
    reflexivity.
Qed.

(** *** The shape of [fundResults] does not depend on the schedule *)

Lemma fundTask_resume_total gp fv w answer s :
  exists o, fst (Interleaving.fundTask_resume L cfg gp fv w answer s) = inr o /\
            outcome_of w fund o.
Proof.
  unfold Interleaving.fundTask_resume, fund_failure. apply guarded_task.
  - intros a s1 H.
    apply bind_inr in H as (me & s2 & _ & H).
    apply bind_inr in H as (nonce & s3 & _ & H).
    unfold fundTask_submit in H.
    apply bind_inr in H as (signed & s4 & _ & H).
    apply bind_inr in H as (receipt & s5 & _ & H).
    apply bind_inr in H as (r & s6 & _ & H).
    injection H as <- _. repeat split; trivial; discriminate.
  - intros e. repeat split; trivial; try discriminate. intros _. now eexists.
Qed.

Lemma start_first_tasks gp fv : forall ws ts s ts' s',
  Forall2 (task_of gp fv) ws ts ->
  Interleaving.start_first L ts s = Some (ts', s') ->
  Forall2 (task_of gp fv) ws ts'.
Proof.
  induction ws as [| w ws IH]; intros ts s ts' s' Hts H;
    inversion Hts as [| ? t ? ts0 Ht Hts0]; subst;
    cbn [Interleaving.start_first] in H; [discriminate |].
  destruct t as [w' | w' a | o].
  - destruct (Interleaving.fundTask_request L s) as [[e | answer] s1]; [discriminate |].
    injection H as <- <-. constructor; trivial.
  - destruct (Interleaving.start_first L ts0 s) as [[ts1 s1] |] eqn:Hrec; [| discriminate].
    injection H as <- <-. constructor; trivial. eapply IH; eauto.
  - destruct (Interleaving.start_first L ts0 s) as [[ts1 s1] |] eqn:Hrec; [| discriminate].
    injection H as <- <-. constructor; trivial. eapply IH; eauto.
Qed.

Lemma resume_at_tasks gp fv : forall ws i ts s ts' s',
  Forall2 (task_of gp fv) ws ts ->
  Interleaving.resume_at L cfg gp fv i ts s = Some (ts', s') ->
  Forall2 (task_of gp fv) ws ts'.
Proof.
  induction ws as [| w ws IH]; intros i ts s ts' s' Hts H;
    inversion Hts as [| ? t ? ts0 Ht Hts0]; subst.
  - destruct i; discriminate H.
  - destruct i as [| i]; cbn [Interleaving.resume_at] in H.
    + destruct t as [w' | w' a | o]; try discriminate.
      destruct (fundTask_resume_total gp fv w' a s) as (o & Ho & Hshape).
      destruct (Interleaving.fundTask_resume L cfg gp fv w' a s) as [[e | o'] s1];
        simpl in Ho; [discriminate |].
      injection Ho as ->. injection H as <- <-. simpl in Ht. subst w'.
      constructor; trivial.
    + destruct (Interleaving.resume_at L cfg gp fv i ts0 s) as [[ts1 s1] |] eqn:Hrec.
      * destruct t; injection H as <- <-; constructor; trivial; eapply IH; eauto.
      * destruct t; discriminate.
Qed.

Lemma run_tasks gp fv ws : forall schedule p p',
  Forall2 (task_of gp fv) ws (Interleaving.tasks p) ->
  Interleaving.run L cfg gp fv schedule p = Some p' ->
  Forall2 (task_of gp fv) ws (Interleaving.tasks p').
Proof.
  induction schedule as [| a schedule IH]; intros p p' Hp H; simpl in H.
  - now injection H as <-.
  - destruct (Interleaving.step L cfg gp fv a p) as [p1 |] eqn:Hstep; [| discriminate].
    apply (IH p1 p'); trivial.
    destruct a as [| i]; simpl in Hstep.
    + destruct (_ <? _); [| discriminate].
      destruct (Interleaving.start_first L (Interleaving.tasks p) (Interleaving.state p))
        as [[ts s] |] eqn:Hs; [| discriminate].
      injection Hstep as <-. simpl. eapply start_first_tasks; eauto.
    + destruct (Interleaving.resume_at L cfg gp fv i (Interleaving.tasks p)
                  (Interleaving.state p)) as [[ts s] |] eqn:Hr; [| discriminate].
      injection Hstep as <-. simpl. eapply resume_at_tasks; eauto.
Qed.

Lemma outcomes_of_tasks gp fv : forall ws ts os,
  Forall2 (task_of gp fv) ws ts ->
  Interleaving.outcomes ts = Some os ->
  Forall2 (fun w o => outcome_of w fund o) ws os.
Proof.
  induction ws as [| w ws IH]; intros ts os Hts H;
    inversion Hts as [| ? t ? ts0 Ht Hts0]; subst; simpl in H.
  - injection H as <-. constructor.
  - destruct t as [w' | w' a | o]; try discriminate.
    destruct (Interleaving.outcomes ts0) as [os0 |] eqn:Hos; [| discriminate].
    injection H as <-. constructor; trivial. eapply IH; eauto.
Qed.

(** X22.  Under every schedule that settles all the funding tasks of a
    batch, [fundResults] holds one outcome per wallet, in the order of the
    wallets, each of type 'fund' and, when it is a failure, with the
    message of what its task caught. *)
Lemma interleaved_fundResults gp fv ws s schedule p os :
  Interleaving.run L cfg gp fv schedule (Interleaving.queue ws s) = Some p ->
  Interleaving.outcomes (Interleaving.tasks p) = Some os ->
  Forall2 (fun w o => outcome_of w fund o) ws os.
Proof.
  intros Hrun Hos. eapply outcomes_of_tasks; [| exact Hos].
  eapply run_tasks; [| exact Hrun].
  unfold Interleaving.queue. simpl. clear.
  induction ws as [| w ws IH]; simpl; constructor; trivial. reflexivity.
Qed.

(** *** Two tasks started before either is resumed *)

Lemma issued_nonces_later later tx h :
  Forall not_a_funding_signature later ->
  Interleaving.issued_nonces (later ++ EvSignMain tx :: h)%list
  = (Interleaving.issued_nonces h ++ [tx_nonce tx])%list.
Proof.
  unfold Interleaving.issued_nonces. intros Hlater.
  rewrite flat_map_app. simpl.
  assert (Hnil : flat_map (fun ev => match ev with
                                     | EvSignMain tx0 => [tx_nonce tx0]
                                     | _ => []
                                     end) later = []).
  { induction Hlater as [| ev evs Hev _ IH]; simpl; trivial.
    destruct ev; simpl in *; trivial; contradiction. }
  rewrite Hnil. reflexivity.
Qed.

Lemma issued_nonces_fetch addr block h :
  Interleaving.issued_nonces (EvGetTransactionCount addr block :: h)
  = Interleaving.issued_nonces h.
Proof. reflexivity. Qed.

Lemma resume_nonce c s :
  try_catch (count <- lift (inr c) ;; getNextNonce_resume count)
            (fun error => throw error) s
  = (inr c,
     mkState (mkManager (mainWallet (this s)) (batchSize (this s)) (wallets (this s))
                        (Some (c + 1)))
             (history s) (returned s)).
Proof. reflexivity. Qed.

(** A task resumed with the count [c] puts its funding transaction up for
    signature with nonce [c], whatever [this.currentNonce] holds by then,
    and no other funding transaction after it. *)
Lemma fundTask_resume_signs gp fv w c s :
  exists o s' later,
    Interleaving.fundTask_resume L cfg gp fv w (inr c) s = (inr o, s') /\
    mainWallet (this s') = mainWallet (this s) /\
    history s' =
      (later ++ EvSignMain (fundTx (mainWallet (this s)) gp fv c w) :: history s)%list /\
    Forall not_a_funding_signature later.
Proof.
  destruct (fundTask_resume_total gp fv w (inr c) s) as (o & Ho & _).
  assert (Hadv : advance fund_event s
                   (snd (Interleaving.fundTask_resume L cfg gp fv w (inr c) s))).
  { apply (emits_try_catch (mainWallet (this s)) fund_event); trivial.
    - apply emits_with_this. intros me _.
      apply emits_bind.
      + apply emits_try_catch; [| intros; apply emits_throw].
        apply emits_bind; [apply emits_lift |]. intros count.
        unfold getNextNonce_resume.
        apply emits_bind; [apply emits_set_currentNonce |]. intros _.
        apply emits_with_this. intros me' _.
        apply emits_bind; [apply emits_increment_currentNonce | intros; apply emits_ret].
      + intros nonce. unfold fundTask_submit.
        apply emits_bind; [now apply emits_call |]. intros signed.
        apply emits_bind; [now apply emits_call |]. intros receipt.
        apply emits_bind; [| intros; apply emits_ret].
        eapply emits_weaken; [apply poll_is_fund_event | apply emits_waitForConfirmation].
    - intros e. apply emits_ret. }
  destruct Hadv as (Hm & _).
  assert (Hsign : exists later,
             history (snd (Interleaving.fundTask_resume L cfg gp fv w (inr c) s)) =
             (later ++ EvSignMain (fundTx (mainWallet (this s)) gp fv c w)
                :: history s)%list /\
             Forall not_a_funding_signature later).
  { unfold Interleaving.fundTask_resume, fund_failure.
    rewrite try_catch_ret_state.
    unfold bind at 1, get_this. unfold bind at 1. rewrite resume_nonce.
    unfold fundTask_submit.
    set (s1 := mkState _ (history s) (returned s)).
    change (history s) with (history s1).
    apply (call_then_emits (mainWallet (this s))); [| reflexivity].
    intros signed. apply emits_bind; [now apply emits_call |]. intros receipt.
    apply emits_bind; [| intros; apply emits_ret].
    eapply emits_weaken; [| apply emits_waitForConfirmation]. now intros []. }
  destruct Hsign as (later & Hh & Hlater).
  destruct (Interleaving.fundTask_resume L cfg gp fv w (inr c) s) as [r s'].
  simpl in *. subst r. now exists o, s', later.
Qed.

Lemma queued_are_not_active (ws : list Wallet) :
  filter Interleaving.is_awaiting (map Interleaving.Queued ws) = [].
Proof. induction ws as [| w ws IH]; simpl; trivial. Qed.

(** X23.  Whenever the limiter has room for two and the first two tasks
    of a batch are started before either is resumed, on a node that reports
    the same count [c] to both requests, both funding transactions carry
    the nonce [c]. *)
Lemma started_together_share_a_nonce gp fv w1 w2 ws s c :
  2 <= CONCURRENT_TRANSACTIONS cfg ->
  getTransactionCount L (history s) (address (mainWallet (this s))) "pending" = inr c ->
  getTransactionCount L (fetch_request (this s) :: history s)
    (address (mainWallet (this s))) "pending" = inr c ->
  exists p,
    Interleaving.run L cfg gp fv
      [Interleaving.Start; Interleaving.Start;
       Interleaving.Resume 0; Interleaving.Resume 1]
      (Interleaving.queue (w1 :: w2 :: ws) s) = Some p /\
    Interleaving.issued_nonces (history (Interleaving.state p))
    = (Interleaving.issued_nonces (history s) ++ [c; c])%list.
Proof.
  intros Hlimit Hc1 Hc2.
  unfold Interleaving.queue.
  cbn [Interleaving.run Interleaving.step Interleaving.tasks Interleaving.state map].
  assert (H0 : Interleaving.activeCount
                 (Interleaving.Queued w1 :: Interleaving.Queued w2
                    :: map Interleaving.Queued ws) = 0).
  { unfold Interleaving.activeCount. cbn [filter Interleaving.is_awaiting].
    now rewrite queued_are_not_active. }
  rewrite H0. destruct (0 <? CONCURRENT_TRANSACTIONS cfg) eqn:Hlt;
    [| apply Z.ltb_ge in Hlt; lia].
  cbn [Interleaving.start_first].
  unfold Interleaving.fundTask_request at 1, bind, get_this, call. rewrite Hc1.
  cbn [Interleaving.tasks Interleaving.state].
  set (s1 := mkState (this s) (fetch_request (this s) :: history s) (returned s)).
  assert (H1 : Interleaving.activeCount
                 (Interleaving.AwaitingCount w1 (inr c) :: Interleaving.Queued w2
                    :: map Interleaving.Queued ws) = 1).
  { unfold Interleaving.activeCount. cbn [filter Interleaving.is_awaiting].
    now rewrite queued_are_not_active. }
  rewrite H1. destruct (1 <? CONCURRENT_TRANSACTIONS cfg) eqn:Hlt1;
    [| apply Z.ltb_ge in Hlt1; lia].
  cbn [Interleaving.start_first].
  unfold Interleaving.fundTask_request at 1, bind, get_this, call.
  change (history s1) with (fetch_request (this s) :: history s).
  change (this s1) with (this s). rewrite Hc2.
  cbn [Interleaving.tasks Interleaving.state Interleaving.resume_at].
  set (s2 := mkState (this s) (fetch_request (this s) :: fetch_request (this s) :: history s)
                     _).
  destruct (fundTask_resume_signs gp fv w1 c s2) as (o1 & s3 & l1 & -> & Hm3 & Hh3 & Hl1).
  cbn [Interleaving.tasks Interleaving.state Interleaving.resume_at].
  destruct (fundTask_resume_signs gp fv w2 c s3) as (o2 & s4 & l2 & -> & Hm4 & Hh4 & Hl2).
  eexists. split; [reflexivity |].
  cbn [Interleaving.state]. rewrite Hh4, issued_nonces_later by assumption.
  rewrite Hh3, issued_nonces_later by assumption.
  subst s2. cbn [history]. unfold fetch_request.
  rewrite !issued_nonces_fetch, <- app_assoc. reflexivity.
Qed.

(** *** The tasks run one after the other, on a node that keeps count *)

Section OneAtATime.

Variable main : Wallet.
Variable baseline : Z.

(** Which raw transactions the node attributes to the main wallet. *)
Variable from_main : string -> bool.

(** The node reports the baseline plus the transactions of the main wallet
    submitted so far, the signer signs for the main wallet, and the node
    takes every submission. *)
Hypothesis counts : forall h,
  getTransactionCount L h (address main) "pending"
  = inr (baseline + Z.of_nat (occurrences (sent_by_main from_main) h)).
Hypothesis signs : forall h tx,
  tx_from tx = address main ->
  exists raw, signTransaction L h tx (privateKey main) = inr raw /\ from_main raw = true.
Hypothesis takes : forall h raw, exists r, sendSignedTransaction L h raw = inr r.

Lemma occurrences_polls (p : Event -> bool) added h :
  Forall poll_event added ->
  (forall ev, poll_event ev -> p ev = false) ->
  occurrences p (added ++ h)%list = occurrences p h.
Proof.
  unfold occurrences. intros Hall Hp. rewrite filter_app, length_app.
  assert (Hnil : filter p added = []).
  { induction Hall as [| ev evs Hev _ IH]; simpl; trivial. now rewrite (Hp ev Hev). }
  now rewrite Hnil.
Qed.

Lemma polls_sign_nothing added :
  Forall poll_event added -> Forall not_a_funding_signature added.
Proof. apply Forall_impl. now intros []. Qed.

(** One funding task: the nonce is the count at the time, and the count is
    one higher afterwards. *)
Lemma fundTask_one_at_a_time gp fv w s :
  mainWallet (this s) = main ->
  let s' := snd (fundTask L cfg gp fv w s) in
  mainWallet (this s') = main /\
  Interleaving.issued_nonces (history s')
  = (Interleaving.issued_nonces (history s)
       ++ [baseline
           + Z.of_nat (occurrences (sent_by_main from_main) (history s))])%list /\
  occurrences (sent_by_main from_main) (history s')
  = S (occurrences (sent_by_main from_main) (history s)).
Proof.
  intros Hmain.
  set (c := baseline + Z.of_nat (occurrences (sent_by_main from_main) (history s))).
  set (tx := fundTx main gp fv c w).
  assert (Hrun : exists raw r,
             from_main raw = true /\
             snd (fundTask L cfg gp fv w s)
             = snd ((_ <- waitForConfirmation L cfg (transactionHash r)
                            CONFIRMATION_ATTEMPTS RETRY_COUNT ;;
                     ret (mkOutcome true w JsUndefined fund))
                      (mkState (mkManager main (batchSize (this s)) (wallets (this s))
                                          (Some (c + 1)))
                               (EvSend raw :: EvSignMain tx
                                  :: fetch_request (this s) :: history s)
                               (returned s)))).
  { unfold fundTask, fund_failure. rewrite try_catch_ret_state.
    unfold bind at 1, get_this. unfold bind at 1.
    unfold getNextNonce. rewrite try_catch_rethrow.
    unfold bind at 1, get_this. unfold bind at 1, call at 1.
    rewrite Hmain, counts. fold c.
    change (getNextNonce_resume c (mkState (this s) (fetch_request (this s) :: history s)
                                     (returned s)))
      with (@inr Error Z c,
            mkState (mkManager (mainWallet (this s)) (batchSize (this s))
                               (wallets (this s)) (Some (c + 1)))
                    (fetch_request (this s) :: history s) (returned s)).
    cbv iota beta. unfold fundTask_submit. rewrite Hmain. fold tx.
    unfold bind at 1, call at 1. cbn [history this returned].
    destruct (signs (fetch_request (this s) :: history s) tx eq_refl)
      as (raw & -> & Hraw).
    unfold bind at 1, call at 1. cbn [history this returned].
    destruct (takes (EvSignMain tx :: fetch_request (this s) :: history s) raw)
      as (r & ->).
    exists raw, r. split; [exact Hraw | reflexivity]. }
  destruct Hrun as (raw & r & Hraw & Hrun).
  intros s'. subst s'. rewrite Hrun.
  set (s3 := mkState _ (EvSend raw :: EvSignMain tx :: fetch_request (this s) :: history s)
                     (returned s)).
  pose proof (emits_bind main poll_event
                (waitForConfirmation L cfg (transactionHash r)
                   CONFIRMATION_ATTEMPTS RETRY_COUNT)
                (fun _ => ret (mkOutcome true w JsUndefined fund))
                (emits_waitForConfirmation L cfg main _ _ _)
                (fun _ => emits_ret main poll_event _) s3 eq_refl) as Hadv.
  destruct Hadv as (Hm & _ & _ & added & Hh & Hall).
  split; [| split].
  - rewrite Hm. reflexivity.
  - rewrite Hh. subst s3. cbn [history].
    change (added ++ EvSend raw :: EvSignMain tx :: fetch_request (this s) :: history s)%list
      with (added ++ [EvSend raw] ++ EvSignMain tx :: fetch_request (this s) :: history s)%list.
    rewrite app_assoc, issued_nonces_later.
    + unfold fetch_request. rewrite issued_nonces_fetch. reflexivity.
    + apply Forall_app. split; [now apply polls_sign_nothing |].
      constructor; [exact I | constructor].
  - rewrite Hh. rewrite occurrences_polls; trivial; [| now intros []].
    subst s3. unfold occurrences. cbn [history filter sent_by_main fetch_request].
    rewrite Hraw. reflexivity.
Qed.

(** The funding tasks of a batch, one after the other: the nonces issued
    are the count at the start and its successors, without a gap and
    without a repeat. *)
Lemma one_at_a_time_nonces_contiguous gp fv ws : forall s,
  mainWallet (this s) = main ->
  Interleaving.issued_nonces (history (snd (mapM (fundTask L cfg gp fv) ws s)))
  = (Interleaving.issued_nonces (history s)
       ++ map (fun k => baseline
                        + Z.of_nat (occurrences (sent_by_main from_main) (history s) + k))
              (seq 0 (List.length ws)))%list.
Proof.
  induction ws as [| w ws IH]; intros s Hmain; simpl.
  - now rewrite app_nil_r.
  - unfold bind at 1.
    destruct (fundTask_total L cfg gp fv w s) as (o & Ho & _).
    destruct (fundTask_one_at_a_time gp fv w s Hmain) as (Hm1 & Hn1 & Hc1).
    destruct (fundTask L cfg gp fv w s) as [[e | o'] s1]; simpl in *; [discriminate |].
    unfold bind at 1.
    specialize (IH s1 Hm1).
    destruct (mapM (fundTask L cfg gp fv) ws s1) as [[e | os] s2]; simpl in *;
      rewrite IH, Hn1, Hc1, <- app_assoc; simpl;
      rewrite Nat.add_0_r, <- seq_shift, map_map;
      do 2 f_equal; apply map_ext; intros k; f_equal; lia.
Qed.

End OneAtATime.

End InterleavingFacts.

Lemma prefix_append (a b : string) : String.prefix a (a ++ b) = true.
Proof.
  induction a as [| c a IH]; simpl.
  - now destruct b.
  - destruct (ascii_dec c c); [exact IH | contradiction].
Qed.

(** The quiet node keeps count in this sense: on it, any number of
    funding tasks run one after the other are numbered 7, 8, 9, ... *)
Lemma quiet_node_one_at_a_time gp fv ws :
  Interleaving.issued_nonces
    (history (snd (mapM (fundTask Demo.quiet Demo.config gp fv) ws
                        (constructor Demo.main 50))))
  = map (fun k => 7 + Z.of_nat k) (seq 0 (List.length ws)).
Proof.
  rewrite (one_at_a_time_nonces_contiguous Demo.quiet Demo.config Demo.main 7
             (fun raw => String.prefix ("0xMAIN" ++ ">") raw && negb (Demo.nobody raw))).
  - reflexivity.
  - intros h. reflexivity.
  - intros h tx Htx. exists (Demo.raw_of tx). split; [reflexivity |].
    unfold Demo.raw_of. rewrite Htx.
    change (address Demo.main ++ ">" ++ tx_to tx ++ "#" ++ BN_toString (tx_nonce tx))
      with (("0xMAIN" ++ ">") ++ tx_to tx ++ "#" ++ BN_toString (tx_nonce tx)).
    now rewrite prefix_append.
  - intros h raw. eexists. reflexivity.
  - reflexivity.
Qed.

(** On the quiet node: with one place in the limiter, three funding tasks
    are numbered 7, 8, 9, and with the five places of the default they are
    all numbered 7; resumed in turn, two tasks are numbered 7, 8. *)

Example one_place_nonces :
  Interleaving.issued_nonces
    (history (snd (processBatch Demo.quiet (mkConfig 1000 3000 1) Demo.taking_turns
                     [Demo.w0; Demo.w1; Demo.w2]
                     (of_int 1) (of_int 95) (constructor Demo.main 50))))
  = [7; 8; 9].
Proof. vm_compute. reflexivity. Qed.

Example five_places_nonces :
  Interleaving.issued_nonces
    (history (snd (processBatch Demo.quiet Demo.config Demo.taking_turns
                     [Demo.w0; Demo.w1; Demo.w2]
                     (of_int 1) (of_int 95) (constructor Demo.main 50))))
  = [7; 7; 7].
Proof. vm_compute. reflexivity. Qed.

Example resumed_in_turn_nonces :
  option_map (fun p => Interleaving.issued_nonces (history (Interleaving.state p)))
    (Interleaving.run Demo.quiet Demo.config Demo.gwei Demo.ether
       [Interleaving.Start; Interleaving.Resume 0;
        Interleaving.Start; Interleaving.Resume 1]
       (Interleaving.queue [Demo.w0; Demo.w1] (constructor Demo.main 50)))
  = Some [7; 8].
Proof. vm_compute. reflexivity. Qed.

(* ================================================================== *)
(** * The earlier script *)

Section VariantFacts.

Variable L : Ledger.

(** Once the counter is set, [Variant.getNextNonce] hands out its value,
    adds one, and asks the node nothing. *)
Lemma variant_getNextNonce_counts_locally s n :
  currentNonce (this s) = Some n ->
  Variant.getNextNonce L s =
  (inr n,
   mkState (mkManager (mainWallet (this s)) (batchSize (this s)) (wallets (this s))
                      (Some (n + 1)))
           (history s) (returned s)).
Proof.
  intros Hn. unfold Variant.getNextNonce, bind, get_this, increment_currentNonce,
    set_currentNonce, bind, get_this, set_this, ret. simpl.
  rewrite Hn. simpl. rewrite Hn. reflexivity.
Qed.

(** Its return transaction is numbered by that counter. *)
Lemma variant_return_nonce_from_sequencer cfg gp rv w s n :
  currentNonce (this s) = Some n ->
  exists later,
    history (snd (Variant.returnTask L cfg gp rv w s)) =
    (later ++ [EvSign (Variant.returnTx (mainWallet (this s)) gp rv n w) (privateKey w)]
     ++ history s)%list.
Proof.
  intros Hn. unfold Variant.returnTask. rewrite try_catch_ret_state.
  unfold bind at 1, get_this. unfold bind at 1.
  rewrite (variant_getNextNonce_counts_locally s n Hn).
  set (s1 := mkState _ (history s) (returned s)).
  change (history s) with (history s1).
  apply (call_then_marks (mainWallet (this s)) (fun _ => True)); [| reflexivity].
  intros signed.
  apply emits_bind; [now apply emits_call |]. intros receipt.
  apply emits_bind; [| intros; apply emits_ret].
  eapply emits_weaken; [| apply emits_waitForConfirmation]. trivial.
Qed.

End VariantFacts.

(** ** A history grown by allowed events *)

Lemma happened_after h' ev h : happened h' ev h -> extends h' h.
Proof. intros (later & ->). exists (later ++ [ev])%list. now rewrite <- app_assoc. Qed.

Lemma grown_added allowed h h' :
  grown allowed h h' ->
  exists added, h' = (added ++ h)%list /\
                Forall (fun ev => exists h0, happened h' ev h0 /\ allowed h0 ev) added.
Proof.
  induction 1 as [| h' ev Hg (added & -> & Hall) Hev].
  - exists []. split; [reflexivity | constructor].
  - exists (ev :: added). split; [reflexivity |]. constructor.
    + exists (added ++ h)%list. split; [apply happened_now | exact Hev].
    + revert Hall. apply Forall_impl. intros ev' (h0 & Hh0 & Hev').
      exists h0. split; [| exact Hev']. exact (happened_later [ev] _ _ _ Hh0).
Qed.

Lemma funding_step_fund_event L main gp fv ws h ev :
  funding_step L main gp fv ws h ev -> fund_event ev.
Proof. destruct ev; cbn; trivial. Qed.

Lemma return_step_return_event L main gp rv funded h ev :
  return_step L main gp rv funded h ev -> return_event main gp rv ev.
Proof.
  destruct ev; cbn; trivial. intros (w & _ & Htx & Hkey). now exists w.
Qed.

(** An event that happened after [h1], in a history that is [added] on top
    of [h1], is among [added]. *)
Lemma happened_among added h1 ev hs :
  happened (added ++ h1)%list ev hs -> extends hs h1 -> In ev added.
Proof.
  intros (later & Hh) (later' & ->).
  change (ev :: later' ++ h1)%list with ((ev :: later') ++ h1)%list in Hh.
  rewrite app_assoc in Hh. apply app_inv_tail in Hh. subst added.
  apply in_or_app. right. now left.
Qed.

Section BatchFacts.

Variable L : Ledger.
Variable cfg : Config.
Variable arrival : list Event -> nat -> nat.

Lemma processBatch_events ws fundAmount returnPercentage s fundResults returnResults s' :
  processBatch L cfg arrival ws fundAmount returnPercentage s
    = (inr (fundResults, returnResults), s') ->
  exists gp fv rv fundEvents returnEvents,
    batch_events L ws fundAmount returnPercentage s s' fundResults returnResults
                 gp fv rv fundEvents returnEvents /\
    keeps_but_nonce (mainWallet (this s)) (batchSize (this s)) (wallets (this s))
                    (this s') /\
    returned s' = (fundResults, returnResults) :: returned s.
Proof.
  intros H. apply processBatch_trace in H as (gp & fv & rv & h1 & Htrace).
  destruct Htrace as [Hgp Hfv Hrv Hkept Hlog Hfund Hret Hfunded Hreturned].
  apply grown_added in Hfund as (fe & Hh1 & Hfe).
  apply grown_added in Hret as (re & Hh2 & Hre).
  exists gp, fv, rv, fe, re. split; [| now split].
  constructor; trivial.
  - now rewrite Hh2, Hh1.
  - revert Hfe. apply Forall_impl. intros ev (h0 & Hhap & Hev).
    exists h0. split; [| exact Hev]. rewrite Hh2. exact (happened_later re _ _ _ Hhap).
  - revert Hreturned. apply Forall2_impl. intros w o (Ho & (hs & Hhap & Hext) & Hc).
    split; [exact Ho |]. split; [| exact Hc].
    rewrite Hh2 in Hhap. exact (happened_among _ _ _ _ Hhap Hext).
Qed.

Lemma processBatch_run ws fundAmount returnPercentage s fundResults returnResults s' :
  processBatch L cfg arrival ws fundAmount returnPercentage s
    = (inr (fundResults, returnResults), s') ->
  exists gp rv fundEvents returnEvents,
    batch_run L ws fundAmount returnPercentage s s' fundResults returnResults
              gp rv fundEvents returnEvents.
Proof.
  intros H. apply processBatch_events in H as (gp & fv & rv & fe & re & Hev & Hkept & Hlog).
  destruct Hev as [Hgp Hfv Hrv Hh Hfe Hre Hfunded Hreturned].
  destruct Hkept as (Hm & Hb & Hw).
  exists gp, rv, fe, re. constructor; trivial.
  - revert Hfunded. apply Forall2_impl. now intros w o (Ho & _).
  - revert Hreturned. apply Forall2_impl. now intros w o (Ho & _).
  - revert Hfe. apply Forall_impl. intros ev (h0 & _ & Hev).
    exact (funding_step_fund_event _ _ _ _ _ _ _ Hev).
  - revert Hre. apply Forall_impl. intros ev (h0 & _ & Hev).
    exact (return_step_return_event _ _ _ _ _ _ _ Hev).
  - intros w Hw'. clear - Hreturned Hw'.
    induction Hreturned as [| w0 o ws0 os Hwo _ IH]; [contradiction |].
    destruct Hw' as [-> | Hw']; [apply Hwo | now apply IH].
Qed.

(** ** createWallets *)

Lemma emits_createLoop main n acc : emits main create_event (createLoop L n acc).
Proof.
  revert acc. induction n as [| n IH]; intros acc; simpl; [apply emits_ret |].
  apply emits_bind; [now apply emits_call | intros; apply IH].
Qed.

Lemma emits_createWallets main count : emits main create_event (createWallets L count).
Proof.
  unfold createWallets. apply emits_bind; [apply emits_createLoop |]. intros ws.
  apply emits_with_this. intros me _.
  apply emits_bind; [apply emits_set_wallets | intros; apply emits_ret].
Qed.

Lemma createLoop_length n : forall acc s ws s',
  createLoop L n acc s = (inr ws, s') ->
  List.length ws = (List.length acc + n)%nat.
Proof.
  induction n as [| n IH]; intros acc s ws s' H; simpl in H.
  - injection H as <- _. lia.
  - apply bind_inr in H as (w & s1 & _ & H). apply IH in H.
    rewrite H, length_app. simpl. lia.
Qed.

Lemma createWallets_length count s ws s' :
  createWallets L count s = (inr ws, s') -> List.length ws = Z.to_nat count.
Proof.
  unfold createWallets. intros H.
  apply bind_inr in H as (ws' & s1 & Hloop & H).
  apply bind_inr in H as (me & s2 & _ & H).
  apply bind_inr in H as ([] & s3 & _ & H).
  injection H as <- _. now apply createLoop_length in Hloop.
Qed.

(** ** The two forEach passes over a batch *)

Lemma forEach_record_fund os : forall results s,
  string_errors os ->
  forEach record_fund os results s =
  (inr (mkResults (successful results)
                  (failed results ++ map failed_funding (filter unsuccessful os))
                  (created results)), s).
Proof.
  induction os as [| o os IH]; intros [succ fl cr] s Hos; simpl.
  - now rewrite app_nil_r.
  - inversion Hos as [| ? ? Ho Hos']; subst.
    unfold bind at 1, record_fund, unsuccessful.
    destruct (success o) eqn:Hs; simpl.
    + now rewrite IH.
    + destruct Ho as (msg & Hmsg); [reflexivity |].
      rewrite Hmsg. unfold bind, lift, ret; simpl.
      rewrite IH by assumption. simpl.
      unfold failed_funding at 2. now rewrite <- app_assoc.
Qed.

Lemma forEach_record_return_stage os : forall results s,
  string_errors os ->
  forEach record_return_stage os results s =
  (inr (mkResults (successful results ++
                     map (fun o => address (wallet o)) (filter success os))
                  (failed results ++ map failed_returning (filter unsuccessful os))
                  (created results)), s).
Proof.
  induction os as [| o os IH]; intros [succ fl cr] s Hos; simpl.
  - now rewrite !app_nil_r.
  - inversion Hos as [| ? ? Ho Hos']; subst.
    unfold bind at 1, record_return_stage, unsuccessful.
    destruct (success o) eqn:Hs; simpl.
    + unfold ret at 1. rewrite IH by assumption. simpl. now rewrite <- app_assoc.
    + destruct Ho as (msg & Hmsg); [reflexivity |].
      rewrite Hmsg. unfold bind, lift, ret; simpl.
      rewrite IH by assumption. simpl.
      unfold failed_returning at 2. now rewrite <- app_assoc.
Qed.

(** ** One turn of the batch loop *)

Lemma outcomes_string_errors t ws os :
  Forall2 (fun w o => outcome_of w t o) ws os -> string_errors os.
Proof.
  intros H. apply Forall2_outcome_errors in H.
  revert H. apply Forall_impl. now intros o (_ & He).
Qed.

Lemma batchBody_run walletCount fundAmount i results s results' s' :
  batchBody L cfg arrival walletCount fundAmount i results s = (inr results', s') ->
  exists b,
    returned s' = b :: returned s /\
    return_stage_of_funded b /\
    batchSize (this s') = batchSize (this s) /\
    mainWallet (this s') = mainWallet (this s) /\
    results' =
      mkResults (successful results ++ batch_successful b)
                (failed results ++ batch_failed b)
                (created results
                 + Z.of_nat (Z.to_nat (iterations
                      (Math_min (batchSize (this s)) (PrimFloat.sub walletCount i))))).
Proof.
  unfold batchBody. intros H.
  apply bind_inr in H as (me & s0 & Hme & H).
  injection Hme as <- <-.
  apply bind_inr in H as (newWallets & s1 & Hcreate & H).
  pose proof (createWallets_length _ _ _ _ Hcreate) as Hlen.
  assert (Hadv : advance create_event s s1).
  { replace s1 with (snd (createWallets L (iterations
        (Math_min (batchSize (this s)) (PrimFloat.sub walletCount i))) s))
      by now rewrite Hcreate.
    now apply (emits_createWallets (mainWallet (this s))). }
  destruct Hadv as (Hm1 & Hb1 & Hr1 & _).
  apply bind_inr in H as ([fundResults returnResults] & s2 & Hbatch & H).
  apply processBatch_run in Hbatch as (gp & rv & fe & re & Hrun).
  destruct Hrun as [_ _ Hfunded Hreturned Hm2 Hb2 Hlog _ _ _].
  cbn beta iota in H. unfold bind at 1 in H.
  rewrite forEach_record_fund in H
    by (eapply outcomes_string_errors; exact Hfunded).
  unfold bind at 1 in H.
  rewrite forEach_record_return_stage in H
    by (eapply outcomes_string_errors; exact Hreturned).
  unfold bind at 1 in H. unfold bind at 1, get_this in H.
  apply bind_inr in H as ([] & s3 & Hsleep & H).
  injection H as <- <-. simpl.
  assert (Hs3 : this s3 = this s2 /\ returned s3 = returned s2).
  { destruct (PrimFloat.ltb _ _) in Hsleep.
    - unfold sleep, call in Hsleep. injection Hsleep as <-. now split.
    - injection Hsleep as <-. now split. }
  destruct Hs3 as (Ht3 & Hr3).
  exists (fundResults, returnResults).
  split; [congruence |]. split; [| split; [congruence | split; [congruence |]]].
  - unfold return_stage_of_funded. simpl. repeat split.
    + now apply Forall2_outcome_wallets in Hreturned.
    + eapply outcomes_string_errors; exact Hfunded.
    + eapply outcomes_string_errors; exact Hreturned.
  - unfold batch_successful, batch_failed. simpl.
    rewrite Hlen, <- app_assoc. reflexivity.
Qed.

(** ** The batch loop *)

(** The report at the end of the loop, batch by batch. *)
Lemma batchLoop_run fuel walletCount fundAmount : forall i results s results' s',
  batchLoop L cfg arrival fuel walletCount fundAmount i results s = Some (inr results', s') ->
  exists log,
    returned s' = (log ++ returned s)%list /\
    Forall return_stage_of_funded log /\
    successful results' =
      (successful results ++ List.concat (map batch_successful (rev log)))%list /\
    failed results' = (failed results ++ List.concat (map batch_failed (rev log)))%list.
Proof.
  induction fuel as [| fuel IH]; intros i results s results' s' H; cbn [batchLoop] in H.
  - destruct (PrimFloat.ltb i walletCount); [discriminate |].
    injection H as <- <-. exists []. simpl. now rewrite !app_nil_r.
  - destruct (PrimFloat.ltb i walletCount).
    + destruct (endless _); [discriminate |].
      destruct (batchBody L cfg arrival walletCount fundAmount i results s)
        as [[e | results1] s1] eqn:Hbody; [discriminate |].
      apply batchBody_run in Hbody as (b & Hlog & Hb & _ & _ & ->).
      apply IH in H as (log & Hlog' & Hwf & Hsucc & Hfail). simpl in *.
      exists (log ++ [b])%list. repeat split.
      * rewrite Hlog', Hlog, <- app_assoc. reflexivity.
      * apply Forall_app. split; [assumption | now constructor].
      * rewrite Hsucc, rev_app_distr. simpl. now rewrite <- app_assoc.
      * rewrite Hfail, rev_app_distr. simpl. now rewrite <- app_assoc.
    + injection H as <- <-. exists []. simpl. now rewrite !app_nil_r.
Qed.

End BatchFacts.

Lemma integer_above_zero x :
  isInteger x = true -> PrimFloat.leb x PrimFloat.zero = false ->
  PrimFloat.ltb PrimFloat.zero x = true.
Proof.
  intros Hint Hle. apply zero_ltb_positive.
  assert (Hn : ~ nonpositive (Prim2SF x)).
  { intros H. apply leb_zero_nonpositive in H. congruence. }
  unfold isInteger in Hint.
  destruct (Prim2SF x) as [s | s | | [] m e]; cbn in *; try discriminate; tauto.
Qed.

Section LoopFacts.

Variable L : Ledger.
Variable cfg : Config.
Variable arrival : list Event -> nat -> nat.

(** With a batch size that is zero or less the loop never gets past
    [walletCount]: it can stop on an error only. *)
Lemma batchLoop_spins fuel walletCount fundAmount : forall i results s out,
  PrimFloat.leb (batchSize (this s)) PrimFloat.zero = true ->
  PrimFloat.leb i PrimFloat.zero = true ->
  PrimFloat.ltb PrimFloat.zero walletCount = true ->
  batchLoop L cfg arrival fuel walletCount fundAmount i results s = Some out ->
  exists e, fst out = inl e.
Proof.
  induction fuel as [| fuel IH]; intros i results s out Hbs Hi Hwc H; cbn [batchLoop] in H;
    rewrite (nonpositive_ltb_positive i walletCount Hi Hwc) in H; [discriminate |].
  destruct (endless _); [discriminate |].
  destruct (batchBody L cfg arrival walletCount fundAmount i results s)
    as [[e | results'] s'] eqn:Hbody.
  - injection H as <-. now exists e.
  - apply batchBody_run in Hbody as (b & _ & _ & Hb & _).
    apply IH in H; trivial; rewrite Hb; trivial. now apply add_nonpositive.
Qed.

Section IntegerSizes.

(** [walletCount] and [this.batchSize] hold the integers [wc] and [bs]. *)
Variables wc bs : Z.
Hypothesis bs_positive : 0 < bs.
Hypothesis wc_natural : 0 <= wc.
Hypothesis in_range : wc + bs < 2 ^ 53.

(** The size of the batch cut at index [k]. *)
Lemma batch_size_at k :
  0 <= k <= wc ->
  iterations (Math_min (of_int bs) (PrimFloat.sub (of_int wc) (of_int k)))
  = Z.min bs (wc - k).
Proof.
  intros Hk. rewrite of_int_sub by lia. rewrite Math_min_of_int by lia.
  rewrite iterations_of_int by lia. reflexivity.
Qed.

Lemma batch_size_ends k :
  0 <= k <= wc ->
  endless (Math_min (of_int bs) (PrimFloat.sub (of_int wc) (of_int k))) = false.
Proof.
  intros Hk. rewrite of_int_sub by lia. rewrite Math_min_of_int by lia.
  apply endless_of_int. lia.
Qed.

Lemma batchLoop_created fuel fundAmount : forall k results s results' s',
  batchSize (this s) = of_int bs ->
  0 <= k < wc + bs ->
  (k < wc -> created results = k) ->
  (wc <= k -> created results = wc) ->
  batchLoop L cfg arrival fuel (of_int wc) fundAmount (of_int k) results s
    = Some (inr results', s') ->
  created results' = wc.
Proof.
  induction fuel as [| fuel IH]; intros k results s results' s' Hbs Hk Hlt Hge H;
    cbn [batchLoop] in H; rewrite of_int_ltb in H by lia.
  - destruct (Z.ltb_spec k wc) as [Hcmp | Hcmp]; [discriminate |].
    injection H as <- _. now apply Hge.
  - destruct (Z.ltb_spec k wc) as [Hcmp | Hcmp].
    + rewrite Hbs, batch_size_ends in H by lia.
      destruct (batchBody L cfg arrival (of_int wc) fundAmount (of_int k) results s)
        as [[e | results1] s1] eqn:Hbody; [discriminate |].
      apply batchBody_run in Hbody as (b & _ & _ & Hb & _ & ->).
      rewrite Hb, Hbs, of_int_add in H by lia.
      rewrite Hbs, batch_size_at in * by lia.
      apply (IH (k + bs)) in H; trivial; cbn [created]; lia.
    + injection H as <- _. now apply Hge.
Qed.

(** The loop is through after at most [wc - k] turns. *)
Lemma batchLoop_terminates fuel fundAmount : forall k results s,
  batchSize (this s) = of_int bs ->
  0 <= k < wc + bs ->
  (Z.to_nat (wc - k) <= fuel)%nat ->
  exists out,
    batchLoop L cfg arrival fuel (of_int wc) fundAmount (of_int k) results s = Some out.
Proof.
  induction fuel as [| fuel IH]; intros k results s Hbs Hk Hfuel; cbn [batchLoop];
    rewrite of_int_ltb by lia.
  - destruct (Z.ltb_spec k wc) as [Hcmp | Hcmp]; [lia | now eexists].
  - destruct (Z.ltb_spec k wc) as [Hcmp | Hcmp]; [| now eexists].
    rewrite Hbs, batch_size_ends by lia.
    destruct (batchBody L cfg arrival (of_int wc) fundAmount (of_int k) results s)
      as [[e | results1] s1] eqn:Hbody; [now eexists |].
    apply batchBody_run in Hbody as (b & _ & _ & Hb & _ & _).
    rewrite Hb, Hbs, of_int_add by lia. apply IH; [congruence | lia | lia].
Qed.

End IntegerSizes.

(** ** createAndManageWallets *)

Lemma emits_preflight main walletCount fundAmount :
  emits main preflight_event (preflight L walletCount fundAmount).
Proof.
  unfold preflight. apply emits_bind; [now apply emits_call |]. intros gasPrice.
  apply emits_bind; [apply emits_lift |]. intros units.
  apply emits_bind; [| intros; apply emits_ret].
  unfold checkMainBalance. apply emits_with_this. intros me _.
  apply emits_bind; [now apply emits_call |]. intros balance.
  apply emits_bind; [apply emits_lift |]. intros requiredWei.
  destruct (balance <? requiredWei); [apply emits_throw | apply emits_ret].
Qed.

(** A run that returns a report passed both input checks and the
    preflight, then left the loop normally. *)
Lemma createAndManageWallets_returns fuel walletCount fundAmount s results s' :
  createAndManageWallets L cfg arrival fuel walletCount fundAmount s
    = Some (inr results, s') ->
  PrimFloat.ltb PrimFloat.zero walletCount = true /\
  exists s0,
    advance preflight_event s s0 /\
    batchLoop L cfg arrival fuel walletCount fundAmount PrimFloat.zero (mkResults [] [] 0) s0
      = Some (inr results, s').
Proof.
  unfold createAndManageWallets. intros H.
  destruct (isInteger walletCount) eqn:Hint; [| discriminate].
  destruct (PrimFloat.leb walletCount PrimFloat.zero) eqn:Hwc; [discriminate |].
  cbn [negb orb] in H.
  destruct (PrimFloat.leb fundAmount PrimFloat.zero); [discriminate |].
  pose proof (emits_preflight (mainWallet (this s)) walletCount fundAmount s eq_refl)
    as Hpre.
  destruct (preflight L walletCount fundAmount s) as [[e | []] s0]; [discriminate |].
  simpl in Hpre. split; [now apply integer_above_zero |]. exists s0. split; [assumption |].
  destruct (batchLoop L cfg arrival fuel walletCount fundAmount PrimFloat.zero
              (mkResults [] [] 0) s0)
    as [[[e | r] s1] |]; try discriminate. exact H.
Qed.

Lemma createAndManageWallets_terminates fuel wc bs fundAmount s :
  0 < bs -> 0 <= wc -> wc + bs < 2 ^ 53 ->
  batchSize (this s) = of_int bs ->
  (Z.to_nat wc <= fuel)%nat ->
  exists out,
    createAndManageWallets L cfg arrival fuel (of_int wc) fundAmount s = Some out.
Proof.
  intros Hbs Hwc Hrange Hsize Hfuel. unfold createAndManageWallets.
  destruct (negb _ || _); [now eexists |].
  destruct (PrimFloat.leb fundAmount PrimFloat.zero); [now eexists |].
  pose proof (emits_preflight (mainWallet (this s)) (of_int wc) fundAmount s eq_refl)
    as (_ & Hb & _).
  destruct (preflight L (of_int wc) fundAmount s) as [[e | []] s0]; [now eexists |].
  simpl in Hb. rewrite zero_is_of_int.
  destruct (batchLoop_terminates wc bs Hbs Hwc Hrange fuel fundAmount 0 (mkResults [] [] 0) s0)
    as (out & ->).
  - congruence.
  - lia.
  - now rewrite Z.sub_0_r.
  - destruct out as [[e | r] s1]; now eexists.
Qed.

End LoopFacts.

(* ================================================================== *)
(** * The report, batch by batch *)

Lemma NoDup_map_eq {A B} (g : A -> B) l a b :
  NoDup (map g l) -> In a l -> In b l -> g a = g b -> a = b.
Proof.
  induction l as [| x l IH]; simpl; intros Hnd Ha Hb Hg; [contradiction |].
  inversion Hnd as [| ? ? Hx Hnd']; subst.
  destruct Ha as [-> | Ha], Hb as [-> | Hb]; trivial.
  - exfalso. apply Hx. rewrite Hg. now apply in_map.
  - exfalso. apply Hx. rewrite <- Hg. now apply in_map.
  - now apply IH.
Qed.

Lemma filter_returning_funding os :
  filter is_returning (map failed_funding os) = [].
Proof. induction os as [| o os IH]; simpl; trivial. Qed.

Lemma filter_returning_returning os :
  filter is_returning (map failed_returning os) = map failed_returning os.
Proof. induction os as [| o os IH]; simpl; [trivial | now rewrite IH]. Qed.

Lemma successful_of_batches bs :
  List.concat (map batch_successful bs) =
  map address_of (filter success (List.concat (map snd bs))).
Proof.
  induction bs as [| b bs IH]; simpl; [reflexivity |].
  rewrite IH, filter_app, map_app. reflexivity.
Qed.

Lemma returning_of_batches bs :
  filter is_returning (List.concat (map batch_failed bs)) =
  map failed_returning (filter unsuccessful (List.concat (map snd bs))).
Proof.
  induction bs as [| b bs IH]; simpl; [reflexivity |].
  unfold batch_failed at 1.
  rewrite !filter_app, IH, filter_returning_funding, filter_returning_returning, map_app.
  reflexivity.
Qed.

Lemma failed_of_batches_undefined bs :
  Forall (fun f => fo_error f = JsUndefined) (List.concat (map batch_failed bs)).
Proof.
  induction bs as [| b bs IH]; simpl; [constructor |].
  apply Forall_app. split; [| exact IH].
  unfold batch_failed. apply Forall_app. split; apply Forall_forall;
    intros f Hf; apply in_map_iff in Hf as (o & <- & _); reflexivity.
Qed.

(** A run that returns a report, read against the record of batches. *)
(** A run that returns a report, read against the record of batches. *)
Lemma createAndManageWallets_report L cfg arrival fuel walletCount fundAmount s results s' :
  createAndManageWallets L cfg arrival fuel walletCount fundAmount s
    = Some (inr results, s') ->
  exists log,
    returned s' = (log ++ returned s)%list /\
    Forall return_stage_of_funded log /\
    successful results = List.concat (map batch_successful (rev log)) /\
    failed results = List.concat (map batch_failed (rev log)).
Proof.
  intros H. apply createAndManageWallets_returns in H as (_ & s0 & Hpre & Hloop).
  apply batchLoop_run in Hloop as (log & Hlog & Hshape & Hsucc & Hfail).
  destruct Hpre as (_ & _ & Hr & _). simpl in *.
  exists log. repeat split; trivial. congruence.
Qed.

(* ================================================================== *)
(** * The claims *)

(** C1.  The claim: when a poll of [waitForConfirmation] sees a receipt
    with [status = false], the call ends at once with the on-chain-failure
    error, with no further poll and no further retry round.  The code at
    that input: against a node that reports transaction "0xabc" as mined
    with [status = false] on every poll, the call with the default 20
    attempts and 3 rounds polls 60 times and ends with the timeout error,
    not with the on-chain-failure error (which the inner [catch] swallows
    at every poll). *)
Theorem waitForConfirmation_reverted_polls_to_timeout :
  let L := Demo.node (50 * Demo.ether) Demo.gwei 7 Demo.nobody (fun _ => true) in
  let out := waitForConfirmation L Demo.config "0xabc"
               CONFIRMATION_ATTEMPTS RETRY_COUNT (constructor Demo.main 50) in
  fst out = inl (timeout_error "0xabc") /\
  fst out <> inl (onchain_error "0xabc") /\
  occurrences is_poll (history (snd out)) = 60%nat.
Proof.
  intros L out. split; [| split].
  - vm_compute. reflexivity.
  - apply waitForConfirmation_never_onchain_error.
  - vm_compute. reflexivity.
Qed.

(** C2, as stated, at a concrete input: on a node whose transaction count
    stays at 5, the second of two consecutive [getNextNonce] calls neither
    returns the first value plus one nor refrains from asking the node. *)
Lemma getNextNonce_second_call_refetches :
  let L := Demo.node (50 * Demo.ether) Demo.gwei 5 Demo.nobody Demo.nobody in
  let s0 := constructor Demo.main 50 in
  ~ (forall n1 s1 n2 s2,
       getNextNonce L s0 = (inr n1, s1) ->
       getNextNonce L s1 = (inr n2, s2) ->
       n2 = n1 + 1 /\
       occurrences is_fetch (history s2) = occurrences is_fetch (history s1)).
Proof.
  intros L s0 H.
  specialize (H 5 (snd (getNextNonce L s0)) 5
                (snd (getNextNonce L (snd (getNextNonce L s0)))) eq_refl eq_refl).
  destruct H as (H & _). discriminate H.
Qed.

(** C2, amended.  Every call of [getNextNonce] sends one request for the
    pending transaction count of the main wallet; it returns the node's
    answer and stores the answer plus one in [this.currentNonce], and when
    the request fails it rethrows, leaving [this] as it was.  Nothing of
    this depends on the state the call starts in. *)
Theorem getNextNonce_fetches_on_every_call (L : Ledger) (s : State) :
  getNextNonce L s =
  let me := this s in
  let h := fetch_request me :: history s in
  match getTransactionCount L (history s) (address (mainWallet me)) "pending" with
  | inr count =>
      (inr count,
       mkState (mkManager (mainWallet me) (batchSize me) (wallets me) (Some (count + 1)))
               h (returned s))
  | inl e => (inl e, mkState me h (returned s))
  end.
Proof.
  unfold getNextNonce, try_catch, bind, get_this, call, getNextNonce_resume,
    set_currentNonce, increment_currentNonce, bind, get_this, set_this, ret, throw.
  cbn [this history returned mainWallet batchSize wallets currentNonce to_number].
  destruct (getTransactionCount L (history s) (address (mainWallet (this s))) "pending")
    as [e | count]; reflexivity.
Qed.

(** C3.  The claim: the nonces issued to the source account are pairwise
    distinct and contiguous from the baseline under every interleaving.
    The code at a concrete schedule: two funding tasks, both started before
    either is resumed (as [limit] starts them with
    [CONCURRENT_TRANSACTIONS = 5]), against a node with 7 transactions of
    the main wallet on record.  Both funding transactions are signed with
    nonce 7. *)
Theorem eager_funding_tasks_share_a_nonce :
  let p := Interleaving.run Demo.quiet Demo.config Demo.gwei Demo.ether
             [Interleaving.Start; Interleaving.Start;
              Interleaving.Resume 0; Interleaving.Resume 1]
             (Interleaving.queue [Demo.w0; Demo.w1] (constructor Demo.main 50)) in
  option_map (fun p => Interleaving.issued_nonces (history (Interleaving.state p))) p
  = Some [7; 7].
Proof. vm_compute. reflexivity. Qed.

(** ** What is signed and submitted in a batch *)

Lemma Forall2_in_l {X Y} (R : X -> Y -> Prop) xs ys x :
  Forall2 R xs ys -> In x xs -> exists y, In y ys /\ R x y.
Proof.
  induction 1 as [| x0 y0 xs ys Hxy _ IH]; [contradiction |].
  intros [-> | Hx].
  - exists y0. split; [now left | exact Hxy].
  - destruct (IH Hx) as (y & Hy & Hr). exists y. split; [now right | exact Hr].
Qed.

Lemma funded_wallet (fundResults : list Outcome) o :
  In o fundResults -> success o = true ->
  In (wallet o) (map wallet (filter success fundResults)).
Proof. intros Ho Hs. apply in_map. apply filter_In. now split. Qed.

Lemma wallet_funded (fundResults : list Outcome) w :
  In w (map wallet (filter success fundResults)) ->
  exists o, In o fundResults /\ success o = true /\ wallet o = w.
Proof.
  intros Hw. apply in_map_iff in Hw as (o & Hw & Ho). apply filter_In in Ho as (Ho & Hs).
  now exists o.
Qed.

Lemma return_steps_fetch_nothing L main gp rv funded h' returnEvents :
  Forall (fun ev => exists h0, happened h' ev h0 /\ return_step L main gp rv funded h0 ev)
         returnEvents ->
  occurrences is_fetch returnEvents = 0%nat.
Proof.
  unfold occurrences. induction 1 as [| ev evs (h0 & _ & Hev) _ IH]; [reflexivity |].
  destruct ev; cbn [filter is_fetch]; trivial; destruct Hev.
Qed.

Section BatchSignatures.

Variable L : Ledger.
Variables (ws : list Wallet) (fundAmount returnPercentage : number).
Variables (s s' : State) (fundResults returnResults : list Outcome).
Variables (gp fv rv : Z) (fundEvents returnEvents : list Event).
Hypothesis batch :
  batch_events L ws fundAmount returnPercentage s s' fundResults returnResults
               gp fv rv fundEvents returnEvents.

Lemma batch_fund_wallets : map wallet fundResults = ws.
Proof.
  apply (Forall2_outcome_wallets fund). generalize (stage_funded _ _ _ _ _ _ _ _ _ _ _ _ _ batch).
  apply Forall2_impl. now intros w o (Ho & _).
Qed.

Lemma batch_return_wallets :
  map wallet returnResults = map wallet (filter success fundResults).
Proof.
  apply (Forall2_outcome_wallets return_).
  generalize (stage_returned _ _ _ _ _ _ _ _ _ _ _ _ _ batch).
  apply Forall2_impl. now intros w o (Ho & _).
Qed.

Lemma funding_stage_signs_for_no_account tx key : ~ In (EvSign tx key) fundEvents.
Proof.
  intros Hin. pose proof (stage_funding _ _ _ _ _ _ _ _ _ _ _ _ _ batch) as Hall.
  rewrite Forall_forall in Hall. destruct (Hall _ Hin) as (h0 & _ & []).
Qed.

Lemma batch_every_funded_signs :
  every_funded_signs (mainWallet (this s)) gp rv fundResults returnEvents.
Proof.
  intros o Ho Hs.
  destruct (Forall2_in_l _ _ _ _ (stage_returned _ _ _ _ _ _ _ _ _ _ _ _ _ batch)
              (funded_wallet _ _ Ho Hs)) as (r & _ & _ & Hin & _).
  exists (returnTx (mainWallet (this s)) gp rv (wallet o)).
  split; [exact Hin |]. repeat split.
Qed.

Lemma batch_only_funded_sign :
  only_funded_sign (mainWallet (this s)) gp rv fundResults returnEvents.
Proof.
  intros tx key Hin. pose proof (stage_returning _ _ _ _ _ _ _ _ _ _ _ _ _ batch) as Hall.
  rewrite Forall_forall in Hall. destruct (Hall _ Hin) as (h0 & _ & w & Hw & -> & ->).
  apply wallet_funded in Hw as (o & Ho & Hs & <-). now exists o.
Qed.

Lemma batch_only_funded_submit :
  only_funded_submit L (mainWallet (this s)) gp rv (history s') fundResults returnEvents.
Proof.
  intros raw Hin. pose proof (stage_returning _ _ _ _ _ _ _ _ _ _ _ _ _ batch) as Hall.
  rewrite Forall_forall in Hall.
  destruct (Hall _ Hin) as (h0 & Hext & w & hs & Hw & Hhap & Hsig).
  apply wallet_funded in Hw as (o & Ho & Hs & <-).
  exists o, hs. repeat split; trivial.
  exact (happened_extends _ _ _ _ (happened_after _ _ _ Hext) Hhap).
Qed.

Lemma batch_only_main_submits :
  only_main_submits L (mainWallet (this s)) gp fv ws (history s') fundEvents.
Proof.
  intros raw Hin. pose proof (stage_funding _ _ _ _ _ _ _ _ _ _ _ _ _ batch) as Hall.
  rewrite Forall_forall in Hall.
  destruct (Hall _ Hin) as (h0 & Hext & w & nonce & hs & Hw & Hhap & Hsig).
  exists w, nonce, hs. repeat split; trivial.
  exact (happened_extends _ _ _ _ (happened_after _ _ _ Hext) Hhap).
Qed.

Lemma batch_values_net_of_gas : return_values_net_of_gas gp rv returnEvents.
Proof.
  intros tx key Hin. destruct (batch_only_funded_sign tx key Hin) as (o & _ & _ & -> & _).
  unfold returnTx. cbn [tx_value]. unfold GAS_LIMIT. lia.
Qed.

Lemma batch_return_nonces_zero tx key :
  In (EvSign tx key) returnEvents -> tx_nonce tx = 0.
Proof.
  intros Hin. destruct (batch_only_funded_sign tx key Hin) as (o & _ & _ & -> & _).
  reflexivity.
Qed.

Lemma return_stage_fetches_nothing : occurrences is_fetch returnEvents = 0%nat.
Proof.
  apply (return_steps_fetch_nothing L (mainWallet (this s)) gp rv
           (map wallet (filter success fundResults)) (history s')).
  exact (stage_returning _ _ _ _ _ _ _ _ _ _ _ _ _ batch).
Qed.

End BatchSignatures.

(** ** The value of the return transaction *)

(** C4, as stated, at a concrete input: one account funded with 0.001
    ether, 95 percent to return, gas at 50 gwei.  The funding is confirmed,
    the nominal return value is 950000000000000 wei and the return
    transaction that is signed carries the value -100000000000000. *)
Lemma return_value_negative_at_50_gwei :
  let L := Demo.node (50 * Demo.ether) (50 * Demo.gwei) 7 Demo.nobody Demo.nobody in
  let out := processBatch L Demo.config Demo.taking_turns [Demo.w0] Demo.milli (of_int 95)
               (constructor Demo.main 50) in
  PrimFloat.ltb PrimFloat.zero Demo.milli = true /\
  returnValueOf Demo.milli (of_int 95) = inr 950000000000000 /\
  (exists fundResults returnResults,
     fst out = inr (fundResults, returnResults) /\
     map success fundResults = [true]) /\
  exists tx, In (EvSign tx "key0") (history (snd out)) /\
             tx_value tx = 950000000000000 - GAS_LIMIT * (50 * Demo.gwei) /\
             tx_value tx < 0.
Proof.
  intros L out. split; [vm_compute; reflexivity |]. split; [vm_compute; reflexivity |].
  split.
  { eexists. eexists. split; [vm_compute; reflexivity | reflexivity]. }
  exists (returnTx Demo.main (50 * Demo.gwei) 950000000000000 Demo.w0).
  split; [| split].
  - vm_compute. repeat (first [left; reflexivity | right]).
  - reflexivity.
  - vm_compute. reflexivity.
Qed.

(** C4, amended.  In every batch that [processBatch] completes, whatever
    the order in which the answers arrive: every account whose funding
    outcome has [success = true] has its return transaction put up for
    signature in the return stage, with its own key; these are the only
    transactions put up for signature with an account key; and the value
    of each is the nominal return value (the wei amount of
    [fundAmount * returnPercentage / 100]) minus [GAS_LIMIT * gasPrice]
    exactly.  That value is below the nominal one when the gas price is
    positive, and it is non-negative if and only if the nominal value is
    at least [GAS_LIMIT * gasPrice]. *)
Theorem return_value_is_nominal_minus_gas
  (L : Ledger) (cfg : Config) (arrival : list Event -> nat -> nat)
  (ws : list Wallet) (fundAmount returnPercentage : number)
  (s s' : State) (fundResults returnResults : list Outcome) :
  processBatch L cfg arrival ws fundAmount returnPercentage s
    = (inr (fundResults, returnResults), s') ->
  batch_return_values L ws fundAmount returnPercentage s s' fundResults.
Proof.
  intros H. apply processBatch_events in H as (gp & fv & rv & fe & re & Hev & _).
  exists gp, rv, fe, re.
  split; [exact (stage_gasPrice _ _ _ _ _ _ _ _ _ _ _ _ _ Hev) |].
  split; [exact (stage_returnValue _ _ _ _ _ _ _ _ _ _ _ _ _ Hev) |].
  split; [exact (batch_fund_wallets _ _ _ _ _ _ _ _ _ _ _ _ _ Hev) |].
  split; [exact (stage_history _ _ _ _ _ _ _ _ _ _ _ _ _ Hev) |].
  split; [exact (funding_stage_signs_for_no_account _ _ _ _ _ _ _ _ _ _ _ _ _ Hev) |].
  split; [exact (batch_every_funded_signs _ _ _ _ _ _ _ _ _ _ _ _ _ Hev) |].
  split; [exact (batch_only_funded_sign _ _ _ _ _ _ _ _ _ _ _ _ _ Hev) |].
  exact (batch_values_net_of_gas _ _ _ _ _ _ _ _ _ _ _ _ _ Hev).
Qed.

(** The sample batch returns, and the sample run returns a report. *)
Lemma sample_batch_returns :
  processBatch Demo.rough Demo.config Demo.taking_turns [Demo.w0; Demo.w1; Demo.w2]
    (of_int 1) (of_int 95) (constructor Demo.main 50)
  = (inr (fst Demo.sample_batch_outcomes, snd Demo.sample_batch_outcomes),
     Demo.sample_batch_state).
Proof. vm_compute. reflexivity. Qed.

Lemma sample_run_returns :
  createAndManageWallets Demo.rough Demo.config Demo.taking_turns 10 (of_int 3) (of_int 1)
    (constructor Demo.main 2)
  = Some (inr Demo.sample_results, Demo.sample_state).
Proof. vm_compute. reflexivity. Qed.

Lemma return_value_is_nominal_minus_gas_witness :
  batch_return_values Demo.rough [Demo.w0; Demo.w1; Demo.w2] (of_int 1) (of_int 95)
    (constructor Demo.main 50) Demo.sample_batch_state
    (fst Demo.sample_batch_outcomes) /\
  map success (fst Demo.sample_batch_outcomes) = [true; false; true].
Proof.
  split.
  - exact (return_value_is_nominal_minus_gas _ _ _ _ _ _ _ _ _ _ sample_batch_returns).
  - reflexivity.
Defined.

(** ** Who reaches the return stage *)

(** C5.  In every batch that [processBatch] completes, whatever the order
    in which the answers arrive, there is one funding outcome per wallet,
    in order; the return outcomes are, in order, those of the wallets whose
    funding outcome has [success = true], so each return outcome belongs
    to a wallet that was funded successfully; and, the wallets of the batch
    being distinct, a wallet whose funding outcome has [success = false]
    has no return outcome.  As to the transactions: the funding stage puts
    up nothing for signature with an account key and submits only what the
    node signed for the main wallet; the return stage puts up for
    signature the return transaction of every account whose funding
    outcome has [success = true] and of no other, and submits only what
    the node signed so; and, the wallets being distinct, nothing is put up
    for signature from an account whose funding outcome has
    [success = false]. *)
Theorem failed_funding_never_returns
  (L : Ledger) (cfg : Config) (arrival : list Event -> nat -> nat)
  (ws : list Wallet) (fundAmount returnPercentage : number)
  (s s' : State) (fundResults returnResults : list Outcome) :
  processBatch L cfg arrival ws fundAmount returnPercentage s
    = (inr (fundResults, returnResults), s') ->
  returns_only_funded L ws s s' fundResults returnResults.
Proof.
  intros H. apply processBatch_events in H as (gp & fv & rv & fe & re & Hev & _).
  pose proof (batch_fund_wallets _ _ _ _ _ _ _ _ _ _ _ _ _ Hev) as Hfw.
  pose proof (batch_return_wallets _ _ _ _ _ _ _ _ _ _ _ _ _ Hev) as Hrw.
  pose proof (batch_only_funded_sign _ _ _ _ _ _ _ _ _ _ _ _ _ Hev) as Honly.
  assert (Hdistinct : NoDup ws -> forall f o, In f fundResults -> In o fundResults ->
            wallet o = wallet f -> o = f).
  { intros Hnd f o Hf Ho Hw. rewrite <- Hfw in Hnd. eapply NoDup_map_eq; eauto. }
  unfold returns_only_funded. split; [exact Hfw |]. split; [exact Hrw |].
  split; [| split; [| split]].
  - generalize (stage_returned _ _ _ _ _ _ _ _ _ _ _ _ _ Hev). clear.
    induction 1 as [| w o ws os ((_ & Ht & _) & _) _ IH]; constructor; trivial.
  - intros r Hr. apply (in_map wallet) in Hr. rewrite Hrw in Hr.
    apply wallet_funded in Hr as (f & Hf & Hs & Hw). now exists f.
  - intros Hnd f Hf Hfail Hin. rewrite Hrw in Hin.
    apply wallet_funded in Hin as (o & Ho & Hs & Hw).
    rewrite (Hdistinct Hnd f o Hf Ho Hw) in Hs. congruence.
  - exists gp, fv, rv, fe, re.
    split; [exact (stage_history _ _ _ _ _ _ _ _ _ _ _ _ _ Hev) |].
    split; [exact (funding_stage_signs_for_no_account _ _ _ _ _ _ _ _ _ _ _ _ _ Hev) |].
    split; [exact (batch_only_main_submits _ _ _ _ _ _ _ _ _ _ _ _ _ Hev) |].
    split; [exact (batch_every_funded_signs _ _ _ _ _ _ _ _ _ _ _ _ _ Hev) |].
    split; [exact Honly |].
    split; [exact (batch_only_funded_submit _ _ _ _ _ _ _ _ _ _ _ _ _ Hev) |].
    intros Hnd f Hf Hfail tx Hfrom Hin.
    destruct (Honly _ _ Hin) as (o & Ho & Hs & -> & Hkey).
    cbn [returnTx tx_from] in Hfrom.
    assert (Hw : wallet o = wallet f).
    { destruct (wallet o), (wallet f). cbn in *. congruence. }
    rewrite (Hdistinct Hnd f o Hf Ho Hw) in Hs. congruence.
Qed.

Lemma failed_funding_never_returns_witness :
  returns_only_funded Demo.rough [Demo.w0; Demo.w1; Demo.w2]
    (constructor Demo.main 50) Demo.sample_batch_state
    (fst Demo.sample_batch_outcomes) (snd Demo.sample_batch_outcomes) /\
  map success (fst Demo.sample_batch_outcomes) = [true; false; true] /\
  map wallet (snd Demo.sample_batch_outcomes) = [Demo.w0; Demo.w2].
Proof.
  split.
  - exact (failed_funding_never_returns _ _ _ _ _ _ _ _ _ _ sample_batch_returns).
  - split; reflexivity.
Defined.

(** ** The count of accounts created *)

(** C6, as stated, at a concrete input: [BATCH_SIZE] does not parse, so
    that [parseInt] gives NaN and the instance is built with
    [this.batchSize = NaN]; [walletCount] is 3.  The loop makes one turn,
    in which [Math.min(NaN, 3)] is NaN and [createWallets(NaN)] creates no
    account; then [i += NaN] ends it.  The run returns a report with
    [created = 0]. *)
Lemma created_is_zero_when_batchSize_is_NaN :
  let out := createAndManageWallets Demo.quiet Demo.config Demo.taking_turns 1
               (of_int 3) (of_int 1) (constructor Demo.main PrimFloat.nan) in
  isInteger (of_int 3) = true /\
  PrimFloat.ltb PrimFloat.zero (of_int 3) = true /\
  (exists s', out = Some (inr (mkResults [] [] 0), s')) /\
  ~ (forall results s', out = Some (inr results, s') -> created results = 3).
Proof.
  intros out. split; [vm_compute; reflexivity |]. split; [vm_compute; reflexivity |].
  assert (H : exists s', out = Some (inr (mkResults [] [] 0), s')).
  { eexists. vm_compute. reflexivity. }
  split; [exact H |]. destruct H as (s' & H). intros Hall.
  specialize (Hall _ _ H). discriminate Hall.
Qed.

(** C6, amended.  With [this.batchSize] a positive integer [bs] and
    [walletCount] a positive integer [wc], [wc + bs] below 2^53: whenever
    [createAndManageWallets] returns a report, its [created] field is
    [wc], whatever the order in which the answers arrive.  (With fuel for
    [wc] turns every such run ends, in a report or in an error:
    [createAndManageWallets_terminates].) *)
Theorem created_equals_walletCount
  (L : Ledger) (cfg : Config) (arrival : list Event -> nat -> nat) (fuel : nat)
  (wc bs : Z) (fundAmount : number) (s s' : State) (results : Results) :
  0 < wc -> 0 < bs -> wc + bs < 2 ^ 53 ->
  batchSize (this s) = of_int bs ->
  createAndManageWallets L cfg arrival fuel (of_int wc) fundAmount s
    = Some (inr results, s') ->
  created results = wc.
Proof.
  intros Hwc Hbs Hrange Hsize H.
  apply createAndManageWallets_returns in H as (_ & s0 & (_ & Hb & _) & Hloop).
  rewrite zero_is_of_int in Hloop.
  assert (Hnat : 0 <= wc) by lia.
  apply (batchLoop_created L cfg arrival wc bs Hbs Hnat Hrange) in Hloop;
    trivial; cbn [created]; try lia.
  congruence.
Qed.

Lemma created_equals_walletCount_witness : created Demo.sample_results = 3.
Proof.
  exact (created_equals_walletCount Demo.rough Demo.config Demo.taking_turns 10 3 2
           (of_int 1) (constructor Demo.main 2) Demo.sample_state Demo.sample_results
           eq_refl eq_refl eq_refl eq_refl sample_run_returns).
Defined.

(** ** The two sequences of the report *)



(** ** The pre-flight check *)

(** C8.  The claim: the run is aborted before any account is created if
    and only if the balance is below
    [fundAmount * walletCount + perAccountGasReserve * walletCount].  The
    code at the defaults of [main]: 10000 accounts at 0.001 ether each,
    gas at 1 gwei, a balance of 50 ether.  The total of the claim is 10.42
    ether, which the balance covers; the code glues the Number 10 and the
    string "0.42" into "100.42", asks for 100.42 ether and aborts, having
    created no account. *)
Theorem preflight_rejects_a_sufficient_balance :
  let out := createAndManageWallets Demo.quiet Demo.config Demo.taking_turns 0
               (of_int 10000) Demo.milli (constructor Demo.main 50) in
  toWei (toString Demo.milli) = inr (10 ^ 15) /\
  required_total (10 ^ 15) 10000 (2 * GAS_LIMIT * Demo.gwei) = 10420000000000000000 /\
  required_total (10 ^ 15) 10000 (2 * GAS_LIMIT * Demo.gwei) <= 50 * Demo.ether /\
  out = Some (inl (mkError ("Wallet creation failed: Insufficient balance. "
                            ++ "Required: 100.42 ETH, Available: 50 ETH")),
              mkState (this (constructor Demo.main 50))
                      [EvGetBalance "0xMAIN"; EvGetGasPrice] []).
Proof.
  intros out. split; [vm_compute; reflexivity |]. split; [reflexivity |].
  split; [vm_compute; discriminate |]. vm_compute. reflexivity.
Qed.

(** ** The nonce of the return transaction *)


(** ** The error detail in the report *)

(** C10.  For a run of [createAndManageWallets] that returns a report,
    whatever the order in which the answers arrive: every entry of
    [failed] has [error] undefined.  The entries are, batch by batch, one
    per funding outcome with [success = false] followed by one per return
    outcome with [success = false], and each such outcome holds the
    message string of what its task caught: [.message] read off that
    string is undefined. *)
Theorem failed_entries_have_undefined_error
  (L : Ledger) (cfg : Config) (arrival : list Event -> nat -> nat) (fuel : nat)
  (walletCount fundAmount : number) (s s' : State) (results : Results) :
  createAndManageWallets L cfg arrival fuel walletCount fundAmount s
    = Some (inr results, s') ->
  failed_errors_undefined s s' results.
Proof.
  intros H.
  apply createAndManageWallets_report in H as (log & Hlog & Hshape & _ & Hfail).
  split.
  - rewrite Hfail. apply failed_of_batches_undefined.
  - exists log. split; [exact Hlog |]. split; [| exact Hfail].
    revert Hshape. apply Forall_impl. now intros b (_ & Hb).
Qed.

Lemma failed_entries_have_undefined_error_witness :
  failed_errors_undefined (constructor Demo.main 2) Demo.sample_state
    Demo.sample_results /\
  failed Demo.sample_results =
    [mkFailedOp "0xW1" JsUndefined funding; mkFailedOp "0xW2" JsUndefined returning] /\
  map (fun b => map error (filter unsuccessful (fst b) ++ filter unsuccessful (snd b)))
      (rev (returned Demo.sample_state)) =
    [[JsString "rejected: 0xMAIN>0xW1#7"];
     [JsString "Transaction confirmation timeout: 0xH:0xW2>0xMAIN#0"]].
Proof.
  split.
  - exact (failed_entries_have_undefined_error _ _ _ _ _ _ _ _ _ sample_run_returns).
  - split; reflexivity.
Defined.

(* ================================================================== *)
(** * Further properties of the methods *)

(** ** waitForConfirmation *)

Section Waiting.

Variable L : Ledger.
Variable cfg : Config.
Variable txHash : string.

Lemma guarded_poll s :
  try_catch (pollOnce L txHash) (fun _ => ret None) s =
  (inr (poll_result (getTransactionReceipt L (history s) txHash)), polled txHash s).
Proof.
  unfold try_catch, pollOnce, bind, call, poll_result, polled.
  destruct (getTransactionReceipt L (history s) txHash) as [e | [r |]]; trivial.
  now destruct (status r).
Qed.

Lemma pollLoop_step n s :
  pollLoop L cfg txHash (S n) s =
  match poll_result (getTransactionReceipt L (history s) txHash) with
  | Some r => (inr (Some r), polled txHash s)
  | None => pollLoop L cfg txHash n (paused (CONFIRMATION_DELAY cfg) (polled txHash s))
  end.
Proof.
  cbn [pollLoop]. unfold bind at 1. rewrite guarded_poll.
  now destruct (poll_result _).
Qed.

Lemma poll_result_some answer r :
  poll_result answer = Some r -> answer = inr (Some r) /\ status r = true.
Proof.
  destruct answer as [e | [r' |]]; simpl; try discriminate.
  destruct (status r') eqn:Hs; [| discriminate]. intros H. injection H as <-. now split.
Qed.

Lemma poll_result_unconfirmed answer :
  poll_result answer = None <-> confirms answer = false.
Proof.
  destruct answer as [e | [r |]]; simpl; try tauto.
  destruct (status r); split; congruence.
Qed.

(** *** What a wait can end with *)

Lemma pollLoop_returns n : forall s r s',
  pollLoop L cfg txHash n s = (inr (Some r), s') ->
  status r = true /\
  exists h, history s' = EvGetReceipt txHash :: h /\
            getTransactionReceipt L h txHash = inr (Some r).
Proof.
  induction n as [| n IH]; intros s r s' H; [discriminate |].
  rewrite pollLoop_step in H.
  destruct (poll_result _) as [r' |] eqn:Hpoll.
  - injection H as <- <-. apply poll_result_some in Hpoll as (Hanswer & Hstatus).
    split; [exact Hstatus |]. now exists (history s).
  - eapply IH. exact H.
Qed.

Lemma pollRound_returns n s r s' :
  pollRound L cfg txHash n s = (inr r, s') ->
  exists receipt, r = Some receipt /\ pollLoop L cfg txHash n s = (inr (Some receipt), s').
Proof.
  unfold pollRound. intros H. apply bind_inr in H as ([receipt |] & s1 & Hloop & H).
  - injection H as <- <-. now exists receipt.
  - discriminate.
Qed.

Lemma retryLoop_step m rc retry remaining s :
  retryLoop L cfg txHash m rc retry (S remaining) s =
  match pollRound L cfg txHash m s with
  | (inr (Some receipt), s1) => (inr (Some receipt), s1)
  | (inr None, s1) => retryLoop L cfg txHash m rc (S retry) remaining s1
  | (inl e, s1) =>
      if (retry =? rc - 1)%nat then (inl e, s1)
      else retryLoop L cfg txHash m rc (S retry) remaining (paused 5000 s1)
  end.
Proof.
  cbn [retryLoop]. unfold bind at 1, try_catch.
  destruct (pollRound L cfg txHash m s) as [[e | [r |]] s1]; trivial.
  now destruct (retry =? rc - 1)%nat.
Qed.

Lemma retryLoop_outcomes m rc remaining : forall retry s,
  (retry + remaining = rc)%nat ->
  match fst (retryLoop L cfg txHash m rc retry remaining s) with
  | inr (Some r) =>
      status r = true /\
      exists h,
        history (snd (retryLoop L cfg txHash m rc retry remaining s))
          = EvGetReceipt txHash :: h /\
        getTransactionReceipt L h txHash = inr (Some r)
  | inr None => remaining = 0%nat /\ snd (retryLoop L cfg txHash m rc retry remaining s) = s
  | inl e => e = timeout_error txHash /\ (0 < remaining)%nat
  end.
Proof.
  induction remaining as [| remaining IH]; intros retry s Hrc; [now split |].
  rewrite retryLoop_step.
  destruct (pollRound L cfg txHash m s) as [[e | r] s1] eqn:Hround.
  - assert (e = timeout_error txHash) as ->.
    { apply (pollRound_throws_timeout L cfg txHash m s). now rewrite Hround. }
    destruct (retry =? rc - 1)%nat eqn:Hlast.
    + simpl. split; [reflexivity | lia].
    + apply Nat.eqb_neq in Hlast.
      specialize (IH (S retry) (paused 5000 s1)).
      destruct (retryLoop L cfg txHash m rc (S retry) remaining (paused 5000 s1))
        as [[e | [r |]] s2]; cbn [fst snd] in *.
      * split; [apply IH; lia | lia].
      * apply IH; lia.
      * destruct IH as (Hzero & _); lia.
  - apply pollRound_returns in Hround as (receipt & -> & Hloop).
    simpl. eapply pollLoop_returns. exact Hloop.
Qed.

(** *** How much a wait can ask *)

Lemma waited_refl n s : waited txHash n s s.
Proof. repeat split. exists []. repeat split; [constructor | apply Nat.le_0_l]. Qed.

Lemma waited_trans n1 n2 s1 s2 s3 :
  waited txHash n1 s1 s2 -> waited txHash n2 s2 s3 -> waited txHash (n1 + n2) s1 s3.
Proof.
  intros (Ht1 & Hr1 & a1 & Hh1 & Hf1 & Hc1) (Ht2 & Hr2 & a2 & Hh2 & Hf2 & Hc2).
  split; [congruence |]. split; [congruence |].
  exists (a2 ++ a1)%list. split; [| split].
  - rewrite Hh2, Hh1. now rewrite app_assoc.
  - apply Forall_app. now split.
  - unfold occurrences in *. rewrite filter_app, length_app. lia.
Qed.

Lemma waited_more n n' s s' : (n <= n')%nat -> waited txHash n s s' -> waited txHash n' s s'.
Proof.
  intros Hn (Ht & Hr & a & Hh & Hf & Hc). repeat split; trivial.
  exists a. repeat split; trivial. lia.
Qed.

Lemma waited_polled s : waited txHash 1 s (polled txHash s).
Proof.
  repeat split. exists [EvGetReceipt txHash]. repeat split.
  - constructor; [reflexivity | constructor].
  - apply Nat.le_refl.
Qed.

Lemma waited_paused ms s : waited txHash 0 s (paused ms s).
Proof.
  repeat split. exists [EvSleep ms]. repeat split.
  - constructor; [exact I | constructor].
  - apply Nat.le_refl.
Qed.

Lemma pollLoop_waited n : forall s,
  waited txHash n s (snd (pollLoop L cfg txHash n s)).
Proof.
  induction n as [| n IH]; intros s; [apply waited_refl |].
  rewrite pollLoop_step. destruct (poll_result _) as [r |].
  - eapply waited_more; [| apply waited_polled]. lia.
  - change (S n) with (1 + 0 + n)%nat.
    eapply waited_trans; [| apply IH].
    eapply waited_trans; [apply waited_polled | apply waited_paused].
Qed.

Lemma pollRound_waited n s : waited txHash n s (snd (pollRound L cfg txHash n s)).
Proof.
  unfold pollRound, bind. pose proof (pollLoop_waited n s) as H.
  destruct (pollLoop L cfg txHash n s) as [[e | [r |]] s1]; exact H.
Qed.

Lemma retryLoop_waited m rc remaining : forall retry s,
  waited txHash (remaining * m) s (snd (retryLoop L cfg txHash m rc retry remaining s)).
Proof.
  induction remaining as [| remaining IH]; intros retry s; [apply waited_refl |].
  rewrite retryLoop_step.
  pose proof (pollRound_waited m s) as Hround.
  destruct (pollRound L cfg txHash m s) as [[e | r] s1]; cbn [snd] in Hround.
  - destruct (retry =? rc - 1)%nat.
    + eapply waited_more; [| exact Hround]. simpl. lia.
    + change (S remaining * m)%nat with (m + remaining * m)%nat.
      eapply waited_trans; [exact Hround |].
      change (remaining * m)%nat with (0 + remaining * m)%nat.
      eapply waited_trans; [apply waited_paused | apply IH].
  - destruct r as [r |].
    + eapply waited_more; [| exact Hround]. simpl. lia.
    + change (S remaining * m)%nat with (m + remaining * m)%nat.
      eapply waited_trans; [exact Hround | apply IH].
Qed.

(** *** A wait on a node that does not confirm, and on one that does *)

Lemma slept_after_pause ms tx s :
  slept (history (paused ms (polled tx s))) = ms + slept (history s).
Proof. reflexivity. Qed.

Lemma slept_paused ms s : slept (history (paused ms s)) = ms + slept (history s).
Proof. reflexivity. Qed.

Lemma slept_polled tx s : slept (history (polled tx s)) = slept (history s).
Proof. reflexivity. Qed.

Lemma polls_after_pause ms tx s :
  occurrences is_poll (history (paused ms (polled tx s)))
  = S (occurrences is_poll (history s)).
Proof. reflexivity. Qed.

Lemma polls_paused ms s :
  occurrences is_poll (history (paused ms s)) = occurrences is_poll (history s).
Proof. reflexivity. Qed.

Lemma polls_polled tx s :
  occurrences is_poll (history (polled tx s)) = S (occurrences is_poll (history s)).
Proof. reflexivity. Qed.

Lemma pollLoop_unconfirmed n : forall s,
  (forall h, (occurrences is_poll h < occurrences is_poll (history s) + n)%nat ->
             confirms (getTransactionReceipt L h txHash) = false) ->
  exists s',
    pollLoop L cfg txHash n s = (inr None, s') /\
    occurrences is_poll (history s') = (occurrences is_poll (history s) + n)%nat /\
    slept (history s') = slept (history s) + Z.of_nat n * CONFIRMATION_DELAY cfg.
Proof.
  induction n as [| n IH]; intros s Hno.
  - exists s. split; [reflexivity |]. split; lia.
  - rewrite pollLoop_step.
    assert (Hpoll : poll_result (getTransactionReceipt L (history s) txHash) = None).
    { apply poll_result_unconfirmed, Hno. lia. }
    rewrite Hpoll.
    destruct (IH (paused (CONFIRMATION_DELAY cfg) (polled txHash s))) as (s' & Hrun & Hc & Hs).
    { intros h Hh. apply Hno. rewrite polls_after_pause in Hh. lia. }
    rewrite polls_after_pause in Hc. rewrite slept_after_pause in Hs.
    exists s'. split; [exact Hrun |]. split; [lia |].
    rewrite Hs, Nat2Z.inj_succ. lia.
Qed.

Lemma pollLoop_confirmed r j : forall n s,
  (j < n)%nat ->
  (forall h, (occurrences is_poll h < occurrences is_poll (history s) + j)%nat ->
             confirms (getTransactionReceipt L h txHash) = false) ->
  (forall h, occurrences is_poll h = (occurrences is_poll (history s) + j)%nat ->
             getTransactionReceipt L h txHash = inr (Some r)) ->
  status r = true ->
  exists s',
    pollLoop L cfg txHash n s = (inr (Some r), s') /\
    occurrences is_poll (history s') = (occurrences is_poll (history s) + j + 1)%nat /\
    slept (history s') = slept (history s) + Z.of_nat j * CONFIRMATION_DELAY cfg.
Proof.
  induction j as [| j IH]; intros n s Hj Hno Hyes Hstatus;
    (destruct n as [| n]; [lia |]); rewrite pollLoop_step.
  - rewrite (Hyes (history s)) by lia. simpl poll_result. rewrite Hstatus.
    exists (polled txHash s). split; [reflexivity |].
    rewrite polls_polled, slept_polled. split; lia.
  - assert (Hpoll : poll_result (getTransactionReceipt L (history s) txHash) = None).
    { apply poll_result_unconfirmed, Hno. lia. }
    rewrite Hpoll.
    destruct (IH n (paused (CONFIRMATION_DELAY cfg) (polled txHash s)))
      as (s' & Hrun & Hc & Hs); trivial.
    + lia.
    + intros h Hh. apply Hno. rewrite polls_after_pause in Hh. lia.
    + intros h Hh. apply Hyes. rewrite polls_after_pause in Hh. lia.
    + rewrite polls_after_pause in Hc. rewrite slept_after_pause in Hs.
      exists s'. split; [exact Hrun |]. split; [lia |].
      rewrite Hs, Nat2Z.inj_succ. lia.
Qed.

Lemma retryLoop_unconfirmed m rc remaining : forall retry s,
  (retry + remaining = rc)%nat -> (0 < remaining)%nat ->
  (forall h, confirms (getTransactionReceipt L h txHash) = false) ->
  exists s',
    retryLoop L cfg txHash m rc retry remaining s = (inl (timeout_error txHash), s') /\
    occurrences is_poll (history s')
      = (occurrences is_poll (history s) + remaining * m)%nat /\
    slept (history s')
      = slept (history s) + Z.of_nat (remaining * m) * CONFIRMATION_DELAY cfg
        + (Z.of_nat remaining - 1) * 5000.
Proof.
  induction remaining as [| remaining IH]; intros retry s Hrc Hpos Hno; [lia |].
  rewrite retryLoop_step. unfold pollRound, bind.
  destruct (pollLoop_unconfirmed m s) as (s1 & -> & Hc1 & Hs1); [intros; apply Hno |].
  fold (timeout_error txHash). unfold throw.
  destruct (retry =? rc - 1)%nat eqn:Hlast.
  - apply Nat.eqb_eq in Hlast. assert (remaining = 0)%nat as -> by lia.
    exists s1. split; [reflexivity |]. rewrite Nat.mul_1_l. split; [lia |].
    rewrite Hs1. lia.
  - apply Nat.eqb_neq in Hlast.
    destruct (IH (S retry) (paused 5000 s1)) as (s' & Hrun & Hc & Hs); trivial; [lia | lia |].
    rewrite polls_paused in Hc. rewrite slept_paused in Hs.
    change (S remaining * m)%nat with (m + remaining * m)%nat.
    exists s'. split; [exact Hrun |]. split; [lia |].
    rewrite Hs, Hs1, Nat2Z.inj_add, Nat2Z.inj_succ. lia.
Qed.

Lemma retryLoop_confirmed r m rc j q : forall remaining retry s,
  (retry + remaining = rc)%nat -> (q < remaining)%nat -> (j < m)%nat ->
  (forall h, (occurrences is_poll h < occurrences is_poll (history s) + (q * m + j))%nat ->
             confirms (getTransactionReceipt L h txHash) = false) ->
  (forall h, occurrences is_poll h = (occurrences is_poll (history s) + (q * m + j))%nat ->
             getTransactionReceipt L h txHash = inr (Some r)) ->
  status r = true ->
  exists s',
    retryLoop L cfg txHash m rc retry remaining s = (inr (Some r), s') /\
    occurrences is_poll (history s')
      = (occurrences is_poll (history s) + (q * m + j) + 1)%nat /\
    slept (history s')
      = slept (history s) + Z.of_nat (q * m + j) * CONFIRMATION_DELAY cfg
        + Z.of_nat q * 5000.
Proof.
  induction q as [| q IH]; intros remaining retry s Hrc Hq Hj Hno Hyes Hstatus;
    (destruct remaining as [| remaining]; [lia |]); rewrite retryLoop_step;
    unfold pollRound, bind.
  - rewrite Nat.mul_0_l, Nat.add_0_l in *.
    destruct (pollLoop_confirmed r j m s) as (s' & -> & Hc & Hs); trivial.
    exists s'. split; [reflexivity |]. split; [exact Hc |]. rewrite Hs. lia.
  - change (S q * m + j)%nat with (m + q * m + j)%nat in *.
    destruct (pollLoop_unconfirmed m s) as (s1 & -> & Hc1 & Hs1).
    { intros h Hh. apply Hno. lia. }
    fold (timeout_error txHash). unfold throw.
    assert (Hlast : (retry =? rc - 1)%nat = false) by (apply Nat.eqb_neq; lia).
    rewrite Hlast.
    destruct (IH remaining (S retry) (paused 5000 s1)) as (s' & Hrun & Hc & Hs); trivial.
    + lia.
    + lia.
    + intros h Hh. apply Hno. rewrite polls_paused in Hh. lia.
    + intros h Hh. apply Hyes. rewrite polls_paused in Hh. lia.
    + rewrite polls_paused in Hc. rewrite slept_paused in Hs.
      exists s'. split; [exact Hrun |]. split; [lia |].
      rewrite Hs, Hs1, <- Nat.add_assoc, (Nat2Z.inj_add m), Nat2Z.inj_succ. lia.
Qed.

End Waiting.

(** X1.  Whatever the node answers, a call of [waitForConfirmation] ends
    in one of three ways.  It resolves with a receipt: then the receipt has
    [status = true] and is the node's answer to the request for the receipt
    of [txHash] that the call made last, with no pause after it.  It
    resolves with [undefined]: only when [retryCount] is 0, and then
    without having asked anything.  Or it rejects: then [retryCount] is
    positive and the error is the confirmation timeout, no other. *)
Theorem waitForConfirmation_outcomes
  (L : Ledger) (cfg : Config) (txHash : string) (maxAttempts retryCount : nat)
  (s : State) :
  let out := waitForConfirmation L cfg txHash maxAttempts retryCount s in
  match fst out with
  | inr (Some receipt) =>
      status receipt = true /\
      exists h, history (snd out) = EvGetReceipt txHash :: h /\
                getTransactionReceipt L h txHash = inr (Some receipt)
  | inr None => retryCount = 0%nat /\ snd out = s
  | inl e => e = timeout_error txHash /\ (0 < retryCount)%nat
  end.
Proof. apply retryLoop_outcomes. reflexivity. Qed.

(** X2.  Whatever the node answers, a call of [waitForConfirmation]
    changes nothing of [this]; all it does is ask for the receipt of
    [txHash] and pause, and it asks at most [retryCount * maxAttempts]
    times. *)
Theorem waitForConfirmation_poll_budget
  (L : Ledger) (cfg : Config) (txHash : string) (maxAttempts retryCount : nat)
  (s : State) :
  waited txHash (retryCount * maxAttempts) s
    (snd (waitForConfirmation L cfg txHash maxAttempts retryCount s)).
Proof. apply retryLoop_waited. Qed.

(** X3.  On a node that never confirms [txHash] (each request for the
    receipt fails, finds nothing, or finds a receipt with
    [status = false]), a call of [waitForConfirmation] with a positive
    [retryCount] spends its whole budget: it asks
    [retryCount * maxAttempts] times, pauses [CONFIRMATION_DELAY] after
    each request and 5000 ms between rounds, and rejects with the
    timeout. *)
Theorem waitForConfirmation_unconfirmed_times_out
  (L : Ledger) (cfg : Config) (txHash : string) (maxAttempts retryCount : nat)
  (s : State) :
  (0 < retryCount)%nat ->
  (forall h, confirms (getTransactionReceipt L h txHash) = false) ->
  exists s',
    waitForConfirmation L cfg txHash maxAttempts retryCount s
      = (inl (timeout_error txHash), s') /\
    occurrences is_poll (history s')
      = (occurrences is_poll (history s) + retryCount * maxAttempts)%nat /\
    slept (history s')
      = slept (history s)
        + Z.of_nat (retryCount * maxAttempts) * CONFIRMATION_DELAY cfg
        + (Z.of_nat retryCount - 1) * 5000.
Proof.
  intros Hrc Hno. apply retryLoop_unconfirmed; trivial.
Qed.

Lemma waitForConfirmation_unconfirmed_times_out_witness :
  exists s',
    waitForConfirmation Scenario.unmined Demo.config "0xabc" 20 3 (constructor Demo.main 50)
      = (inl (timeout_error "0xabc"), s') /\
    occurrences is_poll (history s') = 60%nat /\
    slept (history s') = 190000.
Proof.
  exact (waitForConfirmation_unconfirmed_times_out Scenario.unmined Demo.config "0xabc"
           20 3 (constructor Demo.main 50) (Nat.lt_0_succ 2) (fun _ => eq_refl)).
Defined.

(** X4.  On a node that does not confirm [txHash] in answer to the first
    [q * maxAttempts + j] requests of a call and answers the next one with
    a receipt of [status = true], with [q < retryCount] and
    [j < maxAttempts], [waitForConfirmation] resolves with that receipt
    after exactly [q * maxAttempts + j + 1] requests, having paused
    [CONFIRMATION_DELAY] after each of the earlier ones and 5000 ms after
    each of the [q] rounds it used up. *)
Theorem waitForConfirmation_returns_first_confirmation
  (L : Ledger) (cfg : Config) (txHash : string) (maxAttempts retryCount : nat)
  (s : State) (receipt : Receipt) (q j : nat) :
  (q < retryCount)%nat -> (j < maxAttempts)%nat ->
  (forall h,
     (occurrences is_poll h < occurrences is_poll (history s) + (q * maxAttempts + j))%nat ->
     confirms (getTransactionReceipt L h txHash) = false) ->
  (forall h,
     occurrences is_poll h = (occurrences is_poll (history s) + (q * maxAttempts + j))%nat ->
     getTransactionReceipt L h txHash = inr (Some receipt)) ->
  status receipt = true ->
  exists s',
    waitForConfirmation L cfg txHash maxAttempts retryCount s = (inr (Some receipt), s') /\
    occurrences is_poll (history s')
      = (occurrences is_poll (history s) + (q * maxAttempts + j) + 1)%nat /\
    slept (history s')
      = slept (history s)
        + Z.of_nat (q * maxAttempts + j) * CONFIRMATION_DELAY cfg
        + Z.of_nat q * 5000.
Proof.
  intros Hq Hj Hno Hyes Hstatus. apply retryLoop_confirmed; trivial.
Qed.

Lemma waitForConfirmation_returns_first_confirmation_witness :
  exists s',
    waitForConfirmation (Scenario.mined_after 25) Demo.config "0xabc" 20 3
      (constructor Demo.main 50)
      = (inr (Some (mkReceipt true "0xabc")), s') /\
    occurrences is_poll (history s') = 26%nat /\
    slept (history s') = 80000.
Proof.
  apply (waitForConfirmation_returns_first_confirmation (Scenario.mined_after 25)
           Demo.config "0xabc" 20 3 (constructor Demo.main 50)
           (mkReceipt true "0xabc") 1 5).
  - lia.
  - lia.
  - intros h Hh.
    change (confirms (if (occurrences is_poll h <? 25)%nat then inr None
                      else inr (Some (mkReceipt true "0xabc"))) = false).
    change (occurrences is_poll h < 25)%nat in Hh.
    destruct (Nat.ltb_spec (occurrences is_poll h) 25); [reflexivity | lia].
  - intros h Hh.
    change ((if (occurrences is_poll h <? 25)%nat then inr None
             else inr (Some (mkReceipt true "0xabc")))
            = @inr Error _ (Some (mkReceipt true "0xabc"))).
    change (occurrences is_poll h = 25%nat) in Hh. rewrite Hh. reflexivity.
  - reflexivity.
Defined.

(** ** createWallets *)

Section Creating.

Variable L : Ledger.

Lemma createLoop_step n acc s :
  createLoop L (S n) acc s =
  match create L (history s) with
  | inr w => createLoop L n (acc ++ [w])
               (mkState (this s) (EvCreate :: history s) (returned s))
  | inl e => (inl e, mkState (this s) (EvCreate :: history s) (returned s))
  end.
Proof.
  cbn [createLoop]. unfold bind, call. now destruct (create L (history s)).
Qed.

Lemma repeat_cons_app {A} (x : A) n l :
  (repeat x n ++ x :: l)%list = (repeat x (S n) ++ l)%list.
Proof. induction n as [| n IH]; simpl; [reflexivity | now rewrite IH]. Qed.

(** The loop asks the node once per wallet, each time after the requests
    before it, and keeps the answers in order. *)
Lemma createLoop_returns n : forall acc s ws s',
  createLoop L n acc s = (inr ws, s') ->
  this s' = this s /\ returned s' = returned s /\
  history s' = (repeat EvCreate n ++ history s)%list /\
  exists new,
    ws = (acc ++ new)%list /\ List.length new = n /\
    forall k w, nth_error new k = Some w ->
      create L (repeat EvCreate k ++ history s) = inr w.
Proof.
  induction n as [| n IH]; intros acc s ws s' H.
  - injection H as <- <-. repeat split. exists []. rewrite app_nil_r.
    repeat split. intros [| k] w Hk; discriminate.
  - rewrite createLoop_step in H.
    destruct (create L (history s)) as [e | w] eqn:Hw; [discriminate |].
    apply IH in H as (Ht & Hr & Hh & new & -> & Hlen & Hnth). cbn [this history returned] in *.
    split; [exact Ht |]. split; [exact Hr |]. split.
    + rewrite Hh. apply repeat_cons_app.
    + exists (w :: new). split; [now rewrite <- app_assoc |]. split; [simpl; lia |].
      intros [| k] w' Hk.
      * injection Hk as <-. exact Hw.
      * cbn [nth_error] in Hk. apply Hnth in Hk.
        now rewrite repeat_cons_app in Hk.
Qed.

Lemma createLoop_throws n : forall acc s e s',
  createLoop L n acc s = (inl e, s') ->
  this s' = this s /\ returned s' = returned s /\
  exists k, (k < n)%nat /\
    history s' = (repeat EvCreate (S k) ++ history s)%list /\
    create L (repeat EvCreate k ++ history s) = inl e.
Proof.
  induction n as [| n IH]; intros acc s e s' H; [discriminate |].
  rewrite createLoop_step in H.
  destruct (create L (history s)) as [e' | w] eqn:Hw.
  - injection H as <- <-. repeat split. exists 0%nat. repeat split; [lia | exact Hw].
  - apply IH in H as (Ht & Hr & k & Hk & Hh & He). cbn [this history returned] in *.
    split; [exact Ht |]. split; [exact Hr |].
    exists (S k). split; [lia |]. split.
    + rewrite Hh. apply repeat_cons_app.
    + now rewrite <- repeat_cons_app.
Qed.

Lemma createWallets_cases count s :
  createWallets L count s =
  match createLoop L (Z.to_nat count) [] s with
  | (inr newWallets, s1) =>
      (inr newWallets,
       mkState (mkManager (mainWallet (this s1)) (batchSize (this s1))
                          (wallets (this s1) ++ newWallets) (currentNonce (this s1)))
               (history s1) (returned s1))
  | (inl e, s1) => (inl e, s1)
  end.
Proof.
  unfold createWallets, bind at 1.
  now destruct (createLoop L (Z.to_nat count) [] s) as [[e | ws] s1].
Qed.

End Creating.

(** X5.  When [createWallets(count)] resolves it has asked the node for
    [count] accounts, one request after the other and nothing else (none
    at all for a [count] of zero or less); it returns the accounts it was
    given, in that order; and it has appended them, in that order, to
    [this.wallets], leaving the rest of [this] alone. *)
Theorem createWallets_appends_what_it_returns
  (L : Ledger) (count : Z) (s s' : State) (newWallets : list Wallet) :
  createWallets L count s = (inr newWallets, s') ->
  List.length newWallets = Z.to_nat count /\
  (forall k w, nth_error newWallets k = Some w ->
     create L (repeat EvCreate k ++ history s) = inr w) /\
  history s' = (repeat EvCreate (Z.to_nat count) ++ history s)%list /\
  this s' = mkManager (mainWallet (this s)) (batchSize (this s))
                      (wallets (this s) ++ newWallets) (currentNonce (this s)) /\
  returned s' = returned s.
Proof.
  rewrite createWallets_cases. intros H.
  destruct (createLoop L (Z.to_nat count) [] s) as [[e | ws] s1] eqn:Hloop; [discriminate |].
  injection H as <- <-.
  apply createLoop_returns in Hloop as (Ht & Hr & Hh & new & -> & Hlen & Hnth).
  cbn [this history returned app]. rewrite Ht. now repeat split.
Qed.

Lemma two_created_returns :
  createWallets Demo.quiet 2 (constructor Demo.main 50)
  = (inr (fst Scenario.two_created), snd Scenario.two_created).
Proof. vm_compute. reflexivity. Qed.

Lemma createWallets_appends_what_it_returns_witness :
  List.length (fst Scenario.two_created) = 2%nat /\
  wallets (this (snd Scenario.two_created)) = [Demo.w0; Demo.w1] /\
  history (snd Scenario.two_created) = [EvCreate; EvCreate].
Proof.
  destruct (createWallets_appends_what_it_returns _ _ _ _ _ two_created_returns)
    as (Hlen & _ & Hhistory & Hthis & _).
  split; [exact Hlen |]. split; [rewrite Hthis; reflexivity | exact Hhistory].
Defined.

(** X6.  When [createWallets(count)] rejects, because the node failed to
    create one of the accounts, [this.wallets] is as it was before the
    call: the accounts created before the failure are tracked nowhere.
    The failing request was one of the [count] and the last the call
    made. *)
Theorem createWallets_failure_tracks_nothing
  (L : Ledger) (count : Z) (s s' : State) (e : Error) :
  createWallets L count s = (inl e, s') ->
  this s' = this s /\ returned s' = returned s /\
  exists k, (k < Z.to_nat count)%nat /\
    history s' = (repeat EvCreate (S k) ++ history s)%list /\
    create L (repeat EvCreate k ++ history s) = inl e.
Proof.
  rewrite createWallets_cases. intros H.
  destruct (createLoop L (Z.to_nat count) [] s) as [[e' | ws] s1] eqn:Hloop; [| discriminate].
  injection H as <- <-. eapply createLoop_throws. exact Hloop.
Qed.

Lemma third_refused_throws :
  createWallets Scenario.creates_two 3 (constructor Demo.main 50)
  = (inl (fst Scenario.third_refused), snd Scenario.third_refused).
Proof. vm_compute. reflexivity. Qed.

Lemma createWallets_failure_tracks_nothing_witness :
  wallets (this (snd Scenario.third_refused)) = [] /\
  history (snd Scenario.third_refused) = [EvCreate; EvCreate; EvCreate].
Proof.
  destruct (createWallets_failure_tracks_nothing _ _ _ _ _ third_refused_throws)
    as (Hthis & _).
  split; [rewrite Hthis; reflexivity | reflexivity].
Defined.

(** ** processBatch *)

Lemma Forall2_in_r {X Y} (R : X -> Y -> Prop) xs ys y :
  Forall2 R xs ys -> In y ys -> exists x, In x xs /\ R x y.
Proof.
  induction 1 as [| x0 y0 xs ys Hxy _ IH]; [contradiction |].
  intros [-> | Hy].
  - exists x0. split; [now left | exact Hxy].
  - destruct (IH Hy) as (x & Hx & Hr). exists x. split; [now right | exact Hr].
Qed.

Lemma bind_inl {A B} (c : M A) (k : A -> M B) s e s' :
  bind c k s = (inl e, s') ->
  c s = (inl e, s') \/ exists a s1, c s = (inr a, s1) /\ k a s1 = (inl e, s').
Proof.
  unfold bind. destruct (c s) as [[e1 | a] s1]; intros H; [left; now injection H as -> -> |].
  right. now exists a, s1.
Qed.

Section Batch.

Variable L : Ledger.
Variable cfg : Config.
Variable arrival : list Event -> nat -> nat.

(** Where [processBatch] can reject. *)
Lemma processBatch_rejects ws fundAmount returnPercentage s e s' :
  processBatch L cfg arrival ws fundAmount returnPercentage s = (inl e, s') ->
  s' = mkState (this s) (EvGetGasPrice :: history s) (returned s) /\
  (getGasPrice L (history s) = inl e \/
   exists gasPrice, getGasPrice L (history s) = inr gasPrice /\
     (toWei (toString fundAmount) = inl e \/
      exists fundValue, toWei (toString fundAmount) = inr fundValue /\
        (returnValueOf fundAmount returnPercentage = inl e \/
         exists returnValue, returnValueOf fundAmount returnPercentage = inr returnValue /\
           CONCURRENT_TRANSACTIONS cfg < 1 /\
           e = mkError "Expected `concurrency` to be a number from 1 and up"))).
Proof.
  unfold processBatch. rewrite try_catch_rethrow. intros H.
  set (s1 := mkState (this s) (EvGetGasPrice :: history s) (returned s)).
  apply bind_inl in H as [H | (gp & s1' & Hgp & H)].
  { unfold call in H. destruct (getGasPrice L (history s)) as [e1 | gp]; [| discriminate].
    injection H as <- <-. split; [reflexivity | now left]. }
  unfold call in Hgp. destruct (getGasPrice L (history s)) as [e1 | gp']; [discriminate |].
  injection Hgp as -> <-. fold s1 in H.
  apply bind_inl in H as [H | (fv & s1' & Hfv & H)].
  { unfold lift in H. injection H as H <-. split; [reflexivity |]. right. exists gp.
    split; trivial. now left. }
  apply lift_inr in Hfv as (Hfv & ->).
  apply bind_inl in H as [H | (rv & s1' & Hrv & H)].
  { unfold lift in H. injection H as H <-. split; [reflexivity |]. right. exists gp.
    split; trivial. right. exists fv. split; trivial. now left. }
  apply lift_inr in Hrv as (Hrv & ->).
  apply bind_inl in H as [H | ([] & s1' & Hlim & H)].
  { unfold pLimit in H. destruct (CONCURRENT_TRANSACTIONS cfg <? 1) eqn:Hlimit;
      [| discriminate].
    injection H as <- <-. split; [reflexivity |]. apply Z.ltb_lt in Hlimit.
    right. exists gp. split; trivial. right. exists fv. split; trivial.
    right. exists rv. now repeat split. }
  assert (s1' = s1) as ->.
  { unfold pLimit in Hlim. destruct (CONCURRENT_TRANSACTIONS cfg <? 1);
      [discriminate | now injection Hlim as <-]. }
  exfalso.
  apply bind_inl in H as [H | (fs & s2 & Hfund & H)].
  { destruct (funding_stage L cfg arrival gp fv ws s1) as [_ (fs & Hfs & _)].
    rewrite H in Hfs. discriminate. }
  apply bind_inl in H as [H | (rs & s3 & Hret & H)].
  { destruct (return_stage_run L cfg arrival (mainWallet (this s2)) gp rv
                (map wallet (filter success fs)) s2 eq_refl) as [_ (rs & Hrs & _)].
    rewrite H in Hrs. discriminate. }
  apply bind_inl in H as [H | ([] & s4 & Hrec & H)]; discriminate.
Qed.

End Batch.

(** X7.  [processBatch] rejects only before any task has started: when
    the request for the gas price fails, when [fundAmount] or the amount to
    return does not convert to wei, or when [CONCURRENT_TRANSACTIONS] is
    below 1, in this order.  By then it has asked for the gas price and
    done nothing else.  Once the tasks are set up the call resolves,
    whatever becomes of the single transfers and whatever the order in
    which the answers arrive. *)
Theorem processBatch_rejects_before_any_task
  (L : Ledger) (cfg : Config) (arrival : list Event -> nat -> nat)
  (ws : list Wallet) (fundAmount returnPercentage : number)
  (s s' : State) (e : Error) :
  processBatch L cfg arrival ws fundAmount returnPercentage s = (inl e, s') ->
  s' = mkState (this s) (EvGetGasPrice :: history s) (returned s) /\
  (getGasPrice L (history s) = inl e \/
   exists gasPrice, getGasPrice L (history s) = inr gasPrice /\
     (toWei (toString fundAmount) = inl e \/
      exists fundValue, toWei (toString fundAmount) = inr fundValue /\
        (returnValueOf fundAmount returnPercentage = inl e \/
         exists returnValue, returnValueOf fundAmount returnPercentage = inr returnValue /\
           CONCURRENT_TRANSACTIONS cfg < 1 /\
           e = mkError "Expected `concurrency` to be a number from 1 and up"))).
Proof. apply processBatch_rejects. Qed.

Lemma batch_without_slot_throws :
  processBatch Demo.quiet Scenario.no_slot Demo.taking_turns [Demo.w0; Demo.w1]
    (of_int 1) (of_int 95) (constructor Demo.main 50)
  = (inl (fst Scenario.batch_without_slot), snd Scenario.batch_without_slot).
Proof. vm_compute. reflexivity. Qed.

Lemma processBatch_rejects_before_any_task_witness :
  history (snd Scenario.batch_without_slot) = [EvGetGasPrice] /\
  fst Scenario.batch_without_slot
  = mkError "Expected `concurrency` to be a number from 1 and up".
Proof.
  destruct (processBatch_rejects_before_any_task _ _ _ _ _ _ _ _ _
              batch_without_slot_throws)
    as (Hstate & _).
  split; [rewrite Hstate; reflexivity | reflexivity].
Defined.



(** What an outcome with [success = true] stands for. *)
Lemma batch_confirmations
  (L : Ledger) (cfg : Config) (arrival : list Event -> nat -> nat)
  (ws : list Wallet) (fundAmount returnPercentage : number)
  (s s' : State) (fundResults returnResults : list Outcome) :
  processBatch L cfg arrival ws fundAmount returnPercentage s
    = (inr (fundResults, returnResults), s') ->
  exists gasPrice fundValue returnValue,
    getGasPrice L (history s) = inr gasPrice /\
    toWei (toString fundAmount) = inr fundValue /\
    returnValueOf fundAmount returnPercentage = inr returnValue /\
    (forall o, In o fundResults -> success o = true ->
       funding_confirmed L (mainWallet (this s)) (history s')
         gasPrice fundValue (wallet o)) /\
    (forall o, In o returnResults -> success o = true ->
       return_confirmed L (mainWallet (this s)) (history s')
         gasPrice returnValue (wallet o)).
Proof.
  intros H. apply processBatch_events in H as (gp & fv & rv & fe & re & Hev & _).
  destruct Hev as [Hgp Hfv Hrv _ _ _ Hfunded Hreturned].
  exists gp, fv, rv. repeat split; trivial.
  - intros o Ho Hs.
    destruct (Forall2_in_r _ _ _ _ Hfunded Ho) as (w & _ & (Hw & _) & Hc).
    rewrite Hw. now apply Hc.
  - intros o Ho Hs.
    destruct (Forall2_in_r _ _ _ _ Hreturned Ho) as (w & _ & (Hw & _) & _ & Hc).
    rewrite Hw. now apply Hc.
Qed.





(** ** createAndManageWallets *)

Section Turns.

Variable L : Ledger.
Variable cfg : Config.
Variable arrival : list Event -> nat -> nat.

Lemma paused_or_not (b : bool) ms s :
  (if b then sleep ms else ret tt) s = (inr tt, if b then paused ms s else s).
Proof. now destruct b. Qed.

Lemma batchBody_turn walletCount fundAmount i results s results' s' :
  batchBody L cfg arrival walletCount fundAmount i results s = (inr results', s') ->
  exists t,
    turn_at L cfg arrival walletCount fundAmount i s t s' /\ results' = add_turn results t.
Proof.
  unfold batchBody. intros H.
  apply bind_inr in H as (me & s0 & Hme & H). injection Hme as <- <-.
  apply bind_inr in H as (newWallets & s1 & Hcreate & H).
  pose proof (createWallets_length _ _ _ _ _ Hcreate) as Hlen.
  assert (Hadv : advance create_event s s1).
  { replace s1 with (snd (createWallets L (iterations
        (Math_min (batchSize (this s)) (PrimFloat.sub walletCount i))) s))
      by now rewrite Hcreate.
    now apply (emits_createWallets L (mainWallet (this s))). }
  destruct Hadv as (_ & Hb1 & _).
  apply bind_inr in H as ([fundResults returnResults] & s2 & Hbatch & H).
  pose proof Hbatch as Hrun.
  apply processBatch_run in Hrun as (gp & rv & fe & re & Hrun).
  destruct Hrun as [_ _ Hfunded Hreturned _ Hb2 _ _ _ _].
  cbn beta iota in H. unfold bind at 1 in H.
  rewrite forEach_record_fund in H
    by (eapply outcomes_string_errors; exact Hfunded).
  unfold bind at 1 in H.
  rewrite forEach_record_return_stage in H
    by (eapply outcomes_string_errors; exact Hreturned).
  unfold bind at 1 in H. unfold bind at 1, get_this in H.
  rewrite paused_or_not in H. injection H as <- <-.
  exists (mkTurn newWallets s1 s2 (fundResults, returnResults)).
  split.
  - split; [exact Hcreate |]. split; [exact Hbatch |].
    cbn [turn_processed]. now rewrite Hb2, Hb1.
  - unfold add_turn, batch_successful, batch_failed. cbn.
    now rewrite <- app_assoc.
Qed.

Lemma turn_at_batchSize walletCount fundAmount i s t s' :
  turn_at L cfg arrival walletCount fundAmount i s t s' ->
  batchSize (this s') = batchSize (this s) /\
  mainWallet (this s') = mainWallet (this s).
Proof.
  destruct t as [newWallets s1 s2 [fundResults returnResults]].
  unfold turn_at. cbn [turn_wallets turn_created turn_processed turn_results].
  intros (Hcreate & Hbatch & ->).
  assert (Hadv : advance create_event s s1).
  { replace s1
      with (snd (createWallets L (iterations
        (Math_min (batchSize (this s)) (PrimFloat.sub walletCount i))) s))
      by now rewrite Hcreate.
    now apply (emits_createWallets L (mainWallet (this s))). }
  destruct Hadv as (Hm1 & Hb1 & _).
  apply processBatch_run in Hbatch as (gp & rv & fe & re & Hrun).
  destruct Hrun as [_ _ _ _ Hm2 Hb2 _ _ _ _].
  destruct (PrimFloat.ltb _ _); cbn [paused this]; split; congruence.
Qed.

(** A loop that ends normally, as the chain of its turns. *)
Lemma batchLoop_turns fuel walletCount fundAmount : forall i results s results' s',
  batchLoop L cfg arrival fuel walletCount fundAmount i results s
    = Some (inr results', s') ->
  exists turns,
    turns_from L cfg arrival walletCount fundAmount i s turns s' /\
    results' = fold_left add_turn turns results.
Proof.
  induction fuel as [| fuel IH]; intros i results s results' s' H; cbn [batchLoop] in H.
  - destruct (PrimFloat.ltb i walletCount) eqn:Hi; [discriminate |].
    injection H as <- <-. now exists [].
  - destruct (PrimFloat.ltb i walletCount) eqn:Hi.
    + destruct (endless _); [discriminate |].
      destruct (batchBody L cfg arrival walletCount fundAmount i results s)
        as [[e | results1] s1] eqn:Hbody; [discriminate |].
      apply batchBody_turn in Hbody as (t & Ht & ->).
      destruct (turn_at_batchSize _ _ _ _ _ _ Ht) as (Hb & _). rewrite Hb in H.
      apply IH in H as (turns & Hturns & ->).
      exists (t :: turns). split; [| reflexivity].
      split; [exact Hi |]. now exists s1.
    + injection H as <- <-. now exists [].
Qed.

End Turns.

(** *** The run, turn by turn *)

Lemma filter_split {A} (p : A -> bool) l :
  Permutation (filter p l ++ filter (fun x => negb (p x)) l) l.
Proof.
  induction l as [| x l IH]; simpl; [constructor |].
  destruct (p x); simpl.
  - now constructor.
  - symmetry. apply Permutation_cons_app. now symmetry.
Qed.

Lemma fold_add_turn turns : forall results,
  successful (fold_left add_turn turns results)
    = (successful results
       ++ List.concat (map (fun t => batch_successful (turn_results t)) turns))%list /\
  failed (fold_left add_turn turns results)
    = (failed results
       ++ List.concat (map (fun t => batch_failed (turn_results t)) turns))%list /\
  created (fold_left add_turn turns results)
    = created results
      + Z.of_nat (List.length (List.concat (map turn_wallets turns))).
Proof.
  induction turns as [| t turns IH]; intros results; cbn [fold_left map List.concat].
  - rewrite !app_nil_r. simpl. repeat split. lia.
  - destruct (IH (add_turn results t)) as (-> & -> & ->).
    unfold add_turn. cbn [successful failed created].
    rewrite <- !app_assoc, length_app. repeat split. lia.
Qed.

Section Runs.

Variable L : Ledger.
Variable cfg : Config.
Variable arrival : list Event -> nat -> nat.

(** The outcomes of a batch against its wallets. *)
Lemma batch_outcomes ws fundAmount returnPercentage s fundResults returnResults s' :
  processBatch L cfg arrival ws fundAmount returnPercentage s
    = (inr (fundResults, returnResults), s') ->
  map wallet fundResults = ws /\
  map wallet returnResults = map wallet (filter success fundResults) /\
  returned s' = (fundResults, returnResults) :: returned s /\
  mainWallet (this s') = mainWallet (this s) /\
  batchSize (this s') = batchSize (this s) /\
  wallets (this s') = wallets (this s) /\
  exists added, history s' = (added ++ history s)%list.
Proof.
  intros H.
  apply processBatch_events in H as (gp & fv & rv & fe & re & Hev & (Hm & Hb & Hw) & Hlog).
  pose proof (batch_fund_wallets _ _ _ _ _ _ _ _ _ _ _ _ _ Hev) as Hfw.
  pose proof (batch_return_wallets _ _ _ _ _ _ _ _ _ _ _ _ _ Hev) as Hrw.
  repeat split; trivial.
  exists (re ++ fe ++ [EvGetGasPrice])%list.
  rewrite (stage_history _ _ _ _ _ _ _ _ _ _ _ _ _ Hev), <- !app_assoc. reflexivity.
Qed.

(** Each wallet of a batch is named once by what the batch adds to the
    report. *)
Lemma batch_names_each_wallet_once ws fundAmount returnPercentage s b s' :
  processBatch L cfg arrival ws fundAmount returnPercentage s = (inr b, s') ->
  Permutation (batch_successful b ++ map fo_address (batch_failed b))
              (map address ws).
Proof.
  destruct b as [fs rs]. intros H.
  apply batch_outcomes in H as (Hfs & Hrs & _). subst ws.
  unfold batch_successful, batch_failed. cbn [fst snd].
  rewrite map_app, !map_map. cbn [fo_address failed_funding failed_returning].
  rewrite <- !(map_map wallet address).
  set (addr := map address).
  transitivity (addr (map wallet (filter unsuccessful fs))
                ++ (addr (map wallet (filter success rs))
                    ++ addr (map wallet (filter unsuccessful rs))))%list.
  { apply Permutation_app_swap_app. }
  transitivity (addr (map wallet (filter unsuccessful fs)) ++ addr (map wallet rs))%list.
  { apply Permutation_app_head. unfold addr. rewrite <- !map_app.
    do 2 apply Permutation_map. apply filter_split. }
  rewrite Hrs. unfold addr. rewrite <- !map_app. do 2 apply Permutation_map.
  rewrite Permutation_app_comm. apply filter_split.
Qed.

(** What the turns of a loop leave behind. *)
Lemma turns_effect walletCount fundAmount turns : forall i s s',
  turns_from L cfg arrival walletCount fundAmount i s turns s' ->
  mainWallet (this s') = mainWallet (this s) /\
  batchSize (this s') = batchSize (this s) /\
  wallets (this s') = (wallets (this s) ++ List.concat (map turn_wallets turns))%list /\
  returned s' = (rev (map turn_results turns) ++ returned s)%list /\
  (exists more, history s' = (more ++ history s)%list) /\
  Forall (fun t =>
            processBatch L cfg arrival (turn_wallets t) fundAmount (of_int 95)
                         (turn_created t)
              = (inr (turn_results t), turn_processed t) /\
            mainWallet (this (turn_created t)) = mainWallet (this s) /\
            exists more, history s' = (more ++ history (turn_processed t))%list) turns.
Proof.
  induction turns as [| t turns IH]; intros i s s' H; cbn [turns_from] in H.
  - destruct H as (_ & ->). rewrite app_nil_r. repeat split; trivial. now exists [].
  - destruct H as (_ & s1 & Hturn & Hrest).
    apply IH in Hrest as (Hm & Hb & Hw & Hr & (more & Hmore) & Hruns).
    destruct t as [ws sc sp [fs rs]]. destruct Hturn as (Hcreate & Hbatch & Hs1).
    cbn [turn_wallets turn_created turn_processed turn_results] in *.
    rewrite createWallets_cases in Hcreate.
    destruct (createLoop L _ [] s) as [[e | ws'] s0] eqn:Hloop; [discriminate |].
    injection Hcreate as -> <-.
    apply createLoop_returns in Hloop as (Ht0 & Hr0 & Hh0 & _).
    pose proof Hbatch as Hrun.
    apply batch_outcomes in Hrun as (_ & _ & Hlog & Hm2 & Hb2 & Hw2 & added & Hh2).
    cbn [this history returned mainWallet batchSize wallets] in *.
    assert (Hsame : this s1 = this sp /\ returned s1 = returned sp /\
                    exists pause, history s1 = (pause ++ history sp)%list).
    { subst s1. destruct (PrimFloat.ltb _ _); cbn [paused this history returned].
      - repeat split. now exists [EvSleep 1000].
      - repeat split. now exists []. }
    destruct Hsame as (Ht1 & Hr1 & pause & Hh1).
    rewrite Ht1, Hr1 in *. clear Hs1.
    split; [congruence |]. split; [congruence |].
    split; [| split; [| split]].
    + rewrite Hw, Hw2, Ht0, <- app_assoc. reflexivity.
    + rewrite Hr, Hlog, Hr0. cbn [map rev]. rewrite <- app_assoc. reflexivity.
    + eexists (more ++ pause ++ added ++ repeat EvCreate _)%list.
      rewrite Hmore, Hh1, Hh2, Hh0, <- !app_assoc. reflexivity.
    + constructor.
      * cbn [turn_wallets turn_created turn_processed turn_results this mainWallet].
        split; [exact Hbatch |]. split; [now rewrite Ht0 |].
        exists (more ++ pause)%list. rewrite Hmore, Hh1, <- app_assoc. reflexivity.
      * revert Hruns. apply Forall_impl. intros t (Hrun & Hmt & Hht).
        split; [exact Hrun |]. split; [congruence | exact Hht].
Qed.

Lemma batch_sizes_one n size : 0 < n <= size -> batch_sizes n size = [n].
Proof.
  intros Hn. unfold batch_sizes.
  destruct (Z.eq_dec n size) as [-> | Hne].
  - rewrite Z.div_same, Z.mod_same by lia. reflexivity.
  - rewrite Z.div_small, Z.mod_small by lia. simpl.
    destruct (n =? 0) eqn:H0; [apply Z.eqb_eq in H0; lia | reflexivity].
Qed.

Lemma batch_sizes_more n size :
  0 < size < n -> batch_sizes n size = size :: batch_sizes (n - size) size.
Proof.
  intros Hn. unfold batch_sizes.
  assert (Hdiv : n / size = (n - size) / size + 1).
  { rewrite <- Z.div_add by lia. f_equal. lia. }
  assert (Hmod : n mod size = (n - size) mod size).
  { rewrite <- (Z.mod_add (n - size) 1 size) by lia. f_equal. lia. }
  rewrite Hdiv, Hmod.
  rewrite Z2Nat.inj_add by (try apply Z.div_pos; lia).
  rewrite Nat.add_comm. reflexivity.
Qed.

(** The batches of a loop over integers are cut to the batch size. *)
Lemma turns_sizes wc bs fundAmount turns : forall k s s',
  0 < bs -> wc + bs < 2 ^ 53 ->
  batchSize (this s) = of_int bs ->
  0 <= k < wc ->
  turns_from L cfg arrival (of_int wc) fundAmount (of_int k) s turns s' ->
  map (fun t => Z.of_nat (List.length (turn_wallets t))) turns
  = batch_sizes (wc - k) bs.
Proof.
  induction turns as [| t turns IH]; intros k s s' Hbs Hrange Hsize Hk H.
  { cbn [turns_from] in H. destruct H as (H & _). rewrite of_int_ltb in H by lia.
    apply Z.ltb_ge in H. lia. }
  cbn [turns_from] in H. destruct H as (_ & s1 & Hturn & Hrest).
  destruct (turn_at_batchSize _ _ _ _ _ _ _ _ _ Hturn) as (Hb & _).
  destruct Hturn as (Hcreate & _ & _).
  apply createWallets_length in Hcreate. cbn [map]. rewrite Hcreate.
  rewrite Hsize, batch_size_at by lia.
  rewrite Hsize, of_int_add in Hrest by lia.
  destruct (Z_lt_le_dec (k + bs) wc) as [Hmore | Hlast].
  - assert (Hsize1 : batchSize (this s1) = of_int bs) by congruence.
    assert (Hk1 : 0 <= k + bs < wc) by lia.
    rewrite (IH _ _ _ Hbs Hrange Hsize1 Hk1 Hrest).
    rewrite (batch_sizes_more (wc - k)) by lia.
    f_equal; [lia | f_equal; lia].
  - destruct turns as [| t' turns'].
    + rewrite batch_sizes_one by lia. cbn [map]. f_equal. lia.
    + cbn [turns_from] in Hrest. destruct Hrest as (Hlt & _).
      rewrite of_int_ltb in Hlt by lia.
      apply Z.ltb_lt in Hlt. lia.
Qed.

(** A run that returns a report: the preflight, then the turns. *)
Lemma run_turns fuel walletCount fundAmount s results s' :
  createAndManageWallets L cfg arrival fuel walletCount fundAmount s
    = Some (inr results, s') ->
  exists s0 turns,
    preflight L walletCount fundAmount s = (inr tt, s0) /\
    turns_from L cfg arrival walletCount fundAmount PrimFloat.zero s0 turns s' /\
    results = fold_left add_turn turns (mkResults [] [] 0).
Proof.
  unfold createAndManageWallets. intros H.
  destruct (negb _ || _); [discriminate |].
  destruct (PrimFloat.leb fundAmount PrimFloat.zero); [discriminate |].
  destruct (preflight L walletCount fundAmount s) as [[e | []] s0]; [discriminate |].
  exists s0.
  destruct (batchLoop L cfg arrival fuel walletCount fundAmount PrimFloat.zero
              (mkResults [] [] 0) s0)
    as [[[e | r] s1] |] eqn:Hloop; try discriminate.
  injection H as <- <-. apply batchLoop_turns in Hloop as (turns & Hturns & Hfold).
  now exists turns.
Qed.

Lemma preflight_frame walletCount fundAmount s :
  this (snd (preflight L walletCount fundAmount s)) = this s /\
  returned (snd (preflight L walletCount fundAmount s)) = returned s /\
  exists added,
    history (snd (preflight L walletCount fundAmount s)) = (added ++ history s)%list.
Proof.
  unfold preflight, checkMainBalance, bind, get_this, call, lift, throw, ret.
  cbn [this history returned].
  destruct (getGasPrice L (history s)) as [e | gp]; cbn [snd this history returned].
  { repeat split. now exists [EvGetGasPrice]. }
  destruct (toBN _) as [e | units]; cbn [snd this history returned].
  { repeat split. now exists [EvGetGasPrice]. }
  destruct (getBalance L _ _) as [e | b]; [| destruct (toWei _) as [e | w]; [| destruct (b <? w)]];
    cbn [snd this history returned]; repeat split;
    now exists [EvGetBalance (address (mainWallet (this s))); EvGetGasPrice].
Qed.

Lemma turns_name_each_wallet_once fundAmount (turns : list Turn) :
  Forall (fun t => exists s1 s2,
            processBatch L cfg arrival (turn_wallets t) fundAmount (of_int 95) s1
              = (inr (turn_results t), s2)) turns ->
  Permutation
    (List.concat (map (fun t => batch_successful (turn_results t)) turns)
     ++ map fo_address (List.concat (map (fun t => batch_failed (turn_results t)) turns)))
    (map address (List.concat (map turn_wallets turns))).
Proof.
  induction 1 as [| t turns (s1 & s2 & Hrun) _ IH]; cbn [map List.concat]; [constructor |].
  apply batch_names_each_wallet_once in Hrun.
  rewrite !map_app, <- app_assoc.
  etransitivity; [| apply Permutation_app; [exact Hrun | exact IH]].
  rewrite <- !app_assoc. apply Permutation_app_head.
  apply Permutation_app_swap_app.
Qed.

End Runs.

Lemma in_concat_map {A B} (f : A -> list B) l b :
  In b (List.concat (map f l)) -> exists a, In a l /\ In b (f a).
Proof.
  intros H. apply in_concat in H as (bs & Hbs & Hb).
  apply in_map_iff in Hbs as (a & <- & Ha). now exists a.
Qed.

(** X10.  For a run of [createAndManageWallets] that returns a report,
    whatever the order in which the answers arrive: [this.wallets] has
    grown by the wallets created in the run, in the order of their
    creation, [created] counts them, and the report names every one of
    them once, as successful or as failed: the addresses in [successful]
    followed by the addresses of the entries of [failed] are those of the
    new wallets, in some order. *)
Theorem report_names_every_created_wallet_once
  (L : Ledger) (cfg : Config) (arrival : list Event -> nat -> nat) (fuel : nat)
  (walletCount fundAmount : number) (s s' : State) (results : Results) :
  createAndManageWallets L cfg arrival fuel walletCount fundAmount s
    = Some (inr results, s') ->
  exists newWallets,
    wallets (this s') = (wallets (this s) ++ newWallets)%list /\
    Z.of_nat (List.length newWallets) = created results /\
    Permutation (reported results) (map address newWallets).
Proof.
  intros H.
  apply run_turns in H as (s0 & turns & Hpre & Hturns & ->).
  destruct (preflight_frame L walletCount fundAmount s) as (Ht0 & _).
  rewrite Hpre in Ht0. cbn [snd] in Ht0.
  destruct (turns_effect _ _ _ _ _ _ _ _ _ Hturns) as (_ & _ & Hw & _ & _ & Hruns).
  destruct (fold_add_turn turns (mkResults [] [] 0)) as (Hs & Hf & Hc).
  exists (List.concat (map turn_wallets turns)).
  split; [now rewrite Hw, Ht0 |]. split; [now rewrite Hc |].
  unfold reported. rewrite Hs, Hf. cbn [successful failed app].
  apply (turns_name_each_wallet_once L cfg arrival fundAmount).
  revert Hruns. apply Forall_impl. intros t (Hrun & _).
  now exists (turn_created t), (turn_processed t).
Qed.

Lemma report_names_every_created_wallet_once_witness :
  exists newWallets,
    wallets (this Demo.sample_state) = newWallets /\
    Z.of_nat (List.length newWallets) = 3 /\
    Permutation (reported Demo.sample_results) (map address newWallets).
Proof.
  exact (report_names_every_created_wallet_once _ _ _ _ _ _ _ _ _ sample_run_returns).
Defined.



(** X12.  With [this.batchSize] a positive integer [bs] and [walletCount]
    a positive integer [wc], [wc + bs] below 2^53, a run of
    [createAndManageWallets] that returns a report processed its wallets
    in batches of [bs], the last one taking what was left: [wc / bs]
    batches of [bs] wallets, followed by one of [wc mod bs] when that is
    not zero. *)
Theorem batches_are_cut_to_batchSize
  (L : Ledger) (cfg : Config) (arrival : list Event -> nat -> nat) (fuel : nat)
  (wc bs : Z) (fundAmount : number) (s s' : State) (results : Results) :
  0 < wc -> 0 < bs -> wc + bs < 2 ^ 53 ->
  batchSize (this s) = of_int bs ->
  createAndManageWallets L cfg arrival fuel (of_int wc) fundAmount s
    = Some (inr results, s') ->
  exists log,
    returned s' = (log ++ returned s)%list /\
    map (fun b => Z.of_nat (List.length (fst b))) (rev log) = batch_sizes wc bs.
Proof.
  intros Hwc Hbs Hrange Hsize H.
  apply run_turns in H as (s0 & turns & Hpre & Hturns & _).
  destruct (preflight_frame L (of_int wc) fundAmount s) as (Ht0 & Hr0 & _).
  rewrite Hpre in Ht0, Hr0. cbn [snd] in Ht0, Hr0.
  rewrite zero_is_of_int in Hturns.
  assert (Hsize0 : batchSize (this s0) = of_int bs) by congruence.
  assert (Hk0 : 0 <= 0 < wc) by lia.
  pose proof (turns_sizes _ _ _ wc bs _ _ 0 _ _ Hbs Hrange Hsize0 Hk0 Hturns)
    as Hsizes.
  destruct (turns_effect _ _ _ _ _ _ _ _ _ Hturns) as (_ & _ & _ & Hr & _ & Hruns).
  rewrite Z.sub_0_r in Hsizes.
  exists (rev (map turn_results turns)). split; [now rewrite Hr, Hr0 |].
  rewrite rev_involutive, map_map, <- Hsizes.
  apply map_ext_in. intros t Ht. rewrite Forall_forall in Hruns.
  destruct (Hruns t Ht) as (Hrun & _). destruct t as [ws sc sp [fs rs]].
  cbn [turn_wallets turn_created turn_processed turn_results fst] in *.
  apply batch_outcomes in Hrun as (<- & _). now rewrite length_map.
Qed.

Lemma batches_are_cut_to_batchSize_witness :
  exists log,
    returned Demo.sample_state = (log ++ [])%list /\
    map (fun b => Z.of_nat (List.length (fst b))) (rev log) = [2; 1].
Proof.
  exact (batches_are_cut_to_batchSize Demo.rough Demo.config Demo.taking_turns 10 3 2
           (of_int 1) (constructor Demo.main 2) Demo.sample_state Demo.sample_results
           eq_refl eq_refl eq_refl eq_refl sample_run_returns).
Defined.

(** X13.  With a [this.batchSize] of zero or less, a run of
    [createAndManageWallets] never returns a report: however long it is
    followed, it has either stopped on an error or is still in the loop,
    whose index never gets past [walletCount]. *)
Theorem nonpositive_batch_size_never_reports
  (L : Ledger) (cfg : Config) (arrival : list Event -> nat -> nat) (fuel : nat)
  (walletCount fundAmount : number) (s : State) :
  PrimFloat.leb (batchSize (this s)) PrimFloat.zero = true ->
  match createAndManageWallets L cfg arrival fuel walletCount fundAmount s with
  | Some (inr results, _) => False
  | Some (inl e, _) => True
  | None => True
  end.
Proof.
  intros Hbs.
  destruct (createAndManageWallets L cfg arrival fuel walletCount fundAmount s)
    as [[[e | results] s'] |] eqn:H; trivial.
  apply createAndManageWallets_returns in H as (Hwc & s0 & (_ & Hb & _) & Hloop).
  apply batchLoop_spins in Hloop as (e & He); trivial; [discriminate | now rewrite Hb].
Qed.

Lemma nonpositive_batch_size_never_reports_witness :
  match createAndManageWallets Demo.quiet Demo.config Demo.taking_turns 5 (of_int 3)
          (of_int 1) (constructor Demo.main 0) with
  | Some (inr results, _) => False
  | Some (inl e, _) => True
  | None => True
  end.
Proof.
  exact (nonpositive_batch_size_never_reports Demo.quiet Demo.config Demo.taking_turns 5
           (of_int 3) (of_int 1) (constructor Demo.main 0) eq_refl).
Defined.

(** ** A run on a node whose transfers fail *)

Section Completion.

Variable L : Ledger.
Variable cfg : Config.
Variable arrival : list Event -> nat -> nat.
Variable fundAmount : number.

Hypothesis Hcreate : creates_accounts L.
Hypothesis Hquote : quotes_gas_price L.
Hypothesis Hconvert : converts fundAmount.
Hypothesis Hlimit : 1 <= CONCURRENT_TRANSACTIONS cfg.

Lemma createLoop_total n : forall acc s,
  exists ws s', createLoop L n acc s = (inr ws, s').
Proof.
  induction n as [| n IH]; intros acc s; [now exists acc, s |].
  rewrite createLoop_step. destruct (Hcreate (history s)) as (w & ->). apply IH.
Qed.

Lemma processBatch_total ws s :
  exists b s', processBatch L cfg arrival ws fundAmount (of_int 95) s = (inr b, s').
Proof.
  destruct (processBatch L cfg arrival ws fundAmount (of_int 95) s) as [[e | b] s'] eqn:H;
    [| now exists b, s'].
  exfalso. apply processBatch_rejects in H as (_ & H).
  destruct (Hquote (history s)) as (gp & Hgp).
  destruct Hconvert as ((fv & Hfv) & (rv & Hrv)).
  destruct H as [H | (gp' & _ & [H | (fv' & _ & [H | (rv' & _ & H & _)])])];
    try congruence. lia.
Qed.

Lemma batchBody_total walletCount i results s :
  exists results' s',
    batchBody L cfg arrival walletCount fundAmount i results s = (inr results', s').
Proof.
  unfold batchBody. unfold bind at 1, get_this. unfold bind at 1.
  rewrite createWallets_cases.
  destruct (createLoop_total
              (Z.to_nat (iterations (Math_min (batchSize (this s))
                                              (PrimFloat.sub walletCount i)))) [] s)
    as (ws & s1 & ->).
  unfold bind at 1.
  match goal with
  | |- context [processBatch L cfg arrival ws fundAmount (of_int 95) ?st] =>
      destruct (processBatch_total ws st) as ([fs rs] & s2 & Hbatch)
  end.
  rewrite Hbatch. pose proof Hbatch as Hrun.
  apply processBatch_run in Hrun as (gp & rv & fe & re & Hrun).
  destruct Hrun as [_ _ Hfunded Hreturned _ _ _ _ _ _].
  cbn beta iota. unfold bind at 1.
  rewrite forEach_record_fund by (eapply outcomes_string_errors; exact Hfunded).
  unfold bind at 1.
  rewrite forEach_record_return_stage by (eapply outcomes_string_errors; exact Hreturned).
  unfold bind at 1. unfold bind at 1, get_this.
  rewrite paused_or_not. now eexists _, _.
Qed.

Lemma batchLoop_completes wc bs fuel : forall k results s,
  0 < bs -> 0 <= wc -> wc + bs < 2 ^ 53 ->
  batchSize (this s) = of_int bs ->
  0 <= k < wc + bs ->
  (Z.to_nat (wc - k) <= fuel)%nat ->
  exists results' s',
    batchLoop L cfg arrival fuel (of_int wc) fundAmount (of_int k) results s
      = Some (inr results', s').
Proof.
  induction fuel as [| fuel IH]; intros k results s Hbs Hwc Hrange Hsize Hk Hfuel;
    cbn [batchLoop]; rewrite of_int_ltb by lia.
  - destruct (Z.ltb_spec k wc) as [Hi | Hi]; [lia | now eexists _, _].
  - destruct (Z.ltb_spec k wc) as [Hi | Hi]; [| now eexists _, _].
    rewrite Hsize, (batch_size_ends wc bs) by lia.
    destruct (batchBody_total (of_int wc) (of_int k) results s) as (results1 & s1 & Hbody).
    rewrite Hbody. apply batchBody_run in Hbody as (b & _ & _ & Hb & _).
    rewrite Hb, Hsize, of_int_add by lia. apply IH; trivial; [congruence | lia | lia].
Qed.

End Completion.



(** ** A fund amount that is not finite *)

Lemma not_finite_is_no_number x y suffix :
  not_finite x -> matches_number (toString (PrimFloat.mul x y) ++ suffix) = false.
Proof.
  intros Hx. unfold toString. rewrite FloatAxioms.mul_spec.
  destruct Hx as [-> | ->]; destruct (Prim2SF y) as [sy | sy | | sy my ey];
    try reflexivity; destruct sy; reflexivity.
Qed.

Lemma not_finite_above_zero x :
  not_finite x -> PrimFloat.leb x PrimFloat.zero = false.
Proof.
  intros Hx. rewrite FloatAxioms.leb_spec. now destruct Hx as [-> | ->].
Qed.

(** X17.  A [fundAmount] of [NaN] or [Infinity] passes the input checks
    of [createAndManageWallets] (it is a Number and not at most 0).  With
    a [walletCount] that passes them too and for which the gas units
    [gasLimit * 2 * walletCount] convert to a big number, the run asks the
    node for the gas price and for the balance, and fails, when both
    answer, in the unit conversion of the balance check, on the string
    that starts with "NaN" or "Infinity": the error is neither of the two
    input-check errors, and no account is created. *)
Theorem not_finite_fundAmount_fails_in_balance_check
  (L : Ledger) (cfg : Config) (arrival : list Event -> nat -> nat) (fuel : nat)
  (walletCount fundAmount : number) (s : State) (gasPrice units balance : Z) :
  isInteger walletCount = true ->
  PrimFloat.leb walletCount PrimFloat.zero = false ->
  toBN (PrimFloat.mul (PrimFloat.mul (of_int 21000) (of_int 2)) walletCount) = inr units ->
  not_finite fundAmount ->
  getGasPrice L (history s) = inr gasPrice ->
  getBalance L (EvGetGasPrice :: history s) (address (mainWallet (this s))) = inr balance ->
  createAndManageWallets L cfg arrival fuel walletCount fundAmount s =
  Some (inl (wrap_failure
               (not_a_number_error
                  (toString (PrimFloat.mul fundAmount walletCount)
                   ++ fromWei (gasPrice * units)))),
        mkState (this s)
                (EvGetBalance (address (mainWallet (this s))) :: EvGetGasPrice :: history s)
                (returned s)).
Proof.
  intros Hint Hwc Hunits Hfa Hgp Hbalance. unfold createAndManageWallets.
  rewrite Hint, Hwc. cbn [negb orb].
  rewrite (not_finite_above_zero _ Hfa).
  unfold preflight, checkMainBalance, bind, get_this, call, lift.
  cbn [this history returned]. rewrite Hgp, Hunits. cbn [this history returned].
  rewrite Hbalance. unfold toWei.
  rewrite (not_finite_is_no_number _ _ _ Hfa). reflexivity.
Qed.

Lemma not_finite_fundAmount_fails_in_balance_check_witness :
  createAndManageWallets Demo.quiet Demo.config Demo.taking_turns 0 (of_int 3)
                         PrimFloat.nan (constructor Demo.main 50)
  = Some (inl (mkError ("Wallet creation failed: while converting number to string, "
                        ++ "invalid number value 'NaN0.000126', "
                        ++ "should be a number matching (^-?[0-9.]+).")),
          mkState (this (constructor Demo.main 50))
                  [EvGetBalance "0xMAIN"; EvGetGasPrice] []).
Proof.
  exact (not_finite_fundAmount_fails_in_balance_check Demo.quiet Demo.config
           Demo.taking_turns 0 (of_int 3) PrimFloat.nan (constructor Demo.main 50)
           Demo.gwei 126000 (50 * Demo.ether)
           eq_refl eq_refl eq_refl (or_introl eq_refl) eq_refl eq_refl).
Defined.

(** ** checkMainBalance, and the unit conversions there and back *)

Lemma append_assoc (a b c : string) : (a ++ b) ++ c = a ++ (b ++ c).
Proof. induction a as [| x a IH]; cbn; [reflexivity | now rewrite IH]. Qed.

Lemma append_nil_r (a : string) : a ++ "" = a.
Proof. induction a as [| x a IH]; cbn; [reflexivity | now rewrite IH]. Qed.

Lemma list_of_append (a b : string) :
  list_ascii_of_string (a ++ b) = (list_ascii_of_string a ++ list_ascii_of_string b)%list.
Proof. induction a as [| x a IH]; cbn; [reflexivity | now rewrite IH]. Qed.

Lemma string_of_app (a b : list ascii) :
  string_of_list_ascii (a ++ b) = string_of_list_ascii a ++ string_of_list_ascii b.
Proof. induction a as [| x a IH]; cbn; [reflexivity | now rewrite IH]. Qed.

Lemma all_digits_append a b :
  all_digits (a ++ b) = all_digits a && all_digits b.
Proof. unfold all_digits. now rewrite list_of_append, forallb_app. Qed.

Lemma digit_char_digit d :
  0 <= d < 10 -> is_digit (digit_char d) = true /\ digit_val (digit_char d) = d.
Proof.
  intros Hd.
  assert (H : d = 0 \/ d = 1 \/ d = 2 \/ d = 3 \/ d = 4 \/ d = 5 \/ d = 6 \/ d = 7
              \/ d = 8 \/ d = 9) by lia.
  repeat (destruct H as [-> | H]); try subst d; split; reflexivity.
Qed.

Lemma is_digit_plain c :
  is_digit c = true -> Ascii.eqb c "." = false /\ Ascii.eqb c "-" = false.
Proof.
  destruct c as [[] [] [] [] [] [] [] []]; try discriminate; now split.
Qed.

Lemma stands_for_digit d : 0 <= d < 10 -> stands_for (String (digit_char d) "") d.
Proof.
  intros Hd. destruct (digit_char_digit d Hd) as (Hdigit & Hval). split.
  - unfold all_digits. cbn [list_ascii_of_string forallb]. now rewrite Hdigit.
  - intros acc rest. cbn [append parse_digits_acc String.length].
    rewrite Hdigit, Hval. f_equal. change (10 ^ Z.of_nat 1) with 10. lia.
Qed.

Lemma stands_for_append s1 n1 s2 n2 :
  stands_for s1 n1 -> stands_for s2 n2 ->
  stands_for (s1 ++ s2) (n1 * 10 ^ Z.of_nat (String.length s2) + n2).
Proof.
  intros (Hd1 & Hp1) (Hd2 & Hp2). split.
  - now rewrite all_digits_append, Hd1, Hd2.
  - intros acc rest. rewrite append_assoc, Hp1, Hp2, length_append, Nat2Z.inj_add.
    rewrite Z.pow_add_r by lia. f_equal. ring.
Qed.

Lemma stands_for_zeros k : stands_for (zeros k) 0.
Proof.
  induction k as [| k IH]; [split; [reflexivity | intros; cbn; f_equal; lia] |].
  change (zeros (S k)) with (String (digit_char 0) "" ++ zeros k).
  replace 0 with (0 * 10 ^ Z.of_nat (String.length (zeros k)) + 0) at 2 by lia.
  apply stands_for_append; [apply stands_for_digit; lia | exact IH].
Qed.

Lemma stands_for_parse s n : stands_for s n -> parse_digits s = Some n.
Proof.
  intros (_ & Hp). unfold parse_digits. specialize (Hp 0 "").
  rewrite append_nil_r in Hp. rewrite Hp. cbn. f_equal.
Qed.

Lemma stands_for_same s n m : stands_for s n -> stands_for s m -> n = m.
Proof.
  intros Hn Hm. apply stands_for_parse in Hn, Hm. congruence.
Qed.

Lemma length_zeros k : String.length (zeros k) = k.
Proof. induction k as [| k IH]; cbn; [reflexivity | now rewrite IH]. Qed.

(** *** The digits of a natural number *)

Lemma digits_acc_spec fuel : forall n acc,
  (0 < fuel)%nat -> 0 <= n < 2 ^ Z.of_nat fuel ->
  exists ds,
    digits_acc fuel n acc = ds ++ acc /\ stands_for ds n /\
    (0 < String.length ds)%nat /\
    n < 10 ^ Z.of_nat (String.length ds) /\
    (0 < n -> 10 ^ (Z.of_nat (String.length ds) - 1) <= n).
Proof.
  induction fuel as [| fuel IH]; intros n acc Hfuel Hn; [lia |].
  cbn [digits_acc].
  assert (Hmod : 0 <= n mod 10 < 10) by (apply Z.mod_pos_bound; lia).
  destruct (n / 10 =? 0) eqn:Hdiv.
  - apply Z.eqb_eq in Hdiv.
    assert (Hsmall : n = n mod 10).
    { rewrite (Z.div_mod n 10) at 1 by lia. rewrite Hdiv. lia. }
    exists (String (digit_char (n mod 10)) ""). split; [reflexivity |].
    split; [rewrite Hsmall at 2; now apply stands_for_digit |].
    cbn [String.length]. repeat split; lia.
  - apply Z.eqb_neq in Hdiv.
    assert (Hq : 0 < n / 10) by (pose proof (Z.div_pos n 10); lia).
    assert (Hpow : 2 ^ Z.of_nat (S fuel) = 2 * 2 ^ Z.of_nat fuel).
    { rewrite Nat2Z.inj_succ, Z.pow_succ_r by lia. reflexivity. }
    assert (Hbound : n / 10 < 2 ^ Z.of_nat fuel).
    { apply Z.div_lt_upper_bound; lia. }
    assert (Hf : (0 < fuel)%nat).
    { destruct fuel; [cbn in Hbound; lia | lia]. }
    destruct (IH (n / 10) (String (digit_char (n mod 10)) acc) Hf)
      as (ds & Hrun & Hds & Hlen & Hlt & Hge); [lia |].
    exists (ds ++ String (digit_char (n mod 10)) "").
    rewrite Hrun, append_assoc. split; [reflexivity |].
    rewrite length_append. cbn [String.length].
    replace (Z.of_nat (String.length ds + 1)) with (Z.of_nat (String.length ds) + 1) by lia.
    split; [| split; [lia | split]].
    + replace n with (n / 10 * 10 ^ Z.of_nat (String.length (String (digit_char (n mod 10)) ""))
                      + n mod 10) at 2.
      * apply stands_for_append; [exact Hds | now apply stands_for_digit].
      * cbn [String.length]. change (10 ^ Z.of_nat 1) with 10.
        rewrite (Z.div_mod n 10) at 3 by lia. lia.
    + rewrite Z.pow_add_r by lia. change (10 ^ 1) with 10.
      rewrite (Z.div_mod n 10) by lia. lia.
    + intros _. replace (Z.of_nat (String.length ds) + 1 - 1)
        with (Z.of_nat (String.length ds) - 1 + 1) by lia.
      rewrite Z.pow_add_r by lia. change (10 ^ 1) with 10.
      specialize (Hge Hq). rewrite (Z.div_mod n 10) by lia. lia.
Qed.

Lemma digits_spec n :
  0 <= n ->
  stands_for (digits n) n /\ (0 < String.length (digits n))%nat /\
  (0 < n -> 10 ^ (Z.of_nat (String.length (digits n)) - 1) <= n).
Proof.
  intros Hn. unfold digits.
  destruct (digits_acc_spec (S (Z.to_nat (Z.log2 n))) n "") as (ds & -> & H1 & H2 & _ & H3).
  - lia.
  - split; [lia |]. rewrite Nat2Z.inj_succ, Z2Nat.id by apply Z.log2_nonneg.
    destruct (Z.eq_dec n 0) as [-> | Hnz]; [cbn; lia |].
    apply Z.log2_spec. lia.
  - rewrite append_nil_r. repeat split; auto; apply H1.
Qed.

(** *** Trailing zeros, and the decimal point *)

Lemma string_of_zeros k : string_of_list_ascii (repeat "0"%char k) = zeros k.
Proof. induction k as [| k IH]; cbn; [reflexivity | now rewrite IH]. Qed.

Lemma strip_rev_spec r :
  exists k,
    r = (repeat "0"%char k ++ strip_trailing_zeros_rev r)%list /\
    (forall c t, strip_trailing_zeros_rev r = c :: t -> c <> "0"%char).
Proof.
  induction r as [| c r (k & Hr & Hhead)]; [exists 0%nat; split; [reflexivity | discriminate] |].
  cbn [strip_trailing_zeros_rev]. destruct (Ascii.eqb c "0") eqn:Hc.
  - apply Ascii.eqb_eq in Hc. subst c. exists (S k). split; [| exact Hhead].
    cbn [repeat app]. now rewrite <- Hr.
  - apply Ascii.eqb_neq in Hc. exists 0%nat. split; [reflexivity |].
    intros c' t H. now injection H as <- _.
Qed.

Lemma strip_spec s :
  exists k,
    s = strip_trailing_zeros s ++ zeros k /\
    String.eqb (strip_trailing_zeros s) "0" = false.
Proof.
  unfold strip_trailing_zeros.
  destruct (strip_rev_spec (rev (list_ascii_of_string s))) as (k & Hr & Hhead).
  set (t := strip_trailing_zeros_rev (rev (list_ascii_of_string s))) in *.
  exists k. split.
  - rewrite <- string_of_zeros, <- string_of_app, <- (rev_repeat k "0"%char),
      <- rev_app_distr, <- Hr, rev_involutive.
    now rewrite string_of_list_ascii_of_string.
  - apply String.eqb_neq. intros H.
    apply (f_equal list_ascii_of_string) in H.
    rewrite list_ascii_of_string_of_list_ascii in H. cbn in H.
    apply (f_equal (@rev ascii)) in H. rewrite rev_involutive in H. cbn in H.
    now apply (Hhead _ _ H).
Qed.

Lemma split_dot_nonempty s : split_dot s <> [].
Proof.
  destruct s as [| c s]; cbn; [discriminate |].
  destruct (Ascii.eqb c "."); [discriminate |]. now destruct (split_dot s).
Qed.

Lemma split_dot_digits a : forall rest,
  all_digits a = true ->
  split_dot (a ++ rest) =
  (a ++ hd "" (split_dot rest)) :: tl (split_dot rest).
Proof.
  induction a as [| c a IH]; intros rest Ha; cbn [append].
  - pose proof (split_dot_nonempty rest). now destruct (split_dot rest).
  - unfold all_digits in Ha. cbn [list_ascii_of_string forallb] in Ha.
    apply andb_prop in Ha as (Hc & Ha).
    cbn [split_dot]. destruct (is_digit_plain c Hc) as (-> & _).
    now rewrite (IH rest Ha).
Qed.

Lemma split_dot_whole a : all_digits a = true -> split_dot a = [a].
Proof.
  intros Ha. rewrite <- (append_nil_r a) at 1. rewrite split_dot_digits by assumption.
  cbn. now rewrite append_nil_r.
Qed.

Lemma split_dot_point a b :
  all_digits a = true -> all_digits b = true -> split_dot (a ++ "." ++ b) = [a; b].
Proof.
  intros Ha Hb. rewrite split_dot_digits by assumption.
  cbn [append split_dot Ascii.eqb]. cbn. rewrite split_dot_whole by assumption.
  cbn. now rewrite append_nil_r.
Qed.

Lemma digits_or_points s :
  all_digits s = true ->
  forallb (fun c => is_digit c || Ascii.eqb c ".") (list_ascii_of_string s) = true.
Proof.
  unfold all_digits. intros H. rewrite forallb_forall in *.
  intros c Hc. now rewrite (H c Hc).
Qed.

(** A number written by [fromWei]: some digits, and after a point some
    more. *)
Lemma matches_number_written whole rest :
  all_digits whole = true -> (0 < String.length whole)%nat ->
  forallb (fun c => is_digit c || Ascii.eqb c ".") (list_ascii_of_string rest) = true ->
  matches_number (whole ++ rest) = true /\
  match whole ++ rest with
  | String c _ => Ascii.eqb c "-" = false
  | EmptyString => False
  end /\
  String.eqb (whole ++ rest) "." = false.
Proof.
  intros Hw Hlen Hrest. destruct whole as [| c w]; [cbn in Hlen; lia |].
  pose proof Hw as Hc. unfold all_digits in Hc. cbn [list_ascii_of_string forallb] in Hc.
  apply andb_prop in Hc as (Hc & _). destruct (is_digit_plain c Hc) as (Hpoint & Hminus).
  cbn [append]. repeat split; trivial.
  - unfold matches_number. rewrite Hminus. cbn [String.eqb negb andb].
    change (String c (w ++ rest)) with (String c w ++ rest).
    now rewrite list_of_append, forallb_app, (digits_or_points _ Hw), Hrest.
  - cbn [String.eqb]. now rewrite Hpoint.
Qed.

Lemma or_zero_digits s : (0 < String.length s)%nat -> or_zero s = s.
Proof. destruct s; [cbn; lia | reflexivity]. Qed.

Lemma toWei_whole whole q :
  stands_for whole q -> (0 < String.length whole)%nat ->
  toWei whole = inr (q * 10 ^ 18).
Proof.
  intros Hq Hlen. pose proof Hq as (Hd & _).
  destruct (matches_number_written whole "" Hd Hlen eq_refl) as (Hm & Hsign & Hpoint).
  rewrite append_nil_r in *. unfold toWei. rewrite Hm. cbn [negb].
  destruct whole as [| c w]; [contradiction |]. rewrite Hsign, Hpoint.
  rewrite (split_dot_whole _ Hd). cbn [List.length nth].
  change (2 <? 1)%nat with false. cbv iota.
  rewrite (or_zero_digits _ Hlen). cbn [or_zero String.eqb String.length].
  change (18 <? 1)%nat with false. cbv iota.
  rewrite (stands_for_parse _ _ Hq).
  change ("0" ++ zeros (18 - 1)) with (zeros 18).
  rewrite (stands_for_parse _ _ (stands_for_zeros 18)). f_equal. lia.
Qed.

Lemma toWei_point whole q t r :
  stands_for whole q -> (0 < String.length whole)%nat ->
  all_digits t = true -> (0 < String.length t <= 18)%nat ->
  stands_for (t ++ zeros (18 - String.length t)) r ->
  toWei (whole ++ "." ++ t) = inr (q * 10 ^ 18 + r).
Proof.
  intros Hq Hlen Ht Hlt Hr. pose proof Hq as (Hd & _).
  destruct (matches_number_written whole ("." ++ t) Hd Hlen) as (Hm & Hsign & Hpoint).
  { cbn [append list_ascii_of_string forallb]. now rewrite (digits_or_points _ Ht). }
  unfold toWei. rewrite Hm. cbn [negb].
  destruct (whole ++ "." ++ t) as [| c v] eqn:Hv; [contradiction |].
  rewrite Hsign, Hpoint, <- Hv, (split_dot_point _ _ Hd Ht).
  cbn [List.length nth]. change (2 <? 2)%nat with false. cbv iota.
  rewrite (or_zero_digits _ Hlen), (or_zero_digits t) by lia.
  destruct (18 <? String.length t)%nat eqn:Hlong; [apply Nat.ltb_lt in Hlong; lia |].
  now rewrite (stands_for_parse _ _ Hq), (stands_for_parse _ _ Hr).
Qed.

(** [fromWei] writes an amount that [toWei] reads back. *)
Lemma toWei_fromWei n : 0 <= n -> toWei (fromWei n) = inr n.
Proof.
  intros Hn. unfold fromWei.
  destruct (n <? 0) eqn:Hneg; [apply Z.ltb_lt in Hneg; lia |].
  rewrite Z.abs_eq by assumption.
  assert (Hr : 0 <= n mod 10 ^ 18 < 10 ^ 18) by (apply Z.mod_pos_bound; lia).
  assert (Hq : 0 <= n / 10 ^ 18) by (apply Z.div_pos; lia).
  destruct (digits_spec (n / 10 ^ 18) Hq) as (Hwhole & Hwlen & _).
  destruct (digits_spec (n mod 10 ^ 18)) as (Hfrac & Hflen & Hfge); [lia |].
  set (whole := digits (n / 10 ^ 18)) in *.
  set (f0 := digits (n mod 10 ^ 18)) in *.
  assert (Hf18 : (String.length f0 <= 18)%nat).
  { destruct (Z.eq_dec (n mod 10 ^ 18) 0) as [H0 | Hnz].
    - subst f0. rewrite H0. cbn. lia.
    - assert (Hlt : 10 ^ (Z.of_nat (String.length f0) - 1) < 10 ^ 18) by lia.
      apply Z.pow_lt_mono_r_iff in Hlt; lia. }
  set (f1 := zeros (18 - String.length f0) ++ f0).
  assert (Hf1 : stands_for f1 (n mod 10 ^ 18)).
  { replace (n mod 10 ^ 18)
      with (0 * 10 ^ Z.of_nat (String.length f0) + n mod 10 ^ 18) by lia.
    apply stands_for_append; [apply stands_for_zeros | exact Hfrac]. }
  assert (Hlen1 : String.length f1 = 18%nat).
  { unfold f1. rewrite length_append, length_zeros. lia. }
  destruct (strip_spec f1) as (k & Hsplit & Hnot0).
  set (t := strip_trailing_zeros f1) in *.
  assert (Hk : (String.length t + k = 18)%nat).
  { rewrite <- Hlen1, Hsplit, length_append, length_zeros. reflexivity. }
  assert (Ht : all_digits t = true).
  { destruct Hf1 as (Hd & _). rewrite Hsplit, all_digits_append in Hd.
    now apply andb_prop in Hd. }
  replace (@inr Error Z n)
    with (@inr Error Z (n / 10 ^ 18 * 10 ^ 18 + n mod 10 ^ 18))
    by (f_equal; rewrite (Z.div_mod n (10 ^ 18)) at 3 by lia; lia).
  destruct t as [| c t'] eqn:Hteq.
  - change (or_zero "") with "0". change (String.eqb "0" "0") with true. cbv iota.
    rewrite append_nil_r.
    cbn [append] in Hsplit. rewrite Hsplit in Hf1.
    rewrite (stands_for_same _ _ _ Hf1 (stands_for_zeros k)), Z.add_0_r.
    now apply toWei_whole.
  - rewrite <- Hteq in *. rewrite (or_zero_digits t) by (rewrite Hteq; cbn; lia).
    rewrite Hnot0. apply toWei_point; trivial.
    + rewrite Hteq. cbn [String.length]. rewrite Hteq in Hk. cbn [String.length] in Hk. lia.
    + replace (18 - String.length t)%nat with k by lia. now rewrite <- Hsplit.
Qed.

(** X21.  [checkMainBalance] compares to the wei.  Asked for an amount of
    [required] wei written in ether, it asks the node for the balance of
    the main wallet, once, and returns [true] when the balance is at least
    [required] wei; when it is less, by however little, it throws the
    insufficient-balance error, whose message gives both amounts in ether
    exactly: read back, they are [required] and the balance. *)
Theorem checkMainBalance_compares_to_the_wei
  (L : Ledger) (required balance : Z) (s : State) :
  0 <= required -> 0 <= balance ->
  getBalance L (history s) (address (mainWallet (this s))) = inr balance ->
  checkMainBalance L (fromWei required) s =
  ((if balance <? required
    then inl (mkError ("Insufficient balance. Required: " ++ fromWei required
                       ++ " ETH, Available: " ++ fromWei balance ++ " ETH"))
    else inr true),
   mkState (this s) (EvGetBalance (address (mainWallet (this s))) :: history s)
           (returned s)) /\
  toWei (fromWei required) = inr required /\
  toWei (fromWei balance) = inr balance.
Proof.
  intros Hrequired Hbalance Hanswer.
  split; [| split; now apply toWei_fromWei].
  unfold checkMainBalance, bind, get_this, call, lift, throw, ret.
  cbn [this history returned]. rewrite Hanswer, (toWei_fromWei required Hrequired).
  now destruct (balance <? required).
Qed.

Lemma checkMainBalance_compares_to_the_wei_witness :
  checkMainBalance Demo.quiet (fromWei (50 * Demo.ether + 1)) (constructor Demo.main 50) =
  (inl (mkError ("Insufficient balance. Required: " ++ fromWei (50 * Demo.ether + 1)
                 ++ " ETH, Available: " ++ fromWei (50 * Demo.ether) ++ " ETH")),
   mkState (this (constructor Demo.main 50)) [EvGetBalance "0xMAIN"] []) /\
  toWei (fromWei (50 * Demo.ether + 1)) = inr (50 * Demo.ether + 1) /\
  toWei (fromWei (50 * Demo.ether)) = inr (50 * Demo.ether).
Proof.
  apply (checkMainBalance_compares_to_the_wei Demo.quiet (50 * Demo.ether + 1)
           (50 * Demo.ether) (constructor Demo.main 50)).
  - vm_compute. discriminate.
  - vm_compute. discriminate.
  - reflexivity.
Defined.

(* ================================================================== *)
(** * The funding tasks under a limiter with one slot *)

Section OneSlot.

Variable L : Ledger.
Variable cfg : Config.
Variables gp fv : Z.

Lemma activeCount_one_slot settled awaiting queued :
  Interleaving.activeCount (one_slot_pool settled awaiting queued)
  = match awaiting with Some _ => 1 | None => 0 end.
Proof.
  unfold Interleaving.activeCount, one_slot_pool. rewrite !filter_app, !length_app.
  rewrite queued_are_not_active.
  assert (Hs : filter Interleaving.is_awaiting (map Interleaving.Settled settled) = []).
  { induction settled as [| o os IH]; simpl; trivial. }
  rewrite Hs. now destruct awaiting as [[w a] |].
Qed.

Lemma start_first_one_slot settled queued s :
  Interleaving.start_first L (one_slot_pool settled None queued) s =
  match queued with
  | [] => None
  | w :: queued' =>
      match Interleaving.fundTask_request L s with
      | (inr answer, s') => Some (one_slot_pool settled (Some (w, answer)) queued', s')
      | (inl _, _) => None
      end
  end.
Proof.
  unfold one_slot_pool. cbn [app].
  induction settled as [| o os IH]; cbn [map app Interleaving.start_first].
  - destruct queued as [| w queued']; cbn [map Interleaving.start_first]; [reflexivity |].
    now destruct (Interleaving.fundTask_request L s) as [[e | answer] s'].
  - rewrite IH. destruct queued as [| w queued']; [reflexivity |].
    now destruct (Interleaving.fundTask_request L s) as [[e | answer] s'].
Qed.

Lemma resume_at_queued queued : forall i s,
  Interleaving.resume_at L cfg gp fv i (map Interleaving.Queued queued) s = None.
Proof.
  induction queued as [| w queued IH]; intros [| i] s; cbn [map Interleaving.resume_at];
    trivial. now rewrite IH.
Qed.

Lemma resume_at_idle settled queued : forall i s,
  Interleaving.resume_at L cfg gp fv i (one_slot_pool settled None queued) s = None.
Proof.
  unfold one_slot_pool. cbn [app].
  induction settled as [| o os IH]; intros i s; cbn [map app]; [apply resume_at_queued |].
  destruct i as [| i]; cbn [Interleaving.resume_at]; trivial. now rewrite IH.
Qed.

Lemma resume_at_busy settled w answer queued : forall i s,
  Interleaving.resume_at L cfg gp fv i (one_slot_pool settled (Some (w, answer)) queued) s =
  if (i =? List.length settled)%nat then
    match Interleaving.fundTask_resume L cfg gp fv w answer s with
    | (inr o, s') => Some (one_slot_pool (settled ++ [o]) None queued, s')
    | (inl _, _) => None
    end
  else None.
Proof.
  unfold one_slot_pool.
  induction settled as [| o os IH]; intros i s; cbn [map app List.length].
  - destruct i as [| i]; cbn [Interleaving.resume_at Nat.eqb].
    + now destruct (Interleaving.fundTask_resume L cfg gp fv w answer s) as [[e | o] s'].
    + now rewrite resume_at_queued.
  - destruct i as [| i]; cbn [Interleaving.resume_at Nat.eqb]; trivial.
    rewrite IH. destruct (i =? List.length os)%nat; trivial.
    now destruct (Interleaving.fundTask_resume L cfg gp fv w answer s) as [[e | o'] s'].
Qed.

Lemma outcomes_one_slot settled awaiting queued os :
  Interleaving.outcomes (one_slot_pool settled awaiting queued) = Some os ->
  awaiting = None /\ queued = [].
Proof.
  unfold one_slot_pool. revert os.
  induction settled as [| o settled IH]; intros os; cbn [map app Interleaving.outcomes].
  - destruct awaiting as [[w a] |]; [discriminate |].
    destruct queued; [now split | discriminate].
  - destruct (Interleaving.outcomes _) as [os' |] eqn:Hos; [| discriminate].
    intros _. eapply IH. reflexivity.
Qed.

Lemma nonces_from_succ first k :
  nonces_from first (S k) = (nonces_from first k ++ [first + Z.of_nat k])%list.
Proof. unfold nonces_from. now rewrite seq_S, map_app. Qed.

Variable main : Wallet.
Variable baseline : Z.
Variable from_main : string -> bool.
Hypothesis Hnode : keeps_count L main baseline from_main.
Hypothesis Hslot : CONCURRENT_TRANSACTIONS cfg = 1.

Variable s0 : State.
Hypothesis Hmain : mainWallet (this s0) = main.

Lemma funded_in_turn_next k s w :
  funded_in_turn from_main baseline s0 k s ->
  funded_in_turn from_main baseline s0 (S k) (snd (fundTask L cfg gp fv w s)).
Proof.
  intros (Hm & Hc & Hn). destruct Hnode as (Hcounts & Hsigns & Htakes).
  destruct (fundTask_one_at_a_time L cfg main baseline from_main Hcounts Hsigns Htakes
              gp fv w s) as (Hm' & Hn' & Hc'); [congruence |].
  split; [congruence |]. split; [rewrite Hc', Hc; lia |].
  rewrite Hn', Hn, Hc, nonces_from_succ, <- app_assoc. do 3 f_equal. lia.
Qed.

Lemma step_one_slot n a p p' :
  one_slot_invariant L from_main baseline s0 n p ->
  Interleaving.step L cfg gp fv a p = Some p' ->
  one_slot_invariant L from_main baseline s0 n p'.
Proof.
  intros (settled & awaiting & queued & Htasks & Hinv) Hstep.
  destruct a as [| i]; cbn [Interleaving.step] in Hstep; rewrite Htasks in Hstep.
  - rewrite activeCount_one_slot, Hslot in Hstep.
    destruct awaiting as [[w answer] |]; [discriminate |]. cbn in Hstep.
    rewrite start_first_one_slot in Hstep.
    destruct queued as [| w queued']; [discriminate |].
    destruct (Interleaving.fundTask_request L (Interleaving.state p))
      as [[e | answer] s'] eqn:Hreq; [discriminate |].
    injection Hstep as <-. destruct Hinv as (Hlen & Hturn).
    exists settled, (Some (w, answer)), queued'. cbn [Interleaving.tasks Interleaving.state].
    split; [reflexivity |]. split; [cbn [List.length] in Hlen; lia |].
    now exists (Interleaving.state p).
  - destruct awaiting as [[w answer] |].
    + rewrite resume_at_busy in Hstep.
      destruct (i =? List.length settled)%nat; [| discriminate].
      destruct Hinv as (Hlen & s & Hturn & Hreq).
      pose proof (fundTask_request_then_resume L cfg gp fv w s) as Hfund.
      rewrite Hreq in Hfund.
      destruct (Interleaving.fundTask_resume L cfg gp fv w answer (Interleaving.state p))
        as [[e | o] s'] eqn:Hres; [discriminate |].
      injection Hstep as <-.
      exists (settled ++ [o])%list, None, queued.
      cbn [Interleaving.tasks Interleaving.state].
      split; [reflexivity |]. rewrite length_app. cbn [List.length].
      split; [lia |]. rewrite Nat.add_1_r.
      replace s' with (snd (fundTask L cfg gp fv w s)) by now rewrite Hfund.
      now apply funded_in_turn_next.
    + now rewrite resume_at_idle in Hstep.
Qed.

Lemma run_one_slot n schedule : forall p p',
  one_slot_invariant L from_main baseline s0 n p ->
  Interleaving.run L cfg gp fv schedule p = Some p' ->
  one_slot_invariant L from_main baseline s0 n p'.
Proof.
  induction schedule as [| a schedule IH]; intros p p' Hinv Hrun; cbn [Interleaving.run] in Hrun.
  - now injection Hrun as <-.
  - destruct (Interleaving.step L cfg gp fv a p) as [p1 |] eqn:Hstep; [| discriminate].
    eapply IH; [| exact Hrun]. eapply step_one_slot; eauto.
Qed.

Lemma queue_one_slot ws :
  one_slot_invariant L from_main baseline s0 (List.length ws) (Interleaving.queue ws s0).
Proof.
  exists [], None, ws. cbn. split; [reflexivity |]. split; [reflexivity |].
  split; [reflexivity |]. split; [lia |]. unfold nonces_from. cbn. now rewrite app_nil_r.
Qed.

End OneSlot.

(** X15.  With [CONCURRENT_TRANSACTIONS = 1], on a node that keeps count
    for the main wallet ([keeps_count]: the pending count it reports is a
    baseline plus the submissions it attributes to the main wallet, it
    signs whatever the main wallet puts up for signature, what it signs so
    being attributed to the main wallet, and it takes every submission),
    the funding tasks of a batch get distinct nonces in a row under every
    schedule: whatever order of starts and resumptions the limiter allows,
    the funding transactions signed so far carry the node's count at the
    start of the batch and its successors, one for each task that was
    started and resumed, and once all tasks are settled there is one for
    each wallet.  (On a node that refuses a submission the count does not
    move and the next task gets the same nonce.) *)
Theorem single_slot_nonces_contiguous
  (L : Ledger) (cfg : Config) (gp fv : Z) (main : Wallet) (baseline : Z)
  (from_main : string -> bool) (ws : list Wallet) (s : State)
  (schedule : list Interleaving.Action) (p : Interleaving.Pool) :
  keeps_count L main baseline from_main ->
  CONCURRENT_TRANSACTIONS cfg = 1 ->
  mainWallet (this s) = main ->
  Interleaving.run L cfg gp fv schedule (Interleaving.queue ws s) = Some p ->
  exists k,
    (k <= List.length ws)%nat /\
    Interleaving.issued_nonces (history (Interleaving.state p))
    = (Interleaving.issued_nonces (history s)
       ++ nonces_from
            (baseline + Z.of_nat (occurrences (sent_by_main from_main) (history s))) k)%list /\
    (forall os, Interleaving.outcomes (Interleaving.tasks p) = Some os ->
                k = List.length ws).
Proof.
  intros Hnode Hslot Hmain Hrun.
  pose proof (run_one_slot L cfg gp fv main baseline from_main Hnode Hslot s Hmain
                (List.length ws) schedule _ _
                (queue_one_slot L baseline from_main s ws) Hrun)
    as (settled & awaiting & queued & Htasks & Hinv).
  exists (List.length settled). destruct awaiting as [[w answer] |].
  - destruct Hinv as (Hlen & s1 & (_ & _ & Hn) & Hreq). split; [lia |]. split.
    + unfold Interleaving.fundTask_request, bind, get_this, call in Hreq.
      injection Hreq as _ <-. cbn [history]. unfold fetch_request.
      now rewrite issued_nonces_fetch.
    + intros os Hos. rewrite Htasks in Hos. apply outcomes_one_slot in Hos as (Habs & _).
      discriminate.
  - destruct Hinv as (Hlen & (_ & _ & Hn)). split; [lia |]. split; [exact Hn |].
    intros os Hos. rewrite Htasks in Hos. apply outcomes_one_slot in Hos as (_ & ->).
    cbn [List.length] in Hlen. lia.
Qed.

Lemma quiet_keeps_count : keeps_count Demo.quiet Demo.main 7 Scenario.from_main.
Proof.
  split; [| split].
  - intros h. reflexivity.
  - intros h tx Htx. exists (Demo.raw_of tx). split; [reflexivity |].
    unfold Demo.raw_of, Scenario.from_main. rewrite Htx.
    change (address Demo.main ++ ">" ++ tx_to tx ++ "#" ++ BN_toString (tx_nonce tx))
      with (("0xMAIN" ++ ">") ++ tx_to tx ++ "#" ++ BN_toString (tx_nonce tx)).
    now rewrite prefix_append.
  - intros h raw. eexists. reflexivity.
Qed.

Lemma in_turn_pool_reached :
  Interleaving.run Demo.quiet Scenario.one_slot Demo.gwei Demo.ether
    Scenario.in_turn_schedule
    (Interleaving.queue [Demo.w0; Demo.w1] (constructor Demo.main 50))
  = Some Scenario.in_turn_pool.
Proof. vm_compute. reflexivity. Qed.

Lemma single_slot_nonces_contiguous_witness :
  exists k,
    (k <= 2)%nat /\
    Interleaving.issued_nonces (history (Interleaving.state Scenario.in_turn_pool))
    = nonces_from 7 k /\
    (forall os, Interleaving.outcomes (Interleaving.tasks Scenario.in_turn_pool) = Some os ->
                k = 2%nat).
Proof.
  exact (single_slot_nonces_contiguous Demo.quiet Scenario.one_slot Demo.gwei Demo.ether
           Demo.main 7 Scenario.from_main [Demo.w0; Demo.w1] (constructor Demo.main 50)
           Scenario.in_turn_schedule Scenario.in_turn_pool
           quiet_keeps_count eq_refl eq_refl in_turn_pool_reached).
Defined.

(* ================================================================== *)
(** * The schedules of the funding tasks, on the quiet node *)

Lemma eager_pool_reached :
  Interleaving.run Demo.quiet Demo.config Demo.gwei Demo.ether Scenario.eager_schedule
    (Interleaving.queue [Demo.w0; Demo.w1] (constructor Demo.main 50))
  = Some Scenario.eager_pool.
Proof. vm_compute. reflexivity. Qed.

Lemma eager_pool_settled :
  Interleaving.outcomes (Interleaving.tasks Scenario.eager_pool)
  = Some Scenario.eager_outcomes.
Proof. vm_compute. reflexivity. Qed.

Lemma interleaved_fundResults_witness :
  Forall2 (fun w o => outcome_of w fund o) [Demo.w0; Demo.w1] Scenario.eager_outcomes.
Proof.
  exact (interleaved_fundResults Demo.quiet Demo.config Demo.gwei Demo.ether
           [Demo.w0; Demo.w1] (constructor Demo.main 50) Scenario.eager_schedule
           Scenario.eager_pool Scenario.eager_outcomes
           eager_pool_reached eager_pool_settled).
Defined.

Lemma started_together_share_a_nonce_witness :
  exists p,
    Interleaving.run Demo.quiet Demo.config Demo.gwei Demo.ether Scenario.eager_schedule
      (Interleaving.queue [Demo.w0; Demo.w1] (constructor Demo.main 50)) = Some p /\
    Interleaving.issued_nonces (history (Interleaving.state p)) = [7; 7].
Proof.
  apply (started_together_share_a_nonce Demo.quiet Demo.config Demo.gwei Demo.ether
           Demo.w0 Demo.w1 [] (constructor Demo.main 50) 7).
  - cbn. lia.
  - reflexivity.
  - reflexivity.
Defined.

(* ================================================================== *)
(** * The earlier script, call after call *)

Section EarlierScript.

Variable L : Ledger.

Lemma variant_counts_up n : forall s c,
  currentNonce (this s) = Some c ->
  in_turn n (Variant.getNextNonce L) s =
  (inr (nonces_from c n),
   mkState (mkManager (mainWallet (this s)) (batchSize (this s)) (wallets (this s))
                      (Some (c + Z.of_nat n)))
           (history s) (returned s)).
Proof.
  induction n as [| n IH]; intros s c Hc; cbn [in_turn].
  - unfold ret, nonces_from. cbn. rewrite Z.add_0_r, <- Hc. now destruct s as [[]].
  - unfold bind at 1. rewrite (variant_getNextNonce_counts_locally L s c Hc).
    unfold bind at 1. rewrite (IH _ (c + 1)) by reflexivity.
    unfold ret. cbn [this history returned mainWallet batchSize wallets].
    f_equal.
    + f_equal. unfold nonces_from. cbn [seq map]. rewrite Z.add_0_r. f_equal.
      rewrite <- seq_shift, map_map. apply map_ext. intros k. lia.
    + do 3 f_equal. lia.
Qed.

End EarlierScript.

(** X16.  In the earlier script (src/unnamed/part_001), on an instance
    that has not asked for a nonce yet, calls of [getNextNonce] made one
    after the other count up from the node's answer to the first: when the
    node reports the count [c], the first [n + 1] calls return [c],
    [c + 1], ..., [c + n]; the node is asked once, by the first call, and
    [this.currentNonce] ends at [c + n + 1]. *)
Theorem variant_nonces_count_up_from_one_fetch
  (L : Ledger) (n : nat) (s : State) (c : Z) :
  currentNonce (this s) = None ->
  getTransactionCount L (history s) (address (mainWallet (this s))) "latest" = inr c ->
  in_turn (S n) (Variant.getNextNonce L) s =
  (inr (nonces_from c (S n)),
   mkState (mkManager (mainWallet (this s)) (batchSize (this s)) (wallets (this s))
                      (Some (c + Z.of_nat (S n))))
           (EvGetTransactionCount (address (mainWallet (this s))) "latest" :: history s)
           (returned s)).
Proof.
  intros Hnull Hc. cbn [in_turn]. unfold bind at 1.
  assert (Hfirst : Variant.getNextNonce L s =
            (inr c,
             mkState (mkManager (mainWallet (this s)) (batchSize (this s)) (wallets (this s))
                                (Some (c + 1)))
                     (EvGetTransactionCount (address (mainWallet (this s))) "latest"
                        :: history s)
                     (returned s))).
  { unfold Variant.getNextNonce, bind, get_this, call, increment_currentNonce,
      set_currentNonce, bind, get_this, set_this, ret.
    rewrite Hnull, Hc. reflexivity. }
  rewrite Hfirst. unfold bind at 1. rewrite (variant_counts_up L n _ (c + 1)) by reflexivity.
  unfold ret. cbn [this history returned mainWallet batchSize wallets]. f_equal.
  - f_equal. unfold nonces_from. cbn [seq map]. rewrite Z.add_0_r. f_equal.
    rewrite <- seq_shift, map_map. apply map_ext. intros k. lia.
  - do 3 f_equal. lia.
Qed.

Lemma variant_nonces_count_up_from_one_fetch_witness :
  in_turn 3 (Variant.getNextNonce Demo.quiet) (constructor Demo.main 50) =
  (inr [7; 8; 9],
   mkState (mkManager Demo.main 50 [] (Some 10))
           [EvGetTransactionCount "0xMAIN" "latest"] []).
Proof.
  exact (variant_nonces_count_up_from_one_fetch Demo.quiet 2 (constructor Demo.main 50) 7
           eq_refl eq_refl).
Defined.

(* ================================================================== *)
(** * The counters of trackMetrics *)

Lemma trackMetrics_step c m :
  Metrics.successfulTransactions m < 2 ^ 53 ->
  Metrics.failedTransactions m < 2 ^ 53 ->
  let m' := snd (Metrics.trackMetrics (Metrics.at_time c) (Metrics.succeeded c)
                   (inr (Metrics.gas c)) m) in
  Metrics.successfulTransactions m'
    = Metrics.successfulTransactions m + (if Metrics.succeeded c then 1 else 0) /\
  Metrics.failedTransactions m'
    = Metrics.failedTransactions m + (if Metrics.succeeded c then 0 else 1) /\
  Metrics.gasUsed m'
    = Metrics.gasUsed m + (if Metrics.succeeded c then Metrics.gas c else 0).
Proof.
  intros Hs Hf. apply Z.ltb_lt in Hs, Hf.
  unfold Metrics.trackMetrics, Metrics.increment.
  destruct (Metrics.succeeded c), (Metrics.not_set (Metrics.startTime m));
    cbn [snd Metrics.startTime Metrics.endTime Metrics.successfulTransactions
         Metrics.failedTransactions Metrics.gasUsed];
    rewrite ?Hs, ?Hf; repeat split; lia.
Qed.

Lemma track_counts calls : forall m,
  0 <= Metrics.successfulTransactions m ->
  0 <= Metrics.failedTransactions m ->
  Metrics.successfulTransactions m + Metrics.failedTransactions m
    + Z.of_nat (List.length calls) <= 2 ^ 53 ->
  Metrics.successfulTransactions (Metrics.track calls m)
    = Metrics.successfulTransactions m
      + Z.of_nat (List.length (filter Metrics.succeeded calls)) /\
  Metrics.failedTransactions (Metrics.track calls m)
    = Metrics.failedTransactions m
      + Z.of_nat (List.length (filter Metrics.failed_call calls)) /\
  Metrics.gasUsed (Metrics.track calls m)
    = Metrics.gasUsed m + Metrics.gas_of_successes calls.
Proof.
  induction calls as [| c calls IH]; intros m Hs Hf Hroom; cbn [Metrics.track].
  - cbn. repeat split; lia.
  - cbn [List.length] in Hroom. rewrite Nat2Z.inj_succ in Hroom.
    destruct (trackMetrics_step c m) as (H1 & H2 & H3); [lia | lia |].
    destruct (IH (snd (Metrics.trackMetrics (Metrics.at_time c) (Metrics.succeeded c)
                         (inr (Metrics.gas c)) m))) as (Hs' & Hf' & Hg').
    + rewrite H1. destruct (Metrics.succeeded c); lia.
    + rewrite H2. destruct (Metrics.succeeded c); lia.
    + rewrite H1, H2. destruct (Metrics.succeeded c); lia.
    + rewrite Hs', Hf', Hg', H1, H2, H3.
      unfold Metrics.failed_call. cbn [filter Metrics.gas_of_successes fold_right].
      fold (Metrics.gas_of_successes calls).
      destruct (Metrics.succeeded c); cbn [negb List.length];
        rewrite ?Nat2Z.inj_succ; repeat split; lia.
Qed.

(** X19.  Calls of [trackMetrics] made one after the other on the
    metrics of a new instance, no more than 2^53 of them, count every call
    once: [successfulTransactions] is the number of calls with
    [success = true], [failedTransactions] the number of the others, and
    [gasUsed] the total of the gas reported by the former; the gas a failed
    call reports is not counted. *)
Theorem trackMetrics_counts_every_call (calls : list Metrics.Call) :
  Z.of_nat (List.length calls) <= 2 ^ 53 ->
  let m := Metrics.track calls Metrics.initial in
  Metrics.successfulTransactions m
    = Z.of_nat (List.length (filter Metrics.succeeded calls)) /\
  Metrics.failedTransactions m
    = Z.of_nat (List.length (filter Metrics.failed_call calls)) /\
  Metrics.successfulTransactions m + Metrics.failedTransactions m
    = Z.of_nat (List.length calls) /\
  Metrics.gasUsed m = Metrics.gas_of_successes calls.
Proof.
  intros Hroom m.
  destruct (track_counts calls Metrics.initial) as (Hs & Hf & Hg); cbn; try lia.
  subst m. rewrite Hs, Hf, Hg. cbn. repeat split.
  rewrite <- Nat2Z.inj_add. f_equal.
  clear. induction calls as [| c calls IH]; cbn; trivial.
  unfold Metrics.failed_call in *. destruct (Metrics.succeeded c); cbn; lia.
Qed.

Lemma trackMetrics_counts_every_call_witness :
  let m := Metrics.track [Metrics.mkCall 1700000000000 true 21000;
                          Metrics.mkCall 1700000003000 false 21000;
                          Metrics.mkCall 1700000006000 true 21000] Metrics.initial in
  Metrics.successfulTransactions m = 2 /\
  Metrics.failedTransactions m = 1 /\
  Metrics.successfulTransactions m + Metrics.failedTransactions m = 3 /\
  Metrics.gasUsed m = 42000.
Proof.
  apply (trackMetrics_counts_every_call
           [Metrics.mkCall 1700000000000 true 21000;
            Metrics.mkCall 1700000003000 false 21000;
            Metrics.mkCall 1700000006000 true 21000]).
  cbn. lia.
Defined.

Lemma track_keeps_start_time calls : forall m t,
  Metrics.startTime m = Some t -> t <> 0 ->
  Metrics.startTime (Metrics.track calls m) = Some t.
Proof.
  induction calls as [| c calls IH]; intros m t Ht Hnz; cbn [Metrics.track]; trivial.
  apply IH; trivial. unfold Metrics.trackMetrics. rewrite Ht. cbn [Metrics.not_set].
  destruct (t =? 0) eqn:H0; [apply Z.eqb_eq in H0; contradiction |].
  now destruct (Metrics.succeeded c).
Qed.

(** X20.  [startTime] is the time of the first call of [trackMetrics]:
    set by the first call on a new instance, provided the clock does not
    read 0 then, and left alone by every call after it. *)
Theorem trackMetrics_starts_the_clock_once (first : Metrics.Call)
  (calls : list Metrics.Call) :
  Metrics.at_time first <> 0 ->
  Metrics.startTime (Metrics.track (first :: calls) Metrics.initial)
  = Some (Metrics.at_time first).
Proof.
  intros Hnz. cbn [Metrics.track]. apply track_keeps_start_time; trivial.
  unfold Metrics.trackMetrics. cbn. now destruct (Metrics.succeeded first).
Qed.

Lemma trackMetrics_starts_the_clock_once_witness :
  Metrics.startTime
    (Metrics.track [Metrics.mkCall 1700000000000 true 21000;
                    Metrics.mkCall 1700000003000 false 21000] Metrics.initial)
  = Some 1700000000000.
Proof.
  apply (trackMetrics_starts_the_clock_once (Metrics.mkCall 1700000000000 true 21000)).
  cbn. lia.
Defined.
